(** * quiz-module.js: a verification development

    A shallow embedding of the quiz engine of [src/quiz-module.js]
    (word-list normaliser, candidate index, distractor selection, question
    generation and the local statistics store) and the properties of its
    specification.

    Conventions.
    - A JavaScript string is the list of its UTF-16 code units, so that
      [length] is JavaScript's [.length] and [===] on strings is [=].
    - [Math.random()] is a sequence of fractions in [0,1): the k-th call
      returns the k-th element; the number of calls made so far is part of
      the state.
    - A JavaScript exception is an explicit result ([None] in the engine,
      [Raise] in the persistence layer).
    - What the store holds is text that may parse to any JSON value; the
      statistics code is modelled on all of them. *)

From Stdlib Require Import ZArith Lia.
From Stdlib Require Ascii String.
Import String.StringSyntax.
Arguments String.list_ascii_of_string s%_string_scope.
From stdpp Require Import base option list gmap.

Set Default Proof Using "Type".

(** ** JavaScript strings *)

Abbreviation jsstring := (list N).

(** The code units of an ASCII literal. *)
Definition lit (s : String.string) : jsstring :=
  Ascii.N_of_ascii <$> String.list_ascii_of_string s.
Arguments lit s%_string_scope.

(** [String.prototype.toLowerCase] restricted to ASCII letters; only used to
    instantiate the engine on concrete ASCII catalogs. *)
Definition ascii_toLowerCase (s : jsstring) : jsstring :=
  (λ c : N, if bool_decide (65 ≤ c ∧ c ≤ 90)%N then (c + 32)%N else c) <$> s.

(** ** Longest common substring (source lines 409-425) *)

Section lcs_defs.
Context {A : Type} `{EqDecision A}.

(** The table [dp]: an array of rows. *)
Abbreviation table := (list (list nat)).

(** [Array(m + 1).fill(null).map(() => Array(n + 1).fill(0))] *)
Definition new_table (m n : nat) : table := replicate (S m) (replicate (S n) 0).

(** [dp[i][j]] for a read inside the table. *)
Definition dp_get (dp : table) (i j : nat) : nat :=
  default 0 (dp !! i ≫= (.!! j)).

(** [dp[i][j] = v] *)
Definition dp_set (dp : table) (i j v : nat) : table :=
  match dp !! i with
  | Some r => <[i := <[j := v]> r]> dp
  | None => dp
  end.

(** Body of the inner loop at [(i, j)]; the loop state is [(dp, max)]. *)
Definition lcs_cell (a b : list A) (i j : nat) (st : table * nat) : table * nat :=
  let '(dp, mx) := st in
  if decide (a !! (i - 1) = b !! (j - 1)) then
    let dp' := dp_set dp i j (dp_get dp (i - 1) (j - 1) + 1) in
    (dp', if decide (mx < dp_get dp' i j) then dp_get dp' i j else mx)
  else (dp, mx).

(** [for (let j = 1; j <= n; j++)] *)
Definition lcs_row (a b : list A) (i : nat) (st : table * nat) : table * nat :=
  foldl (λ st j, lcs_cell a b i j st) st (seq 1 (length b)).

(** [for (let i = 1; i <= m; i++)] *)
Definition lcs_fill (a b : list A) : table * nat :=
  foldl (λ st i, lcs_row a b i st) (new_table (length a) (length b), 0)
    (seq 1 (length a)).

Definition longestCommonSubstringLength (a b : list A) : nat := (lcs_fill a b).2.

(** Reference notions, independent of the table. [s] occurs in [l] as a
    contiguous block: *)
Definition substring_of (s l : list A) : Prop := ∃ l1 l2, l = l1 ++ s ++ l2.

Definition common_substring (s a b : list A) : Prop :=
  substring_of s a ∧ substring_of s b.

(** [k] is the length of a longest common contiguous substring. *)
Definition longest_common_length (a b : list A) (k : nat) : Prop :=
  (∃ s, common_substring s a b ∧ length s = k) ∧
  (∀ s, common_substring s a b → length s ≤ k).

(** Length of the longest common suffix of [take i a] and [take j b]. *)
Fixpoint csuf (a b : list A) (i j : nat) : nat :=
  match i, j with
  | S i', S j' => if decide (a !! i' = b !! j') then S (csuf a b i' j') else 0
  | _, _ => 0
  end.

(** The table has [m + 1] rows of [n + 1] cells. *)
Definition table_dims (m n : nat) (dp : table) : Prop :=
  length dp = S m ∧ ∀ r, r ∈ dp → length r = S n.

(** The cells filled before the loops reach [(i0, j0)], in row-major order. *)
Definition filled (m n i0 j0 i j : nat) : Prop :=
  1 ≤ i ≤ m ∧ 1 ≤ j ≤ n ∧ (i < i0 ∨ i = i0 ∧ j < j0).

(** Invariant of the loops: a filled cell holds the common-suffix length at
    its position, any other cell holds 0, and [max] is the largest value over
    the filled cells. *)
Definition lcs_inv (a b : list A) (P : nat → nat → Prop) (st : table * nat) : Prop :=
  table_dims (length a) (length b) st.1 ∧
  (∀ i j, P i j → dp_get st.1 i j = csuf a b i j) ∧
  (∀ i j, ¬ P i j → dp_get st.1 i j = 0) ∧
  (∀ i j, P i j → csuf a b i j ≤ st.2) ∧
  (st.2 = 0 ∨ ∃ i j, P i j ∧ csuf a b i j = st.2).
End lcs_defs.

(** ** The host: [Math.random] and [String.prototype.toLowerCase] *)

(** A value of [Math.random()]: the fraction [uf_num / (uf_num + uf_gap + 1)],
    which ranges over the rationals of [0,1). *)
Record unit_frac := { uf_num : nat; uf_gap : nat }.

(** [Math.floor(r * k)] *)
Definition floor_times (r : unit_frac) (k : nat) : nat :=
  (uf_num r * k) / (uf_num r + uf_gap r + 1).

Class Host := {
  (** the value returned by the k-th call of [Math.random()] *)
  Math_random : nat → unit_frac;
  toLowerCase : jsstring → jsstring;
}.

(** ** Catalog, configuration and module state (source lines 28-48, 157-168) *)

(** A normalised entry [[word, meaning, hint, POS]]. *)
Record WordEntry := {
  headword : jsstring;
  meaning : jsstring;
  hint : jsstring;
  partOfSpeech : jsstring;
}.

(** [cfg.mode] is 0 or 1 and is used only as the index [w[cfg.mode]]. *)
Inductive Mode := Mode0 | Mode1.

(** [w[cfg.mode]] *)
Definition answer (m : Mode) (w : WordEntry) : jsstring :=
  match m with Mode0 => headword w | Mode1 => meaning w end.

Record Config := {
  words : list WordEntry;
  mode : Mode;
  selection : Z;
  avoidSimilarDistractors : bool;
}.

(** [wordIndexMap]: both objects are created with [Object.create(null)], so
    they hold exactly their own keys. *)
Record WordIndexMap := {
  byPOS : gmap jsstring (list nat);
  byLen : gmap nat (list nat);
}.

(** The payload [{ choices, correctIndex, word }] of [createChoicesFor]. *)
Record Question := {
  choices : list jsstring;
  correctIndex : Z;
  word : WordEntry;
}.

(** The mutable variables of [createQuiz] the engine reads and writes. An
    entry [None] of [usedWords] is the value [undefined]. *)
Record State := {
  randomCalls : nat;
  usedWords : list (option nat);
  indexBuilt : bool;
  wordIndexMap : WordIndexMap;
  currentQuestion : option (WordEntry * nat);
  correctAnswerIndex : Z;
  hintUsed : bool;
}.

Definition initial_state : State :=
  {| randomCalls := 0; usedWords := []; indexBuilt := false;
     wordIndexMap := {| byPOS := ∅; byLen := ∅ |};
     currentQuestion := None; correctAnswerIndex := (-1)%Z; hintUsed := false |}.

Definition set_randomCalls (k : nat) (s : State) : State :=
  {| randomCalls := k; usedWords := usedWords s; indexBuilt := indexBuilt s;
     wordIndexMap := wordIndexMap s; currentQuestion := currentQuestion s;
     correctAnswerIndex := correctAnswerIndex s; hintUsed := hintUsed s |}.

Definition set_usedWords (u : list (option nat)) (s : State) : State :=
  {| randomCalls := randomCalls s; usedWords := u; indexBuilt := indexBuilt s;
     wordIndexMap := wordIndexMap s; currentQuestion := currentQuestion s;
     correctAnswerIndex := correctAnswerIndex s; hintUsed := hintUsed s |}.

Definition set_index (built : bool) (m : WordIndexMap) (s : State) : State :=
  {| randomCalls := randomCalls s; usedWords := usedWords s; indexBuilt := built;
     wordIndexMap := m; currentQuestion := currentQuestion s;
     correctAnswerIndex := correctAnswerIndex s; hintUsed := hintUsed s |}.

Definition set_question (q : option (WordEntry * nat)) (c : Z) (s : State) : State :=
  {| randomCalls := randomCalls s; usedWords := usedWords s;
     indexBuilt := indexBuilt s; wordIndexMap := wordIndexMap s;
     currentQuestion := q; correctAnswerIndex := c; hintUsed := false |}.

(** ** State and exceptions *)

(** Code that cannot throw. *)
Definition St (A : Type) : Type := State → A * State.

(** Code that can throw; the state survives the exception. *)
Definition StE (A : Type) : Type := State → option A * State.

Definition ret {A} (a : A) : St A := λ s, (a, s).
Definition bind {A B} (m : St A) (f : A → St B) : St B :=
  λ s, let '(a, s') := m s in f a s'.
Definition gets {A} (f : State → A) : St A := λ s, (f s, s).
Definition modify (f : State → State) : St unit := λ s, (tt, f s).

Definition retE {A} (a : A) : StE A := λ s, (Some a, s).
Definition bindE {A B} (m : StE A) (f : A → StE B) : StE B :=
  λ s, match m s with
       | (Some a, s') => f a s'
       | (None, s') => (None, s')
       end.
(** A computation that cannot throw, run where exceptions can occur. *)
Definition lift {A} (m : St A) : StE A := λ s, let '(a, s') := m s in (Some a, s').
(** A pure step that throws when it is [None]. *)
Definition orThrow {A} (o : option A) : StE A := λ s, (o, s).

Declare Scope js_scope.
Delimit Scope js_scope with js.
Notation "'let!' x ':=' m 'in' k" := (bind m (λ x, k))
  (at level 10, x pattern, m at level 100, k at level 200) : js_scope.
Notation "'do!' m 'in' k" := (bind m (λ _, k))
  (at level 10, m at level 100, k at level 200) : js_scope.
Notation "'let?' x ':=' m 'in' k" := (bindE m (λ x, k))
  (at level 10, x pattern, m at level 100, k at level 200) : js_scope.
Open Scope js_scope.

(** ** Utilities (source lines 395-406) *)

Section engine.
Context `{Host}.

(** [Math.random()] *)
Definition random : St unit_frac :=
  λ s, (Math_random (randomCalls s), set_randomCalls (S (randomCalls s)) s).

(** [Math.floor(Math.random() * max)] *)
Definition getRandomInt (max : nat) : St nat :=
  let! r := random in ret (floor_times r max).

(** [[l[i], l[j]] = [l[j], l[i]]]; both indices are inside [l] wherever the
    engine swaps, so the branch that would extend the array is left out. *)
Definition swap {A} (l : list A) (i j : nat) : list A :=
  match l !! i, l !! j with
  | Some x, Some y => <[j := x]> (<[i := y]> l)
  | _, _ => l
  end.

(** [for (let i = shuffled.length - 1; i > 0; i--)] *)
Fixpoint shuffle_from {A} (i : nat) (shuffled : list A) : St (list A) :=
  match i with
  | 0 => ret shuffled
  | S i' =>
      let! r := random in
      let j := floor_times r (i + 1) in
      shuffle_from i' (swap shuffled i j)
  end.

Definition shuffleArray {A} (array : list A) : St (list A) :=
  shuffle_from (length array - 1) array.

(** ** Candidate index (source lines 170-187) *)

(** [m[k] = m[k] || []; m[k].push(i)] *)
Definition push_at `{Countable K} (k : K) (i : nat) (m : gmap K (list nat))
  : gmap K (list nat) :=
  <[k := default [] (m !! k) ++ [i]]> m.

(** [(cfg.words[i] || [])[3] || ""] *)
Definition pos_at (cfg : Config) (i : nat) : jsstring :=
  default [] (partOfSpeech <$> words cfg !! i).

(** [(((cfg.words[i] || [])[cfg.mode] || "") + "").length || 0] *)
Definition len_at (cfg : Config) (i : nat) : nat :=
  length (default [] (answer (mode cfg) <$> words cfg !! i)).

(** Body of the loop of [buildIndex] at index [i]. *)
Definition index_word (cfg : Config) (m : WordIndexMap) (i : nat) : WordIndexMap :=
  let POS := pos_at cfg i in
  let len := len_at cfg i in
  {| byPOS := if decide (POS = []) then byPOS m else push_at POS i (byPOS m);
     byLen := push_at len i (byLen m) |}.

Definition build (cfg : Config) : WordIndexMap :=
  foldl (index_word cfg) {| byPOS := ∅; byLen := ∅ |} (seq 0 (length (words cfg))).

Definition buildIndex (cfg : Config) : St unit :=
  modify (set_index true (build cfg)).

(** ** Candidate pool (source lines 189-215) *)

(** [candidates.add(idx)] on a [Set], kept in insertion order. *)
Definition set_add (idx : nat) (candidates : list nat) : list nat :=
  if decide (idx ∈ candidates) then candidates else candidates ++ [idx].

(** [for (const idx of arr) if (idx !== wordIndex) candidates.add(idx)] *)
Definition add_others (wordIndex : nat) (arr candidates : list nat) : list nat :=
  foldl (λ c idx, if decide (idx ≠ wordIndex) then set_add idx c else c) candidates arr.

(** One round of [for (let d = -2; d <= 2; d++)], with [len] the length of
    the answer text of the word at [wordIndex]. *)
Definition len_round (cfg : Config) (m : WordIndexMap) (wordIndex : nat)
    (candidates : list nat) (d : Z) : list nat :=
  let len := len_at cfg wordIndex in
  let l := (Z.of_nat len + d)%Z in
  if decide (l < 0)%Z then candidates
  else match byLen m !! Z.to_nat l with
       | Some arr => add_others wordIndex arr candidates
       | None => candidates
       end.

(** The set [candidates] just before it is converted to an array. *)
Definition candidate_set (cfg : Config) (m : WordIndexMap) (wordIndex : nat) : list nat :=
  let POS := pos_at cfg wordIndex in
  let c1 :=
    if decide (POS = []) then []
    else match byPOS m !! POS with
         | Some arr => add_others wordIndex arr []
         | None => []
         end in
  let c2 := foldl (len_round cfg m wordIndex) c1 [-2; -1; 0; 1; 2]%Z in
  if decide (length c2 = 0)
  then add_others wordIndex (seq 0 (length (words cfg))) c2
  else c2.

Definition getCandidateDistractorIndices (cfg : Config) (wordIndex : nat)
  : St (list nat) :=
  let! built := gets indexBuilt in
  do! (if built then ret tt else buildIndex cfg) in
  let! m := gets wordIndexMap in
  let arr := candidate_set cfg m wordIndex in
  if decide (200 < length arr)
  then let! shuffled := shuffleArray arr in ret (take 200 shuffled)
  else ret arr.

(** ** Question creation (source lines 428-483, 526-558) *)

Definition resetUsedWordsIfNeeded (totalWords : nat) : St unit :=
  modify (λ s, if decide (length (usedWords s) = totalWords)
               then set_usedWords [] s else s).

Definition chooseWordIndex (cfg : Config) : St (option nat) :=
  do! resetUsedWordsIfNeeded (length (words cfg)) in
  let! used := gets usedWords in
  let available := filter (λ i, Some i ∉ used) (seq 0 (length (words cfg))) in
  let! k := getRandomInt (length available) in
  let chosen := available !! k in
  do! modify (λ s, set_usedWords (usedWords s ++ [chosen]) s) in
  ret chosen.

(** [cfg.words.filter((_, idx) => idx !== wordIndex)]. An entry of the
    catalog is an array allocated by [normalizeWords], one per index, so a
    reference to an entry is the index it sits at; an index outside the
    catalog stands for [undefined]. *)
Definition others (cfg : Config) (wordIndex : nat) : list nat :=
  filter (λ idx, idx ≠ wordIndex) (seq 0 (length (words cfg))).

(** The callback of the similarity filter. *)
Definition dissimilar (target candidate : jsstring) : bool :=
  bool_decide (longestCommonSubstringLength target candidate
               < Nat.max 3 (length target / 2)).

(** [candidateDistractors.filter((w) => ...)]; reading [w[cfg.mode]] of
    an [undefined] element throws. *)
Fixpoint filter_dissimilar (cfg : Config) (target : jsstring)
    (candidateDistractors : list nat) : option (list nat) :=
  match candidateDistractors with
  | [] => Some []
  | i :: rest =>
      w ← words cfg !! i;
      let candidate := toLowerCase (answer (mode cfg) w) in
      rest' ← filter_dissimilar cfg target rest;
      Some (if dissimilar target candidate then i :: rest' else rest')
  end.

(** [if (cfg.improvements.avoidSimilarDistractors) { ... }] *)
Definition similarity_filter (cfg : Config) (correctAnswer : jsstring)
    (candidateDistractors : list nat) : option (list nat) :=
  if avoidSimilarDistractors cfg
  then filter_dissimilar cfg (toLowerCase correctAnswer) candidateDistractors
  else Some candidateDistractors.

(** [for (let i = 0; i < cfg.selection - 1 && i < shuffledDistractors.length; i++)
      wrongAnswers.push(shuffledDistractors[i][cfg.mode])] *)
Fixpoint take_wrong (cfg : Config) (i : nat) (shuffledDistractors : list nat)
    (wrongAnswers : list jsstring) : option (list jsstring) :=
  match shuffledDistractors with
  | [] => Some wrongAnswers
  | d :: rest =>
      if decide (Z.of_nat i < selection cfg - 1)%Z then
        w ← words cfg !! d;
        take_wrong cfg (S i) rest (wrongAnswers ++ [answer (mode cfg) w])
      else Some wrongAnswers
  end.

(** [for (let i = 0; i < fallback.length && wrongAnswers.length < cfg.selection - 1; i++)
      wrongAnswers.push(fallback[i][cfg.mode])] *)
Fixpoint top_up (cfg : Config) (fallback : list nat) (wrongAnswers : list jsstring)
    : option (list jsstring) :=
  match fallback with
  | [] => Some wrongAnswers
  | d :: rest =>
      if decide (Z.of_nat (length wrongAnswers) < selection cfg - 1)%Z then
        w ← words cfg !! d;
        top_up cfg rest (wrongAnswers ++ [answer (mode cfg) w])
      else Some wrongAnswers
  end.

(** [choices.indexOf(correctAnswer)] *)
Definition indexOf (l : list jsstring) (x : jsstring) : Z :=
  match list_find (λ y, y = x) l with
  | Some (i, _) => Z.of_nat i
  | None => (-1)%Z
  end.

(** [getCandidateDistractorIndices] cannot throw, so the [catch] branch
    around its call is never taken. *)
Definition createChoicesFor (cfg : Config) (wordIndex : nat) : StE Question :=
  let? word := orThrow (words cfg !! wordIndex) in
  let correctAnswer := answer (mode cfg) word in
  let? candIdx := lift (getCandidateDistractorIndices cfg wordIndex) in
  let candidateDistractors :=
    if decide (length candIdx = 0) then others cfg wordIndex else candIdx in
  let? candidateDistractors :=
    orThrow (similarity_filter cfg correctAnswer candidateDistractors) in
  let? shuffledDistractors := lift (shuffleArray candidateDistractors) in
  let? wrongAnswers := orThrow (take_wrong cfg 0 shuffledDistractors []) in
  let? wrongAnswers :=
    orThrow
      (if decide (Z.of_nat (length wrongAnswers) < selection cfg - 1)%Z then
         let fallback :=
           filter (λ idx, idx ≠ wordIndex ∧ idx ∉ shuffledDistractors)
             (seq 0 (length (words cfg))) in
         top_up cfg fallback wrongAnswers
       else Some wrongAnswers) in
  let? choices := lift (shuffleArray (correctAnswer :: wrongAnswers)) in
  retE {| choices := choices; correctIndex := indexOf choices correctAnswer;
          word := word |}.

(** [changeQuestion] without its writes to the page: the question it hands
    to [renderChoices]. [createChoicesFor(undefined)] throws at
    [word[cfg.mode]]. *)
Definition changeQuestion (cfg : Config) : StE Question :=
  let? wordIndex := lift (chooseWordIndex cfg) in
  let? wordIndex := orThrow wordIndex in
  let? q := createChoicesFor cfg wordIndex in
  let? _ := lift (modify (set_question (Some (word q, wordIndex)) (correctIndex q))) in
  retE q.

(** [restartQuiz], as far as the engine is concerned. *)
Definition restartQuiz (cfg : Config) : StE Question :=
  let? _ := lift (modify (set_usedWords [])) in
  changeQuestion cfg.
End engine.

(** ** Notions used to state the properties *)

Section notions.
Context `{Host}.

(** [x] has the part of speech of the target [t], which has one. *)
Definition shares_pos (cfg : Config) (t x : nat) : Prop :=
  pos_at cfg t ≠ [] ∧ pos_at cfg x = pos_at cfg t.

(** The answer text of [x] is within two code units of the target's. *)
Definition near_len (cfg : Config) (t x : nat) : Prop :=
  (-2 ≤ Z.of_nat (len_at cfg x) - Z.of_nat (len_at cfg t) ≤ 2)%Z.

Definition in_union (cfg : Config) (t x : nat) : Prop :=
  x ≠ t ∧ (shares_pos cfg t x ∨ near_len cfg t x).

#[global] Instance in_union_dec cfg t x : Decision (in_union cfg t x).
Proof. unfold in_union, shares_pos, near_len. apply _. Defined.

(** Every other index that shares the part of speech or is a length
    neighbour, in catalog order. *)
Definition candidate_union (cfg : Config) (t : nat) : list nat :=
  filter (in_union cfg t) (seq 0 (length (words cfg))).

(** The pool: the union, or every other index when the union is empty. *)
Definition candidate_pool (cfg : Config) (t : nat) : list nat :=
  if decide (candidate_union cfg t = []) then others cfg t
  else candidate_union cfg t.

(** The index, when built, was built from the current catalog and mode
    (section 3 of the specification: rebuilding is a precondition). *)
Definition index_ok (cfg : Config) (s : State) : Prop :=
  indexBuilt s = true → wordIndexMap s = build cfg.

(** [usedWords] holds distinct indices of the catalog. *)
Definition used_ok (cfg : Config) (s : State) : Prop :=
  NoDup (usedWords s) ∧
  ∀ u, u ∈ usedWords s → ∃ i, u = Some i ∧ i < length (words cfg).

Definition state_ok (cfg : Config) (s : State) : Prop :=
  index_ok cfg s ∧ used_ok cfg s.

(** The answer text behind a reference to a catalog entry. *)
Definition answer_of (cfg : Config) (i : nat) : jsstring :=
  default [] (answer (mode cfg) <$> words cfg !! i).

(** [k] consecutive calls of [chooseWordIndex], with their results. *)
Fixpoint choose_many (cfg : Config) (k : nat) : St (list (option nat)) :=
  match k with
  | 0 => ret []
  | S k' =>
      let! c := chooseWordIndex cfg in
      let! cs := choose_many cfg k' in
      ret (c :: cs)
  end.
Definition build_prefix cfg (k : nat) : WordIndexMap :=
  foldl (index_word cfg) {| byPOS := ∅; byLen := ∅ |} (seq 0 k).

(** The distractors of one question: distinct references to other entries,
    as many as the catalog and [cfg.selection] allow. *)
Definition distractors_for cfg (t : nat) (D : list nat) : Prop :=
  NoDup D ∧ (∀ d, d ∈ D → d < length (words cfg) ∧ d ≠ t) ∧
  length D = Nat.min (Z.to_nat (selection cfg - 1)) (length (words cfg) - 1).

(** What [usedWords] is once [resetUsedWordsIfNeeded] has run. *)
Definition after_reset cfg (s : State) : list (option nat) :=
  if decide (length (usedWords s) = length (words cfg)) then [] else usedWords s.
End notions.

(** The engine variables a computation leaves alone when it only draws
    random numbers. *)
Definition same_engine (s s' : State) : Prop :=
  usedWords s' = usedWords s ∧ indexBuilt s' = indexBuilt s ∧
  wordIndexMap s' = wordIndexMap s.

Definition nonempty {A} (l : list A) : option (list A) :=
  match l with [] => None | _ => Some l end.


(** ** Word-list normaliser (source lines 52-93) *)

Module Normalizer.

(** The JavaScript values a word source is made of. A number is an integer
    or [NaN]: of a number the normaliser only asks whether it is falsy.
    The properties of an object are its own enumerable string keys in the
    order of [Object.keys]. *)
#[warnings="-register-all"]
Inductive value :=
| VUndefined
| VNull
| VBool (b : bool)
| VNumber (z : Z)
| VNaN
| VString (s : jsstring)
| VArray (items : list value)
| VObject (props : list (jsstring * value))
| VFunction.

(** [!!v] *)
Definition truthy (v : value) : bool :=
  match v with
  | VUndefined | VNull | VNaN => false
  | VBool b => b
  | VNumber z => negb (z =? 0)%Z
  | VString s => negb (bool_decide (s = []))
  | VArray _ | VObject _ | VFunction => true
  end.

(** [v || ""] *)
Definition or_empty (v : value) : value :=
  if truthy v then v else VString [].

(** [v || {}] *)
Definition or_object (v : value) : value :=
  if truthy v then v else VObject [].

(** [item[i]] on an array *)
Definition at_index (items : list value) (i : nat) : value :=
  default VUndefined (items !! i).

(** [v[k]] for the keys the normaliser reads ([word], [meaning], [hint],
    [POS], a key of the object itself, or [undefined]): an own property
    of an object, [undefined] on anything else. *)
Definition get (v : value) (k : jsstring) : value :=
  match v with
  | VObject props => default VUndefined ((λ r, r.2.2) <$> list_find (λ p, p.1 = k) props)
  | _ => VUndefined
  end.

(** [Object.keys(item)[0]] *)
Definition first_key (props : list (jsstring * value)) : option jsstring :=
  fst <$> head props.

(** One iteration of the loop over an array source: the entry pushed, or
    [None] when the item is skipped. *)
Definition normalize_item (item : value) : option (list value) :=
  match item with
  | VArray a =>
      Some [or_empty (at_index a 0); or_empty (at_index a 1);
            or_empty (at_index a 2); or_empty (at_index a 3)]
  | VObject props =>
      match get item (lit "word") with
      | VString w =>
          Some [or_empty (VString w); or_empty (get item (lit "meaning"));
                or_empty (get item (lit "hint")); or_empty (get item (lit "POS"))]
      | _ =>
          let key := first_key props in
          let v := or_object (get item (default (lit "undefined") key)) in
          Some [from_option VString VUndefined key;
                or_empty (get v (lit "meaning"));
                or_empty (get v (lit "hint")); or_empty (get v (lit "POS"))]
      end
  | VString _ => Some [item; VString []; VString []; VString []]
  | _ => None
  end.

(** One iteration of the loop over a mapping source. *)
Definition normalize_key (raw : value) (key : jsstring) : list value :=
  let v := or_object (get raw key) in
  [VString key; or_empty (get v (lit "meaning"));
   or_empty (get v (lit "hint")); or_empty (get v (lit "POS"))].

Definition normalizeWords (raw : value) : list (list value) :=
  if negb (truthy raw) then []
  else match raw with
       | VArray items =>
           foldl (λ out item,
                    match normalize_item item with
                    | Some entry => out ++ [entry]
                    | None => out
                    end) [] items
       | VObject props =>
           foldl (λ out key, out ++ [normalize_key raw key]) [] (fst <$> props)
       | _ => []
       end.

(** An entry whose four fields are strings, as an entry of the engine's
    catalog. *)
Definition to_entry (entry : list value) : option WordEntry :=
  match entry with
  | [VString w; VString m; VString h; VString p] =>
      Some {| headword := w; meaning := m; hint := h; partOfSpeech := p |}
  | _ => None
  end.

End Normalizer.

(** ** Local statistics (source lines 112-155) *)

Module Persistence.

(** What a call returns: a value, or a thrown exception. *)
Inductive outcome (A : Type) :=
| Return (a : A)
| Raise.
Arguments Return {A} a.
Arguments Raise {A}.

(** [o] and then [f], unless [o] threw. *)
Definition and_then {A B} (o : outcome A) (f : A → outcome B) : outcome B :=
  match o with
  | Return a => f a
  | Raise => Raise
  end.

(** A number of the language. A finite binary64 number is [m * 2^e] for
    integers [m] and [e], and is given by them; the two zeros are one value,
    which the statistics code cannot tell apart. *)
Inductive number :=
| Finite (m e : Z)
| PosInfinity
| NegInfinity
| NaN.

#[local] Unset Elimination Schemes.
(** The values the statistics code meets: whatever [JSON.parse] returns
    for the stored text, and what the code makes of it. An array carries
    its elements (an [undefined] element stands for a hole as well) and the
    properties with other names that an assignment gave it; an object
    carries its own properties in the order of their creation (a browser
    enumerates those named like an index first, which nothing here depends
    on). *)
Inductive value :=
| JUndefined
| JNull
| JBool (b : bool)
| JNum (x : number)
| JStr (s : jsstring)
| JArr (items : list value) (props : list (jsstring * value))
| JObj (props : list (jsstring * value)).
#[local] Set Elimination Schemes.

Definition num_Z (z : Z) : value := JNum (Finite z 0).
Definition num_nat (n : nat) : value := num_Z (Z.of_nat n).

(** The integer that [m * 2^e] is, if it is one. *)
Definition as_integer (m e : Z) : option Z :=
  if decide (0 ≤ e)%Z then Some (m * 2 ^ e)%Z
  else if decide (m `mod` 2 ^ (- e) = 0)%Z then Some (m `div` 2 ^ (- e))%Z
       else None.

(** The natural number a value is, if it is one. *)
Definition as_nat (v : value) : option nat :=
  match v with
  | JNum (Finite m e) =>
      z ← as_integer m e; if decide (0 ≤ z)%Z then Some (Z.to_nat z) else None
  | _ => None
  end.

(** Truthiness: what [!v] and [v || w] test. *)
Definition truthy (v : value) : bool :=
  match v with
  | JUndefined | JNull => false
  | JBool b => b
  | JNum (Finite m _) => bool_decide (m ≠ 0%Z)
  | JNum NaN => false
  | JNum _ => true
  | JStr s => bool_decide (s ≠ [])
  | JArr _ _ | JObj _ => true
  end.

(** [v || w] *)
Definition or_value (v w : value) : value := if truthy v then v else w.

(** The first property of a name in a list of properties. *)
Fixpoint assoc {A} (k : jsstring) (l : list (jsstring * A)) : option A :=
  match l with
  | [] => None
  | (k', a) :: l' => if decide (k' = k) then Some a else assoc k l'
  end.

(** Assignment to a property: an existing one keeps its place, a new one
    comes last. *)
Fixpoint put {A} (k : jsstring) (a : A) (l : list (jsstring * A))
    : list (jsstring * A) :=
  match l with
  | [] => [(k, a)]
  | (k', a') :: l' =>
      if decide (k' = k) then (k, a) :: l' else (k', a') :: put k a l'
  end.

(** The kinds of value whose property lookup differs. *)
Inductive kind := KObject | KArray | KString | KNumber | KBoolean.

(** The non-negative integer that a string is the canonical decimal form
    of: digits only and no leading zero. *)
Definition digit (c : N) : option N :=
  if bool_decide (48 ≤ c ∧ c ≤ 57)%N then Some (c - 48)%N else None.

Definition decimal (s : jsstring) : option N :=
  foldl (λ acc c, a ← acc; d ← digit c; Some (10 * a + d)%N) (Some 0%N) s.

Definition canonical_index (s : jsstring) : option N :=
  match s with
  | [] => None
  | [48%N] => Some 0%N
  | 48%N :: _ => None
  | _ => decimal s
  end.

(** An array index: a canonical index below 2^32 - 1. *)
Definition array_index (s : jsstring) : option N :=
  i ← canonical_index s; if decide (i < 4294967295)%N then Some i else None.

Record ResultItem := {
  r_question : jsstring;
  r_correctAnswer : jsstring;
  r_hint : jsstring;
  r_answer : jsstring;
  r_correct : bool;
  r_hintUsed : bool;
}.

(** The browser as the statistics code meets it: the store, the JSON
    codec, and the operations of the language that the code reaches on
    stored values and that are not spelled out here. Every operation of the
    store may throw and may change the store; [JSON_parse] throws on text it
    cannot parse. *)
Class LocalStorage := {
  store : Type;
  (** [typeof window !== "undefined" && window.localStorage] *)
  hasLocalStorage : bool;
  getItem : jsstring → store → outcome (option jsstring) * store;
  setItem : jsstring → jsstring → store → outcome unit * store;
  removeItem : jsstring → store → outcome unit * store;
  JSON_parse : jsstring → outcome value;
  JSON_stringify : value → jsstring;
  (** The number a string converts to. *)
  StringToNumber : jsstring → number;
  (** The primitive an array or object converts to, always a string (the
      joined elements, or [[object Object]]); the conversion throws when
      the value's own [valueOf] and [toString] properties hide the built-in
      ones. *)
  ObjectToPrimitive : value → outcome jsstring;
  (** [x + 1] in binary64 arithmetic, for an [x] that is not an integer
      of magnitude below 2^53. *)
  add_rounded : number → number;
  (** Whether a value of the kind finds a property of the name on its
      prototype chain ([Object.prototype] for an object, before it
      [Array.prototype] for an array or the wrapper's prototype for a
      primitive). On a page that has not put properties of its own there,
      such a property is a function, or for [__proto__] the prototype
      object itself: a truthy object that accepts new properties. *)
  inherits : kind → jsstring → bool;
}.

Definition STORAGE_KEY : jsstring := lit "quiz_module_stats_v1".

(** [{ sessions: [], perWord: {}, highScore: 0 }] *)
Definition empty_stats : value :=
  JObj [(lit "sessions", JArr [] []); (lit "perWord", JObj []);
        (lit "highScore", num_Z 0)].

(** [{ attempts: 0, correct: 0, hintUsed: 0 }] *)
Definition fresh_entry : value :=
  JObj [(lit "attempts", num_Z 0); (lit "correct", num_Z 0);
        (lit "hintUsed", num_Z 0)].

(** [v.name] for one of the names the code spells out ([sessions],
    [perWord], [highScore], [attempts], [correct], [hintUsed]) and a [v]
    other than [null]: none of them is an array index or a property of a
    built-in prototype, so only an own property of an object or array is
    found. *)
Definition get_named (v : value) (name : jsstring) : value :=
  match v with
  | JArr _ props | JObj props => default JUndefined (assoc name props)
  | _ => JUndefined
  end.

(** [v.name = x] for one of these names: the code is strict, so the
    assignment throws on a primitive (and on [null]). *)
Definition set_named (v : value) (name : jsstring) (x : value) : outcome value :=
  match v with
  | JArr items props => Return (JArr items (put name x props))
  | JObj props => Return (JObj (put name x props))
  | _ => Raise
  end.

(** The own property [v[key]] for any key. *)
Definition own (v : value) (key : jsstring) : option value :=
  match v with
  | JObj props => assoc key props
  | JArr items props =>
      if decide (key = lit "length") then Some (num_nat (length items))
      else match array_index key with
           | Some i => items !! N.to_nat i
           | None => assoc key props
           end
  | JStr s =>
      if decide (key = lit "length") then Some (num_nat (length s))
      else match canonical_index key with
           | Some i => (λ c, JStr [c]) <$> s !! N.to_nat i
           | None => None
           end
  | _ => None
  end.

(** [v[key] = x] for an object [x]: on an array an index beyond the end
    lengthens the array and [length] refuses the object; on a primitive the
    assignment throws. *)
Definition assign (v : value) (key : jsstring) (x : value) : outcome value :=
  match v with
  | JObj props => Return (JObj (put key x props))
  | JArr items props =>
      if decide (key = lit "length") then Raise
      else match array_index key with
           | Some i =>
               if decide (N.to_nat i < length items)
               then Return (JArr (<[N.to_nat i := x]> items) props)
               else Return (JArr (items
                                  ++ replicate (N.to_nat i - length items) JUndefined
                                  ++ [x]) props)
           | None => Return (JArr items (put key x props))
           end
  | _ => Raise
  end.

Definition kind_of (v : value) : option kind :=
  match v with
  | JObj _ => Some KObject
  | JArr _ _ => Some KArray
  | JStr _ => Some KString
  | JNum _ => Some KNumber
  | JBool _ => Some KBoolean
  | JUndefined | JNull => None
  end.

Section persistence.
Context `{LocalStorage}.

Definition IO (A : Type) : Type := store → outcome A * store.

Definition pure {A} (a : A) : IO A := λ st, (Return a, st).
Definition throw {A} (o : outcome A) : IO A := λ st, (o, st).
Definition andThen {A B} (m : IO A) (f : A → IO B) : IO B :=
  λ st, match m st with
        | (Return a, st') => f a st'
        | (Raise, st') => (Raise, st')
        end.
(** [try { body } catch (e) { handler }] *)
Definition try_catch {A} (body handler : IO A) : IO A :=
  λ st, match body st with
        | (Return a, st') => (Return a, st')
        | (Raise, st') => handler st'
        end.

(** [!raw] for the result of [getItem] *)
Definition no_text (raw : option jsstring) : bool :=
  match raw with
  | None | Some [] => true
  | Some _ => false
  end.

Definition loadStats : IO value :=
  if negb hasLocalStorage then pure empty_stats
  else
    try_catch
      (andThen (getItem STORAGE_KEY) (λ raw,
         if no_text raw then pure empty_stats
         else throw (JSON_parse (default [] raw))))
      (andThen (try_catch (removeItem STORAGE_KEY) (pure tt)) (λ _,
         pure empty_stats)).

Definition saveStats (s : value) : IO unit :=
  if negb hasLocalStorage then pure tt
  else try_catch (setItem STORAGE_KEY (JSON_stringify s)) (pure tt).

(** [r.correctAnswer || r.question || "<unknown>"] *)
Definition word_key (r : ResultItem) : jsstring :=
  match r_correctAnswer r, r_question r with
  | [], [] => lit "<unknown>"
  | [], q => q
  | a, _ => a
  end.

(** [x + 1] on numbers: exact on the integers that stay within 2^53. *)
Definition number_plus_one (x : number) : number :=
  match x with
  | Finite m e =>
      match as_integer m e with
      | Some z =>
          if decide (- 2 ^ 53 ≤ z < 2 ^ 53)%Z then Finite (z + 1) 0
          else add_rounded x
      | None => add_rounded x
      end
  | PosInfinity => PosInfinity
  | NegInfinity => NegInfinity
  | NaN => NaN
  end.

(** [v + 1]: a sum of numbers, or a concatenation when [v] is a string or
    converts to one. *)
Definition plus_one (v : value) : outcome value :=
  match v with
  | JUndefined => Return (JNum NaN)
  | JNull => Return (num_Z 1)
  | JBool b => Return (num_Z (if b then 2 else 1))
  | JNum x => Return (JNum (number_plus_one x))
  | JStr s => Return (JStr (s ++ lit "1"))
  | JArr _ _ | JObj _ =>
      and_then (ObjectToPrimitive v) (λ s, Return (JStr (s ++ lit "1")))
  end.

(** The number a value converts to. *)
Definition ToNumber (v : value) : outcome number :=
  match v with
  | JUndefined => Return NaN
  | JNull => Return (Finite 0 0)
  | JBool b => Return (Finite (if b then 1 else 0) 0)
  | JNum x => Return x
  | JStr s => Return (StringToNumber s)
  | JArr _ _ | JObj _ =>
      and_then (ObjectToPrimitive v) (λ s, Return (StringToNumber s))
  end.

(** [n > x] for a count [n] *)
Definition exceeds (n : nat) (x : number) : bool :=
  match x with
  | Finite m e =>
      if decide (0 ≤ e)%Z then bool_decide (m * 2 ^ e < Z.of_nat n)%Z
      else bool_decide (m < Z.of_nat n * 2 ^ (- e))%Z
  | NegInfinity => true
  | PosInfinity | NaN => false
  end.

(** [!stats.highScore || correct > stats.highScore] *)
Definition beats (old : value) (correct : nat) : outcome bool :=
  if truthy old then and_then (ToNumber old) (λ x, Return (exceeds correct x))
  else Return true.

(** [r.hint && r.hint.length > 0 && r.hintUsed] *)
Definition hint_counts (r : ResultItem) : bool :=
  bool_decide (r_hint r ≠ []) && bool_decide (0 < length (r_hint r))
  && r_hintUsed r.

(** [e.name += 1] *)
Definition increment (name : jsstring) (e : value) : outcome value :=
  and_then (plus_one (get_named e name)) (set_named e name).

(** The three statements that count a result in its entry [e], a truthy
    value: they throw on a primitive. *)
Definition bump (r : ResultItem) (e : value) : outcome value :=
  and_then (increment (lit "attempts") e) (λ e1,
  and_then (if r_correct r then increment (lit "correct") e1 else Return e1) (λ e2,
  if hint_counts r then increment (lit "hintUsed") e2 else Return e2)).

(** Body of the loop over [results], for the value [perWord] of
    [stats.perWord]. An entry that [perWord] has of its own is counted in
    place, an absent or falsy one is created first. When [perWord] has no
    such property but inherits one, the inherited object is what gets
    counted and [perWord] stays as it is. (That object then holds [NaN]
    under the three names; as [NaN] is falsy and [NaN + 1] is [NaN], like
    [undefined], the loop reads nothing differently afterwards.) *)
Definition count_word (perWord : value) (r : ResultItem) : outcome value :=
  let key := word_key r in
  let create :=
    and_then (assign perWord key fresh_entry) (λ p,
    and_then (bump r fresh_entry) (assign p key)) in
  match own perWord key with
  | Some e =>
      if truthy e then and_then (bump r e) (assign perWord key) else create
  | None =>
      match kind_of perWord with
      | Some k => if inherits k key then Return perWord else create
      | None => create
      end
  end.

Fixpoint count_words (perWord : value) (results : list ResultItem)
    : outcome value :=
  match results with
  | [] => Return perWord
  | r :: rest => and_then (count_word perWord r) (λ p, count_words p rest)
  end.

(** [stats.sessions.push(session)]: only an array has [push]. *)
Definition push (sessions session : value) : outcome value :=
  match sessions with
  | JArr items props =>
      match assoc (lit "push") props with
      | None => Return (JArr (items ++ [session]) props)
      | Some _ => Raise
      end
  | _ => Raise
  end.

(** [{ ts: Date.now(), score: correct, questionCount }] *)
Definition session_record (now : Z) (correct : nat) (questionCount : Z) : value :=
  JObj [(lit "ts", num_Z now); (lit "score", num_nat correct);
        (lit "questionCount", num_Z questionCount)].

(** What [updateStatsWithSession] makes of the loaded value [stats]
    between [loadStats] and [saveStats]; [now] is the value of
    [Date.now()]. The arrays and objects that the code changes in place are
    written back where they are held. The module is an ES module, hence
    strict code: [stats.sessions] of [null] and [stats.sessions = ...] on
    any other primitive throw. *)
Definition record_session (stats : value) (results : list ResultItem)
    (questionCount : Z) (now : Z) : outcome value :=
  let correct := length (filter (λ r, r_correct r = true) results) in
  let session := session_record now correct questionCount in
  and_then (set_named stats (lit "sessions")
              (or_value (get_named stats (lit "sessions")) (JArr [] []))) (λ s1,
  and_then (set_named s1 (lit "perWord")
              (or_value (get_named s1 (lit "perWord")) (JObj []))) (λ s2,
  and_then (push (get_named s2 (lit "sessions")) session) (λ sessions,
  and_then (set_named s2 (lit "sessions") sessions) (λ s3,
  and_then (beats (get_named s3 (lit "highScore")) correct) (λ better,
  and_then (if better : bool then set_named s3 (lit "highScore") (num_nat correct)
            else Return s3) (λ s4,
  and_then (count_words (get_named s4 (lit "perWord")) results) (λ perWord,
  set_named s4 (lit "perWord") perWord))))))).

Definition updateStatsWithSession (results : list ResultItem) (questionCount : Z)
    (now : Z) : IO value :=
  andThen loadStats (λ loaded,
    match record_session loaded results questionCount now with
    | Return stats => andThen (saveStats stats) (λ _, pure stats)
    | Raise => throw Raise
    end).
End persistence.

(** The names [Object.prototype] has in a browser. *)
Definition Object_prototype : list jsstring :=
  [lit "constructor"; lit "__defineGetter__"; lit "__defineSetter__";
   lit "hasOwnProperty"; lit "__lookupGetter__"; lit "__lookupSetter__";
   lit "isPrototypeOf"; lit "propertyIsEnumerable"; lit "toString";
   lit "valueOf"; lit "__proto__"; lit "toLocaleString"].

(** A store that keeps one text, with a toy codec: a run of the letter i
    stands for the statistics object that has just this high score, the text
    [null] for [null], and nothing else parses. Of the language it knows the
    names of [Object.prototype], the number a run of digits is, and exact
    sums. *)
Definition example_storage : LocalStorage :=
  {| store := option jsstring;
     hasLocalStorage := true;
     getItem := λ _ st, (Return st, st);
     setItem := λ _ text _, (Return tt, Some text);
     removeItem := λ _ _, (Return tt, None);
     JSON_parse := λ text,
       if decide (text = lit "null") then Return JNull
       else if decide (text = replicate (length text) 105%N)
            then Return (JObj [(lit "highScore", num_nat (length text))])
            else Raise;
     JSON_stringify := λ s,
       replicate (default 0 (as_nat (get_named s (lit "highScore")))) 105%N;
     StringToNumber := λ s,
       match s with
       | [] => Finite 0 0
       | _ => match decimal s with
              | Some n => Finite (Z.of_N n) 0
              | None => NaN
              end
       end;
     ObjectToPrimitive := λ v,
       match v with
       | JObj _ => Return (lit "[object Object]")
       | _ => Return []
       end;
     add_rounded := λ x,
       match x with
       | Finite m e =>
           if decide (0 ≤ e)%Z then Finite (m * 2 ^ e + 1) 0
           else Finite (m + 2 ^ (- e)) e
       | _ => x
       end;
     inherits := λ _ key, bool_decide (key ∈ Object_prototype) |}.

End Persistence.

(** ** Example catalogs *)

(** A host whose k-th random number is k / (k + 3) and whose lower-casing
    is the ASCII one. *)
Definition example_host : Host :=
  {| Math_random := λ k, {| uf_num := k; uf_gap := 2 |};
     toLowerCase := ascii_toLowerCase |}.

Definition entry (w m p : String.string) : WordEntry :=
  {| headword := lit w; meaning := lit m; hint := []; partOfSpeech := lit p |}.
Arguments entry (w m p)%_string_scope.

(** Two words with the same meaning, asked by meaning. *)
Definition synonyms_cfg : Config :=
  {| words := [entry "cat" "animal" "noun"; entry "dog" "animal" "noun"];
     mode := Mode1; selection := 4; avoidSimilarDistractors := false |}.

(** Three words, two of them with the same headword, asked by headword. *)
Definition homographs_cfg : Config :=
  {| words := [entry "bank" "river side" "noun"; entry "bank" "money house" "noun";
               entry "run" "move fast" "verb"];
     mode := Mode0; selection := 4; avoidSimilarDistractors := false |}.

(** Six nouns with headwords of three to five letters (section 8 of the
    specification). *)
Definition nouns_cfg : Config :=
  {| words := [entry "cat" "neko" "noun"; entry "dog" "inu" "noun";
               entry "bird" "tori" "noun"; entry "fish" "sakana" "noun";
               entry "horse" "uma" "noun"; entry "mouse" "nezumi" "noun"];
     mode := Mode1; selection := 4; avoidSimilarDistractors := false |}.

(** A catalog with a near-copy of a headword, the similarity filter on. *)
Definition insist_cfg : Config :=
  {| words := [entry "insist" "x" "verb"; entry "insisting" "y" "verb";
               entry "dog" "z" "noun"; entry "cat" "w" ""];
     mode := Mode0; selection := 4; avoidSimilarDistractors := true |}.

(** ** Further notions *)

(** The elements of [l] increase strictly from left to right. *)
Definition ascending (l : list nat) : Prop :=
  ∀ i j x y, i < j → l !! i = Some x → l !! j = Some y → x < y.

Section more_notions.
Context `{Host}.

(** [k] consecutive calls of [changeQuestion]; an exception ends the run. *)
Fixpoint ask_many (cfg : Config) (k : nat) : StE (list Question) :=
  match k with
  | 0 => retE []
  | S k' =>
      let? q := changeQuestion cfg in
      let? qs := ask_many cfg k' in
      retE (q :: qs)
  end.
End more_notions.

Section choice_notions.
Context `{Host}.

(** The index [i] may serve as a distractor for the word [w]: with the
    similarity filter on, its answer text passes the filter's test. *)
Definition acceptable (cfg : Config) (w : WordEntry) (i : nat) : bool :=
  if avoidSimilarDistractors cfg
  then dissimilar (toLowerCase (answer (mode cfg) w)) (toLowerCase (answer_of cfg i))
  else true.
End choice_notions.

(** The six nouns asked by headword, the similarity filter on. *)
Definition nouns_filtered_cfg : Config :=
  {| words := words nouns_cfg; mode := Mode0; selection := 4;
     avoidSimilarDistractors := true |}.

(** ** Further notions for the normaliser and the statistics *)

Section normalizer_notions.
Import Normalizer.

(** A catalog entry as the array [normalizeWords] pushes for it. *)
Definition entry_value (w : WordEntry) : list value :=
  [VString (headword w); VString (meaning w); VString (hint w);
   VString (partOfSpeech w)].

(** The items of an array source that are not skipped. *)
Definition recognised (item : value) : bool :=
  match item with
  | VArray _ | VObject _ | VString _ => true
  | _ => false
  end.
End normalizer_notions.

Section persistence_notions.
Import Persistence.

(** An object or an array: a value that takes properties. *)
Definition is_object (v : value) : bool :=
  match v with
  | JObj _ | JArr _ _ => true
  | _ => false
  end.

(** The elements of [stats.sessions]; none when that is not an array. *)
Definition session_list (stats : value) : list value :=
  match get_named stats (lit "sessions") with
  | JArr items _ => items
  | _ => []
  end.

(** A value to which 1 can be added, and which converts to a number,
    without a call into the value: anything but an array or object. *)
Definition addable (v : value) : bool :=
  match v with
  | JArr _ _ | JObj _ => false
  | _ => true
  end.

(** What the loop can count in: a falsy value, which it replaces, or an
    object or array whose three counters are addable. *)
Definition entry_ok (e : value) : bool :=
  match e with
  | JObj _ | JArr _ _ =>
      addable (get_named e (lit "attempts")) && addable (get_named e (lit "correct"))
      && addable (get_named e (lit "hintUsed"))
  | _ => negb (truthy e)
  end.

(** A falsy value, or an object of such entries. *)
Definition perWord_ok (p : value) : bool :=
  match p with
  | JObj props => forallb (λ kv, entry_ok kv.2) props
  | _ => negb (truthy p)
  end.

(** A falsy value, or an array (that has no property [push] of its own). *)
Definition sessions_ok (s : value) : bool :=
  match s with
  | JArr _ props => bool_decide (assoc (lit "push") props = None)
  | _ => negb (truthy s)
  end.

(** The shape of statistics that [updateStatsWithSession] can update: an
    object (or array) whose [sessions], [perWord] and [highScore] are as
    above. Every value the module writes has it. *)
Definition stats_ok (stats : value) : bool :=
  is_object stats
  && sessions_ok (get_named stats (lit "sessions"))
  && perWord_ok (get_named stats (lit "perWord"))
  && addable (get_named stats (lit "highScore")).

(** The count that [perWord] holds for [key] under [name]: 0 when it has
    no entry of its own there or a falsy one, none when the entry's value
    under [name] is not a natural number. *)
Definition counter_of (perWord : value) (key name : jsstring) : option nat :=
  match own perWord key with
  | Some e => if truthy e then as_nat (get_named e name) else Some 0
  | None => Some 0
  end.

(** The stored high score as a natural number: 0 for a falsy one. *)
Definition highScore_nat (stats : value) : option nat :=
  let h := get_named stats (lit "highScore") in
  if truthy h then as_nat h else Some 0.
End persistence_notions.

(** ** A store that gives back what was saved *)

Section faithful_store.
Import Persistence.

#[global] Instance number_eq_dec : EqDecision number.
Proof. solve_decision. Defined.
#[global] Instance number_countable : Countable number :=
  inj_countable'
    (λ x, match x with
          | Finite m e => inl (m, e)
          | PosInfinity => inr 0
          | NegInfinity => inr 1
          | NaN => inr 2
          end)
    (λ c, match c with
          | inl (m, e) => Finite m e
          | inr 0 => PosInfinity
          | inr 1 => NegInfinity
          | inr _ => NaN
          end)
    (λ x, match x with
          | Finite _ _ | PosInfinity | NegInfinity | NaN => eq_refl
          end).

(** A value as a tree of its primitives, and back. *)
Fixpoint to_tree (v : value) : gen_tree (bool + number + jsstring) :=
  match v with
  | JUndefined => GenNode 0 []
  | JNull => GenNode 1 []
  | JBool b => GenLeaf (inl (inl b))
  | JNum x => GenLeaf (inl (inr x))
  | JStr s => GenLeaf (inr s)
  | JArr items props =>
      GenNode 2
        [GenNode 0 (to_tree <$> items);
         GenNode 0 ((λ kv, GenNode 0 [GenLeaf (inr kv.1); to_tree kv.2]) <$> props)]
  | JObj props =>
      GenNode 3 ((λ kv, GenNode 0 [GenLeaf (inr kv.1); to_tree kv.2]) <$> props)
  end.

Fixpoint of_tree (t : gen_tree (bool + number + jsstring)) : option value :=
  let property (t : gen_tree (bool + number + jsstring)) :=
    match t with
    | GenNode 0 [GenLeaf (inr k); tv] => v ← of_tree tv; Some (k, v)
    | _ => None
    end in
  match t with
  | GenNode 0 [] => Some JUndefined
  | GenNode 1 [] => Some JNull
  | GenLeaf (inl (inl b)) => Some (JBool b)
  | GenLeaf (inl (inr x)) => Some (JNum x)
  | GenLeaf (inr s) => Some (JStr s)
  | GenNode 2 [GenNode 0 its; GenNode 0 ps] =>
      items ← mapM of_tree its; props ← mapM property ps; Some (JArr items props)
  | GenNode 3 ps => props ← mapM property ps; Some (JObj props)
  | _ => None
  end.

(** A number as a text of the digits 0 and 1, and back. *)
Fixpoint pos_text (p : positive) : jsstring :=
  match p with
  | xH => []
  | xO q => 48%N :: pos_text q
  | xI q => 49%N :: pos_text q
  end.
Fixpoint text_pos (t : jsstring) : option positive :=
  match t with
  | [] => Some xH
  | c :: t' =>
      q ← text_pos t';
      if decide (c = 48%N) then Some (xO q)
      else if decide (c = 49%N) then Some (xI q) else None
  end.

(** The text of a value: an opening brace followed by the digits of the
    code of its tree. *)
Definition value_text (v : value) : jsstring :=
  123%N :: pos_text (encode (to_tree v)).
Definition text_value (text : jsstring) : option value :=
  match text with
  | 123%N :: t => p ← text_pos t; tree ← decode p; of_tree tree
  | _ => None
  end.

(** A store that keeps one text and never throws, with a codec that reads
    back every value it has written; any other text does not parse. Of the
    language it knows what [example_storage] knows. *)
Definition faithful_storage : LocalStorage :=
  {| store := option jsstring;
     hasLocalStorage := true;
     getItem := λ _ st, (Return st, st);
     setItem := λ _ text _, (Return tt, Some text);
     removeItem := λ _ _, (Return tt, None);
     JSON_parse := λ text,
       match text_value text with
       | Some v => Return v
       | None => Raise
       end;
     JSON_stringify := value_text;
     StringToNumber := @StringToNumber example_storage;
     ObjectToPrimitive := @ObjectToPrimitive example_storage;
     add_rounded := @add_rounded example_storage;
     inherits := @inherits example_storage |}.

End faithful_store.

(** A result for the word [w]. *)
Definition answered (w : String.string) (right hinted : bool)
    : Persistence.ResultItem :=
  {| Persistence.r_question := lit "q"; Persistence.r_correctAnswer := lit w;
     Persistence.r_hint := lit "h"; Persistence.r_answer := lit w;
     Persistence.r_correct := right; Persistence.r_hintUsed := hinted |}.
Arguments answered w%_string_scope right hinted.

(** ** The page and the session (source lines 157-164, 217-283, 485-501,
    526-614, 648-656) *)

Module UI.

(** A selection button, with the properties the module writes. *)
Record Button := {
  textContent : jsstring;
  display : jsstring;
  disabled : bool;
  className : jsstring;
  role : jsstring;
  ariaPressed : jsstring;
  tabIndex : Z;
}.

(** [refs]: the elements handed to [init], each with what the module
    writes to it. The score line and the result table, which are written once
    and never read, are left out. *)
Record Refs := {
  selectionButtons : list Button;
  questionText : jsstring;
  hintText : jsstring;
  resultText : jsstring;
  nextButton_disabled : bool;
  nextButton_textContent : jsstring;
  quizScreen_display : jsstring;
  resultScreen_display : jsstring;
}.

(** [cfg.texts] *)
Record Texts := {
  text_next : jsstring;
  text_results : jsstring;
  correctText : jsstring;
  incorrectPrefix : jsstring;
  incorrectSuffix : jsstring;
}.

(** [cfg], with the options the session reads besides those of the engine. *)
Record Options := {
  quiz : Config;
  questionCount : Z;
  texts : Texts;
}.

(** The global [window.wordsMap] as the module uses it: the hint and the
    part of speech it holds for a headword, the empty string when the map,
    the headword or the field is missing. *)
Class Window := {
  wordsMap_hint : jsstring → jsstring;
  wordsMap_POS : jsstring → jsstring;
}.

(** A JavaScript number that is an integer or [NaN]. *)
Inductive number :=
| Num (z : Z)
| NaN.

(** [x % len] for a length [len]: [NaN] when [len] is 0, else the remainder
    with the sign of [x]. *)
Definition remainder (x : number) (len : nat) : number :=
  match x with
  | Num z => if decide (len = 0) then NaN else Num (Z.rem z (Z.of_nat len))
  | NaN => NaN
  end.

(** [x + k] *)
Definition plus (x : number) (k : Z) : number :=
  match x with
  | Num z => Num (z + k)
  | NaN => NaN
  end.

(** [array[x]] *)
Definition at_number {A} (l : list A) (x : number) : option A :=
  match x with
  | Num z => if decide (0 ≤ z)%Z then l !! Z.to_nat z else None
  | NaN => None
  end.

(** The keys [handleKeydown] tells apart. *)
Inductive Key :=
| ArrowRight | ArrowDown | ArrowLeft | ArrowUp | Enter | Space | OtherKey.

(** The literals of the source, in UTF-16 code units. *)
Definition quote_open : jsstring := [12300%N].
Definition ask_headword : jsstring :=
  [12301; 12398; 33521; 21336; 35486; 12399; 65311]%N.
Definition ask_meaning : jsstring := [12301; 12398; 24847; 21619; 12399; 65311]%N.
Definition paren_open : jsstring := [65288%N].
Definition paren_close : jsstring := [65289%N].
Definition no_hint : jsstring :=
  [40; 12498; 12531; 12488; 12399; 12354; 12426; 12414; 12379; 12435; 41]%N.

(** [a || b] on strings *)
Definition or_else (a b : jsstring) : jsstring :=
  match a with [] => b | _ => a end.

(** The question as [selectAnswer] words it. *)
Definition question_line (m : Mode) (w : WordEntry) : jsstring :=
  match m with
  | Mode0 => quote_open ++ meaning w ++ ask_headword
  | Mode1 => quote_open ++ headword w ++ ask_meaning
  end.

Definition set_hintUsed (b : bool) (s : State) : State :=
  {| randomCalls := randomCalls s; usedWords := usedWords s;
     indexBuilt := indexBuilt s; wordIndexMap := wordIndexMap s;
     currentQuestion := currentQuestion s;
     correctAnswerIndex := correctAnswerIndex s; hintUsed := b |}.

Definition with_buttons (bs : list Button) (r : Refs) : Refs :=
  {| selectionButtons := bs; questionText := questionText r;
     hintText := hintText r; resultText := resultText r;
     nextButton_disabled := nextButton_disabled r;
     nextButton_textContent := nextButton_textContent r;
     quizScreen_display := quizScreen_display r;
     resultScreen_display := resultScreen_display r |}.

(** Body of the loop of [renderChoices] for the button at index [i]. *)
Definition render_button (choices : list jsstring) (i : nat) (btn : Button) : Button :=
  match choices !! i with
  | Some c =>
      {| textContent := c; display := lit "flex"; disabled := false;
         className := lit "selection-button"; role := lit "button";
         ariaPressed := lit "false"; tabIndex := 0 |}
  | None =>
      {| textContent := textContent btn; display := lit "none";
         disabled := disabled btn; className := className btn; role := role btn;
         ariaPressed := ariaPressed btn; tabIndex := (-1)%Z |}
  end.

Definition renderChoices (choices : list jsstring) (r : Refs) : Refs :=
  with_buttons (imap (render_button choices) (selectionButtons r)) r.

(** [b.disabled = true; b.setAttribute("aria-pressed", "false")] *)
Definition lock_button (b : Button) : Button :=
  {| textContent := textContent b; display := display b; disabled := true;
     className := className b; role := role b; ariaPressed := lit "false";
     tabIndex := tabIndex b |}.

(** [btn.setAttribute("aria-pressed", "true")] *)
Definition press_button (b : Button) : Button :=
  {| textContent := textContent b; display := display b; disabled := disabled b;
     className := className b; role := role b; ariaPressed := lit "true";
     tabIndex := tabIndex b |}.

Section session.
Context `{Host} `{Persistence.LocalStorage} `{Window}.

(** The variables of [createQuiz], the page and the store. *)
Record Ui := {
  engine : State;
  count : Z;
  results : list Persistence.ResultItem;
  focusedIndex : number;
  refs : Refs;
  storage : Persistence.store;
}.

Definition with_engine (s : State) (u : Ui) : Ui :=
  {| engine := s; count := count u; results := results u;
     focusedIndex := focusedIndex u; refs := refs u; storage := storage u |}.

Definition with_refs (r : Refs) (u : Ui) : Ui :=
  {| engine := engine u; count := count u; results := results u;
     focusedIndex := focusedIndex u; refs := r; storage := storage u |}.

Definition with_focusedIndex (x : number) (u : Ui) : Ui :=
  {| engine := engine u; count := count u; results := results u;
     focusedIndex := x; refs := refs u; storage := storage u |}.

(** The text written to [refs.questionText]. *)
Definition question_text (m : Mode) (w : WordEntry) : jsstring :=
  let POS := or_else (partOfSpeech w) (or_else (wordsMap_POS (headword w)) []) in
  let posText := match POS with [] => [] | _ => paren_open ++ POS ++ paren_close end in
  question_line m w ++ [32%N] ++ posText.

(** [changeQuestion] with its writes to the page; the debug output is left
    out. An exception of the engine leaves the page as it is. *)
Definition changeQuestion_page (cfg : Options) (u : Ui) : option unit * Ui :=
  match changeQuestion (quiz cfg) (engine u) with
  | (None, s') => (None, with_engine s' u)
  | (Some q, s') =>
      let r := renderChoices (choices q) (refs u) in
      (Some tt,
       {| engine := s'; count := count u; results := results u;
          focusedIndex := focusedIndex u;
          refs :=
            {| selectionButtons := selectionButtons r;
               questionText := question_text (mode (quiz cfg)) (word q);
               hintText := [];
               resultText := [];
               nextButton_disabled := true;
               nextButton_textContent :=
                 if decide (count u < questionCount cfg - 1)%Z
                 then text_next (texts cfg) else text_results (texts cfg);
               quizScreen_display := quizScreen_display r;
               resultScreen_display := resultScreen_display r |};
          storage := storage u |})
  end.

Definition showHint (u : Ui) : Ui :=
  match currentQuestion (engine u) with
  | None => u
  | Some (w, _) =>
      let text := or_else (hint w) (or_else (wordsMap_hint (headword w)) no_hint) in
      {| engine := set_hintUsed true (engine u); count := count u;
         results := results u; focusedIndex := focusedIndex u;
         refs :=
           {| selectionButtons := selectionButtons (refs u);
              questionText := questionText (refs u);
              hintText := text;
              resultText := resultText (refs u);
              nextButton_disabled := nextButton_disabled (refs u);
              nextButton_textContent := nextButton_textContent (refs u);
              quizScreen_display := quizScreen_display (refs u);
              resultScreen_display := resultScreen_display (refs u) |};
         storage := storage u |}
  end.

Definition selectAnswer (cfg : Options) (idx : nat) (u : Ui) : Ui :=
  match currentQuestion (engine u) with
  | None => u
  | Some (w, _) =>
      let locked := lock_button <$> selectionButtons (refs u) in
      match locked !! idx with
      | None => with_refs (with_buttons locked (refs u)) u
      | Some btn =>
          let selectedText := or_else (textContent btn) [] in
          let isCorrect :=
            bool_decide (Z.of_nat idx = correctAnswerIndex (engine u)) in
          let correctAnswer := or_else (answer (mode (quiz cfg)) w) [] in
          {| engine := engine u; count := count u;
             results :=
               results u ++
               [{| Persistence.r_question := question_line (mode (quiz cfg)) w;
                   Persistence.r_correctAnswer := correctAnswer;
                   Persistence.r_hint := or_else (hintText (refs u)) (or_else (hint w) []);
                   Persistence.r_answer := selectedText;
                   Persistence.r_correct := isCorrect;
                   Persistence.r_hintUsed := hintUsed (engine u) |}];
             focusedIndex := focusedIndex u;
             refs :=
               {| selectionButtons := <[idx := press_button btn]> locked;
                  questionText := questionText (refs u);
                  hintText := hintText (refs u);
                  resultText :=
                    if isCorrect then correctText (texts cfg)
                    else incorrectPrefix (texts cfg) ++ correctAnswer
                         ++ incorrectSuffix (texts cfg);
                  nextButton_disabled := false;
                  nextButton_textContent := nextButton_textContent (refs u);
                  quizScreen_display := quizScreen_display (refs u);
                  resultScreen_display := resultScreen_display (refs u) |};
             storage := storage u |}
      end
  end.
(** The listener of a button's [focus] event. *)
Definition onFocus (idx : nat) (u : Ui) : Ui :=
  with_focusedIndex (Num (Z.of_nat idx)) u.

(** [refs.selectionButtons[focusedIndex].focus()]: throws when there is no
    such button. What the call does to the browser's focus is outside the
    module; the [focus] event it may fire stores the same index again. *)
Definition focus_button (u : Ui) : option unit * Ui :=
  match at_number (selectionButtons (refs u)) (focusedIndex u) with
  | Some _ => (Some tt, u)
  | None => (None, u)
  end.

(** [handleKeydown]; [active] is
    [refs.selectionButtons.indexOf(document.activeElement)], [None] for -1. *)
Definition handleKeydown (cfg : Options) (key : Key) (active : option nat) (u : Ui)
    : option unit * Ui :=
  let len := length (selectionButtons (refs u)) in
  match key with
  | ArrowRight | ArrowDown =>
      focus_button
        (with_focusedIndex (remainder (plus (focusedIndex u) 1) len) u)
  | ArrowLeft | ArrowUp =>
      focus_button
        (with_focusedIndex
           (remainder (plus (plus (focusedIndex u) (-1)) (Z.of_nat len)) len) u)
  | Enter | Space =>
      match active with
      | Some idx =>
          match selectionButtons (refs u) !! idx with
          | Some btn =>
              if disabled btn then (Some tt, u)
              else (Some tt, selectAnswer cfg idx u)
          | None => (None, u)
          end
      | None => (Some tt, u)
      end
  | OtherKey => (Some tt, u)
  end.

(** [showResults] as far as the session goes: the switch of screens and the
    statistics; its value is the local [stats], [None] for [null]. The form
    submission, the score line and the table are left out. [now] is the value
    of [Date.now()]. *)
Definition showResults (cfg : Options) (now : Z) (u : Ui)
    : option Persistence.value * Ui :=
  let r :=
    {| selectionButtons := selectionButtons (refs u);
       questionText := questionText (refs u);
       hintText := hintText (refs u);
       resultText := resultText (refs u);
       nextButton_disabled := nextButton_disabled (refs u);
       nextButton_textContent := nextButton_textContent (refs u);
       quizScreen_display := lit "none";
       resultScreen_display := lit "block" |} in
  let '(stats, st') :=
    match Persistence.updateStatsWithSession (results u) (questionCount cfg) now
            (storage u) with
    | (Persistence.Return s, st') => (Some s, st')
    | (Persistence.Raise, st') => (None, st')
    end in
  (stats,
   {| engine := engine u; count := count u; results := results u;
      focusedIndex := focusedIndex u; refs := r; storage := st' |}).

Definition nextQuestion (cfg : Options) (now : Z) (u : Ui) : option unit * Ui :=
  let u1 :=
    {| engine := engine u; count := (count u + 1)%Z; results := results u;
       focusedIndex := focusedIndex u; refs := refs u; storage := storage u |} in
  if decide (count u1 < questionCount cfg)%Z then changeQuestion_page cfg u1
  else (Some tt, (showResults cfg now u1).2).

(** [restartQuiz] with its writes to the page. *)
Definition restartQuiz_page (cfg : Options) (u : Ui) : option unit * Ui :=
  changeQuestion_page cfg
    {| engine := set_usedWords [] (engine u); count := 0; results := [];
       focusedIndex := Num 0;
       refs :=
         {| selectionButtons := selectionButtons (refs u);
            questionText := questionText (refs u);
            hintText := hintText (refs u);
            resultText := resultText (refs u);
            nextButton_disabled := nextButton_disabled (refs u);
            nextButton_textContent := nextButton_textContent (refs u);
            quizScreen_display := lit "block";
            resultScreen_display := lit "none" |};
       storage := storage u |}.
(** A run of the page: for each click, the answer at that button and then
    the next button; an exception ends the run. *)
Fixpoint play (cfg : Options) (now : Z) (clicks : list nat) (u : Ui)
    : option unit * Ui :=
  match clicks with
  | [] => (Some tt, u)
  | idx :: rest =>
      match nextQuestion cfg now (selectAnswer cfg idx u) with
      | (Some _, u') => play cfg now rest u'
      | (None, u') => (None, u')
      end
  end.
End session.

(** A page with four blank buttons, for examples. *)
Definition blank_button : Button :=
  {| textContent := []; display := []; disabled := false; className := [];
     role := []; ariaPressed := []; tabIndex := 0 |}.

Definition example_refs : Refs :=
  {| selectionButtons := [blank_button; blank_button; blank_button; blank_button];
     questionText := []; hintText := []; resultText := [];
     nextButton_disabled := true; nextButton_textContent := [];
     quizScreen_display := lit "block"; resultScreen_display := lit "none" |}.

Definition example_options : Options :=
  {| quiz := nouns_cfg; questionCount := 3;
     texts := {| text_next := lit "next"; text_results := lit "results";
                 correctText := lit "correct"; incorrectPrefix := lit "no: ";
                 incorrectSuffix := lit "." |} |}.

Definition example_window : Window :=
  {| wordsMap_hint := λ _, []; wordsMap_POS := λ _, [] |}.

Definition example_ui : @Ui Persistence.example_storage :=
  @Build_Ui Persistence.example_storage initial_state 0 [] (Num 0) example_refs None.

(** The example page after its first question is asked. *)
Definition example_asked : @Ui Persistence.example_storage :=
  (@changeQuestion_page example_host Persistence.example_storage example_window
     example_options example_ui).2.
End UI.
(** * Proofs *)

(** ** The table of [longestCommonSubstringLength] *)

Section lcs_proofs.
Context {A : Type} `{EqDecision A}.
Implicit Types a b s : list A.

Lemma new_table_dims m n : table_dims m n (new_table m n).
Proof.
  split; [apply length_replicate|].
  intros r Hr. apply elem_of_replicate in Hr as [-> _]. apply length_replicate.
Qed.

Lemma new_table_get m n i j : dp_get (new_table m n) i j = 0.
Proof.
  unfold dp_get, new_table.
  destruct (_ !! i) as [r|] eqn:E; simpl; [|done].
  apply lookup_replicate in E as [-> _].
  destruct (_ !! j) as [x|] eqn:E2; simpl; [|done].
  by apply lookup_replicate in E2 as [-> _].
Qed.

Lemma dp_set_dims m n dp i j v : table_dims m n dp → table_dims m n (dp_set dp i j v).
Proof.
  intros [Hl Hr]. unfold dp_set. destruct (dp !! i) as [r|] eqn:E; [|done].
  split; [by rewrite length_insert|].
  intros r' Hin. apply list_elem_of_lookup in Hin as [k Hk].
  destruct (decide (k = i)) as [->|Hne].
  - rewrite list_lookup_insert_eq in Hk by (by eapply lookup_lt_Some).
    injection Hk as <-. rewrite length_insert. apply Hr.
    by eapply list_elem_of_lookup_2.
  - rewrite list_lookup_insert_ne in Hk by done.
    apply Hr. by eapply list_elem_of_lookup_2.
Qed.

Lemma dp_get_set m n dp i j v i' j' :
  table_dims m n dp → i ≤ m → j ≤ n →
  dp_get (dp_set dp i j v) i' j'
  = if decide (i' = i ∧ j' = j) then v else dp_get dp i' j'.
Proof.
  intros [Hl Hr] Hi Hj. unfold dp_set.
  destruct (dp !! i) as [r|] eqn:E.
  2:{ apply lookup_ge_None in E. lia. }
  assert (length r = S n) as Hlen by (apply Hr; by eapply list_elem_of_lookup_2).
  unfold dp_get. destruct (decide (i' = i)) as [->|Hne].
  - rewrite list_lookup_insert_eq by lia. simpl.
    destruct (decide (j' = j)) as [->|Hnj].
    + rewrite list_lookup_insert_eq by lia. simpl.
      by rewrite decide_True.
    + rewrite list_lookup_insert_ne by done. rewrite E. simpl.
      rewrite decide_False; [done|]. intros [_ ?]. done.
  - rewrite list_lookup_insert_ne by done.
    rewrite decide_False; [done|]. intros [? _]. done.
Qed.

Lemma csuf_0_r a b i : csuf a b i 0 = 0.
Proof. by destruct i. Qed.

Lemma lcs_inv_ext a b (P Q : nat → nat → Prop) st :
  (∀ i j, P i j ↔ Q i j) → lcs_inv a b P st → lcs_inv a b Q st.
Proof.
  intros HPQ (Hd & Hp & Hn & Hle & Hex). split_and!; [done|..].
  - intros i j ?. apply Hp. by apply HPQ.
  - intros i j Hq. apply Hn. intros ?. apply Hq. by apply HPQ.
  - intros i j ?. apply Hle. by apply HPQ.
  - destruct Hex as [?|(i & j & ? & ?)]; [by left|right].
    exists i, j. split; [by apply HPQ|done].
Qed.

Lemma lcs_cell_inv a b i0 j0 st :
  1 ≤ i0 ≤ length a → 1 ≤ j0 ≤ length b →
  lcs_inv a b (filled (length a) (length b) i0 j0) st →
  lcs_inv a b (filled (length a) (length b) i0 (S j0)) (lcs_cell a b i0 j0 st).
Proof.
  intros Hi Hj (Hd & Hp & Hn & Hle & Hex). destruct st as [dp mx]. simpl in *.
  assert (dp_get dp (i0 - 1) (j0 - 1) = csuf a b (i0 - 1) (j0 - 1)) as Hprev.
  { destruct (decide (1 ≤ i0 - 1 ∧ 1 ≤ j0 - 1)) as [Hb|Hb].
    - apply Hp. unfold filled. lia.
    - rewrite Hn by (unfold filled; lia).
      destruct (i0 - 1) as [|i'] eqn:E1; [done|].
      destruct (j0 - 1) as [|j'] eqn:E2; [by rewrite csuf_0_r|lia]. }
  assert (csuf a b i0 j0
          = if decide (a !! (i0 - 1) = b !! (j0 - 1))
            then S (csuf a b (i0 - 1) (j0 - 1)) else 0) as Hc.
  { destruct i0 as [|i']; [lia|]. destruct j0 as [|j']; [lia|].
    simpl. by rewrite !Nat.sub_0_r. }
  assert (∀ i j, filled (length a) (length b) i0 (S j0) i j ↔
                 filled (length a) (length b) i0 j0 i j ∨ (i = i0 ∧ j = j0)) as Hf.
  { intros i j. unfold filled. lia. }
  unfold lcs_cell. destruct (decide (a !! (i0 - 1) = b !! (j0 - 1))) as [Heq|Hne].
  - pose proof (dp_get_set _ _ dp i0 j0 (dp_get dp (i0 - 1) (j0 - 1) + 1) i0 j0 Hd
                  ltac:(lia) ltac:(lia)) as Hself.
    rewrite decide_True in Hself by done. rewrite Hself, Hprev.
    assert (csuf a b i0 j0 = csuf a b (i0 - 1) (j0 - 1) + 1) as Hc' by lia.
    split_and!; simpl.
    + by apply dp_set_dims.
    + intros i j Hij. rewrite (dp_get_set _ _ _ _ _ _ _ _ Hd) by lia.
      case_decide as Hd'; [destruct Hd' as [-> ->]; lia|].
      apply Hp. apply Hf in Hij. tauto.
    + intros i j Hij. rewrite (dp_get_set _ _ _ _ _ _ _ _ Hd) by lia.
      case_decide as Hd'; [exfalso; apply Hij, Hf; tauto|].
      apply Hn. intros ?. apply Hij, Hf. tauto.
    + intros i j Hij. apply Hf in Hij as [Hij|[-> ->]].
      * specialize (Hle _ _ Hij). case_decide; lia.
      * case_decide; lia.
    + right. case_decide.
      * exists i0, j0. split; [apply Hf; tauto|lia].
      * destruct Hex as [->|(i & j & Hij & Hm)]; [lia|].
        exists i, j. split; [apply Hf; tauto|done].
  - assert (csuf a b i0 j0 = 0) as Hz by (by rewrite Hc).
    split_and!; simpl.
    + done.
    + intros i j Hij. apply Hf in Hij as [Hij|[-> ->]]; [by apply Hp|].
      rewrite Hz. apply Hn. unfold filled. lia.
    + intros i j Hij. apply Hn. intros ?. apply Hij, Hf. tauto.
    + intros i j Hij. apply Hf in Hij as [Hij|[-> ->]]; [by apply Hle|lia].
    + destruct Hex as [->|(i & j & Hij & Hm)]; [by left|right].
      exists i, j. split; [apply Hf; tauto|done].
Qed.

Lemma lcs_row_inv a b i0 st :
  1 ≤ i0 ≤ length a →
  lcs_inv a b (filled (length a) (length b) i0 1) st →
  lcs_inv a b (filled (length a) (length b) (S i0) 1) (lcs_row a b i0 st).
Proof.
  intros Hi Hst. unfold lcs_row.
  assert (∀ k, k ≤ length b →
     lcs_inv a b (filled (length a) (length b) i0 (S k))
       (foldl (λ st j, lcs_cell a b i0 j st) st (seq 1 k))) as Hk.
  { induction k as [|k IH]; intros Hle; [done|].
    rewrite seq_S, foldl_snoc. simpl. apply lcs_cell_inv; [done|lia|].
    apply IH. lia. }
  eapply lcs_inv_ext; [|apply (Hk (length b)); lia].
  intros i j. unfold filled. lia.
Qed.

Lemma lcs_fill_inv a b :
  lcs_inv a b (λ i j, 1 ≤ i ≤ length a ∧ 1 ≤ j ≤ length b) (lcs_fill a b).
Proof.
  unfold lcs_fill.
  assert (∀ k, k ≤ length a →
     lcs_inv a b (filled (length a) (length b) (S k) 1)
       (foldl (λ st i, lcs_row a b i st)
          (new_table (length a) (length b), 0) (seq 1 k))) as Hk.
  { induction k as [|k IH]; intros Hle.
    - simpl. split_and!; simpl.
      + apply new_table_dims.
      + intros i j Hij. unfold filled in Hij. lia.
      + intros. apply new_table_get.
      + intros i j Hij. unfold filled in Hij. lia.
      + by left.
    - rewrite seq_S, foldl_snoc. simpl. apply lcs_row_inv; [lia|].
      apply IH. lia. }
  eapply lcs_inv_ext; [|apply (Hk (length a)); lia].
  intros i j. unfold filled. lia.
Qed.

(** *** Common suffixes and common substrings *)

Lemma csuf_block a b i j :
  i ≤ length a → j ≤ length b →
  csuf a b i j ≤ i ∧ csuf a b i j ≤ j ∧
  take (csuf a b i j) (drop (i - csuf a b i j) a)
  = take (csuf a b i j) (drop (j - csuf a b i j) b).
Proof.
  revert j. induction i as [|i IH]; intros j Hi Hj; [simpl; split_and!; [lia..|done]|].
  destruct j as [|j]; [simpl; split_and!; [lia..|done]|].
  simpl. case_decide as Heq; [|simpl; split_and!; [lia..|done]].
  destruct (IH j ltac:(lia) ltac:(lia)) as (H1 & H2 & H3).
  set (k := csuf a b i j) in *.
  split_and!; [lia..|].
  replace (S i - S k) with (i - k) by lia. replace (S j - S k) with (j - k) by lia.
  destruct (a !! i) as [x|] eqn:Ea; [|apply lookup_ge_None in Ea; lia].
  symmetry in Heq.
  rewrite (take_S_r _ k x), (take_S_r _ k x), H3; [done|..].
  - rewrite lookup_drop. by replace (j - k + k) with j by lia.
  - rewrite lookup_drop. by replace (i - k + k) with i by lia.
Qed.

Lemma csuf_common a b i j :
  i ≤ length a → j ≤ length b →
  ∃ s, common_substring s a b ∧ length s = csuf a b i j.
Proof.
  intros Hi Hj. destruct (csuf_block a b i j Hi Hj) as (H1 & H2 & H3).
  set (k := csuf a b i j) in *.
  exists (take k (drop (i - k) a)). unfold common_substring, substring_of. split_and!.
  - exists (take (i - k) a), (drop k (drop (i - k) a)).
    by rewrite take_drop, take_drop.
  - rewrite H3. exists (take (j - k) b), (drop k (drop (j - k) b)).
    by rewrite take_drop, take_drop.
  - rewrite length_take, length_drop. lia.
Qed.

Lemma csuf_ge a1 a2 b1 b2 s k :
  k ≤ length s →
  k ≤ csuf (a1 ++ s ++ a2) (b1 ++ s ++ b2) (length a1 + k) (length b1 + k).
Proof.
  induction k as [|k IH]; intros Hk; [lia|].
  rewrite !Nat.add_succ_r. simpl.
  assert (∀ l1 l2 : list A, (l1 ++ s ++ l2) !! (length l1 + k) = s !! k) as Hlk.
  { intros l1 l2. rewrite lookup_app_r by lia.
    replace (length l1 + k - length l1) with k by lia.
    rewrite lookup_app_l by lia. done. }
  rewrite !Hlk, decide_True by done. specialize (IH ltac:(lia)). lia.
Qed.

Lemma longestCommonSubstringLength_spec a b :
  longest_common_length a b (longestCommonSubstringLength a b).
Proof.
  destruct (lcs_fill_inv a b) as (_ & _ & _ & Hle & Hex).
  unfold longestCommonSubstringLength. split.
  - destruct Hex as [->|(i & j & [Hi Hj] & <-)].
    + exists []. split; [|done]. split; by eexists [], _.
    + apply csuf_common; lia.
  - intros s [(a1 & a2 & ->) (b1 & b2 & ->)].
    destruct (decide (length s = 0)) as [->|Hne]; [lia|].
    etrans; [apply (csuf_ge a1 a2 b1 b2 s (length s)); lia|].
    apply Hle. rewrite !length_app. lia.
Qed.
End lcs_proofs.

(** ** Shuffling *)

Lemma same_engine_refl s : same_engine s s.
Proof. done. Qed.

Lemma same_engine_trans s1 s2 s3 :
  same_engine s1 s2 → same_engine s2 s3 → same_engine s1 s3.
Proof. unfold same_engine. intros (-> & -> & ->) (-> & -> & ->). done. Qed.

Lemma floor_times_lt r k : 0 < k → floor_times r k < k.
Proof.
  intros Hk. unfold floor_times. apply Nat.Div0.div_lt_upper_bound. nia.
Qed.

Lemma swap_length {A} (l : list A) i j : length (swap l i j) = length l.
Proof.
  unfold swap. destruct (l !! i), (l !! j); try done.
  by rewrite !length_insert.
Qed.

Lemma swap_perm {A} (l : list A) i j : swap l i j ≡ₚ l.
Proof.
  unfold swap.
  destruct (l !! i) as [x|] eqn:Hi; [|done].
  destruct (l !! j) as [y|] eqn:Hj; [|done].
  apply Permutation_inj. split; [by rewrite !length_insert|].
  exists (λ k, if decide (k = j) then i else if decide (k = i) then j else k).
  split.
  - intros a b. repeat case_decide; lia.
  - intros k. apply lookup_lt_Some in Hi as Hi', Hj as Hj'.
    destruct (decide (k = j)) as [->|Hkj].
    + by rewrite list_lookup_insert_eq by (by rewrite length_insert).
    + rewrite list_lookup_insert_ne by done.
      destruct (decide (k = i)) as [->|Hki].
      * by rewrite list_lookup_insert_eq.
      * by rewrite list_lookup_insert_ne.
Qed.

Section shuffle_proofs.
Context `{Host}.

Lemma random_frame s : same_engine s (random s).2.
Proof. done. Qed.

Lemma getRandomInt_spec max s :
  ∃ j s', getRandomInt max s = (j, s') ∧ same_engine s s' ∧ (0 < max → j < max).
Proof.
  eexists _, _. split; [done|]. split; [done|]. apply floor_times_lt.
Qed.

Lemma shuffle_from_spec {A} i (l : list A) s :
  ∃ l' s', shuffle_from i l s = (l', s') ∧ l' ≡ₚ l ∧ same_engine s s'.
Proof.
  revert l s. induction i as [|i IH]; intros l s.
  - by exists l, s.
  - change (shuffle_from (S i) l s)
      with (let '(j, s1) := getRandomInt (S i + 1) s in
            shuffle_from i (swap l (S i) j) s1).
    destruct (getRandomInt_spec (S i + 1) s) as (j & s1 & -> & Hs1 & _).
    destruct (IH (swap l (S i) j) s1) as (l' & s' & -> & Hp & Hs').
    exists l', s'. split; [done|]. split.
    + by rewrite Hp, swap_perm.
    + by eapply same_engine_trans.
Qed.

Lemma shuffleArray_spec {A} (l : list A) s :
  ∃ l' s', shuffleArray l s = (l', s') ∧ l' ≡ₚ l ∧ same_engine s s'.
Proof. apply shuffle_from_spec. Qed.
End shuffle_proofs.

(** ** Counting indices *)

Lemma others_perm n t (D : list nat) :
  NoDup D → (∀ d, d ∈ D → d < n ∧ d ≠ t) →
  D ++ filter (λ idx, idx ≠ t ∧ idx ∉ D) (seq 0 n) ≡ₚ filter (λ idx, idx ≠ t) (seq 0 n).
Proof.
  intros HD Hin. apply NoDup_Permutation.
  - apply NoDup_app. split_and!; [done| |apply NoDup_filter, NoDup_seq].
    intros x Hx Hx'. apply list_elem_of_filter in Hx' as [[_ ?] _]. done.
  - apply NoDup_filter, NoDup_seq.
  - intros x. rewrite elem_of_app, !list_elem_of_filter, !elem_of_seq. split.
    + intros [Hx|[[? ?] ?]]; [|done]. destruct (Hin _ Hx). split; [done|lia].
    + intros [? ?]. destruct (decide (x ∈ D)); [by left|right; done].
Qed.

Lemma length_others n t :
  t < n → length (filter (λ idx, idx ≠ t) (seq 0 n)) = n - 1.
Proof.
  intros Ht.
  assert (t :: filter (λ idx, idx ≠ t) (seq 0 n) ≡ₚ seq 0 n) as Hp.
  { apply NoDup_Permutation.
    - apply NoDup_cons. split; [|apply NoDup_filter, NoDup_seq].
      intros Hx. apply list_elem_of_filter in Hx as [? _]. done.
    - apply NoDup_seq.
    - intros x. rewrite elem_of_cons, list_elem_of_filter, !elem_of_seq.
      destruct (decide (x = t)); [subst|]; split; intros; try lia; tauto. }
  apply Permutation_length in Hp. simpl in Hp. rewrite length_seq in Hp. lia.
Qed.

Lemma nodup_range_full n (l : list nat) :
  NoDup l → (∀ x, x ∈ l → x < n) → length l = n → l ≡ₚ seq 0 n.
Proof.
  intros Hnd Hin Hlen. apply submseteq_length_Permutation.
  - apply NoDup_submseteq; [done|]. intros x Hx. apply elem_of_seq.
    specialize (Hin _ Hx). lia.
  - rewrite length_seq. lia.
Qed.

Lemma submseteq_NoDup {A} (l k : list A) : l ⊆+ k → NoDup k → NoDup l.
Proof.
  intros [k' Hk]%submseteq_Permutation Hnd. rewrite Hk in Hnd.
  by apply NoDup_app in Hnd as (? & _ & _).
Qed.

(** ** The candidate index *)

Lemma default_nonempty {A} (l : list A) : default [] (nonempty l) = l.
Proof. by destruct l. Qed.

Lemma nonempty_snoc {A} (l : list A) x : nonempty (l ++ [x]) = Some (l ++ [x]).
Proof. by destruct l. Qed.

Lemma nonempty_Some {A} (l arr : list A) : nonempty l = Some arr → arr = l.
Proof. destruct l; [done|]. by intros [= <-]. Qed.

Section index_proofs.
Context `{Host}.
Implicit Types cfg : Config.

Lemma build_prefix_S cfg k :
  build_prefix cfg (S k) = index_word cfg (build_prefix cfg k) k.
Proof. unfold build_prefix. by rewrite seq_S, foldl_snoc. Qed.

Lemma push_at_lookup `{Countable K} (k k' : K) i (m : gmap K (list nat)) :
  push_at k i m !! k'
  = if decide (k = k') then Some (default [] (m !! k) ++ [i]) else m !! k'.
Proof. unfold push_at. by rewrite lookup_insert. Qed.

Lemma filter_snoc_nat (P : nat → Prop) `{∀ x, Decision (P x)} l x :
  filter P (l ++ [x]) = if decide (P x) then filter P l ++ [x] else filter P l.
Proof.
  rewrite filter_app. case_decide.
  - by rewrite (filter_cons_True P).
  - rewrite (filter_cons_False P) by done. by rewrite filter_nil, app_nil_r.
Qed.

Lemma build_prefix_byLen cfg k l :
  byLen (build_prefix cfg k) !! l
  = nonempty (filter (λ i, len_at cfg i = l) (seq 0 k)).
Proof.
  induction k as [|k IH]; [done|].
  rewrite build_prefix_S, seq_S, filter_snoc_nat. simpl.
  rewrite push_at_lookup. case_decide as Hk.
  - subst l. by rewrite IH, default_nonempty, nonempty_snoc.
  - done.
Qed.

Lemma build_prefix_byPOS cfg k p :
  byPOS (build_prefix cfg k) !! p
  = if decide (p = []) then None
    else nonempty (filter (λ i, pos_at cfg i = p) (seq 0 k)).
Proof.
  induction k as [|k IH]; [by case_decide|].
  rewrite build_prefix_S, seq_S, filter_snoc_nat. simpl.
  destruct (decide (pos_at cfg k = [])) as [Hk|Hk].
  - rewrite IH. repeat case_decide; congruence.
  - rewrite push_at_lookup. destruct (decide (pos_at cfg k = p)) as [<-|Hne].
    + rewrite IH. rewrite !decide_False by done.
      by rewrite default_nonempty, nonempty_snoc.
    + rewrite IH. done.
Qed.

Lemma build_byLen cfg l :
  byLen (build cfg) !! l
  = nonempty (filter (λ i, len_at cfg i = l) (seq 0 (length (words cfg)))).
Proof. apply build_prefix_byLen. Qed.

Lemma build_byPOS cfg p :
  byPOS (build cfg) !! p
  = if decide (p = []) then None
    else nonempty (filter (λ i, pos_at cfg i = p) (seq 0 (length (words cfg)))).
Proof. apply build_prefix_byPOS. Qed.

Lemma byLen_elem cfg l i :
  (∃ arr, byLen (build cfg) !! l = Some arr ∧ i ∈ arr)
  ↔ i < length (words cfg) ∧ len_at cfg i = l.
Proof.
  rewrite build_byLen. split.
  - intros (arr & Harr & Hi). apply nonempty_Some in Harr as ->.
    apply list_elem_of_filter in Hi as [? Hi]. apply elem_of_seq in Hi. lia.
  - intros [Hi Hl].
    assert (i ∈ filter (λ i, len_at cfg i = l) (seq 0 (length (words cfg)))) as Hin.
    { apply list_elem_of_filter. split; [done|]. apply elem_of_seq. lia. }
    destruct (filter _ _) as [|x xs] eqn:E; [by apply elem_of_nil in Hin|].
    by exists (x :: xs).
Qed.

Lemma byPOS_elem cfg p i :
  (∃ arr, byPOS (build cfg) !! p = Some arr ∧ i ∈ arr)
  ↔ i < length (words cfg) ∧ pos_at cfg i = p ∧ p ≠ [].
Proof.
  rewrite build_byPOS. split.
  - intros (arr & Harr & Hi). case_decide; [done|].
    apply nonempty_Some in Harr as ->.
    apply list_elem_of_filter in Hi as [? Hi]. apply elem_of_seq in Hi.
    split_and!; [lia|done..].
  - intros (Hi & Hl & Hp). rewrite decide_False by done.
    assert (i ∈ filter (λ i, pos_at cfg i = p) (seq 0 (length (words cfg)))) as Hin.
    { apply list_elem_of_filter. split; [done|]. apply elem_of_seq. lia. }
    destruct (filter _ _) as [|x xs] eqn:E; [by apply elem_of_nil in Hin|].
    by exists (x :: xs).
Qed.
End index_proofs.

(** ** The candidate pool *)

Section pool_proofs.
Context `{Host}.
Implicit Types cfg : Config.

Lemma set_add_spec idx c :
  NoDup c → NoDup (set_add idx c) ∧ ∀ x, x ∈ set_add idx c ↔ x ∈ c ∨ x = idx.
Proof.
  intros Hc. unfold set_add. case_decide as Hin.
  - split; [done|]. intros x. split; [by left|]. by intros [?| ->].
  - split.
    + apply NoDup_app. split_and!; [done| |apply NoDup_singleton].
      intros x Hx Hx'. apply list_elem_of_singleton in Hx'. by subst.
    + intros x. by rewrite elem_of_app, list_elem_of_singleton.
Qed.

Lemma add_others_spec t arr c :
  NoDup c →
  NoDup (add_others t arr c) ∧
  ∀ x, x ∈ add_others t arr c ↔ x ∈ c ∨ (x ∈ arr ∧ x ≠ t).
Proof.
  unfold add_others. revert c. induction arr as [|a arr IH]; intros c Hc; simpl.
  - split; [done|]. intros x. rewrite elem_of_nil. tauto.
  - case_decide as Ha.
    + destruct (set_add_spec a c Hc) as [Hnd Hel].
      destruct (IH _ Hnd) as [Hnd' Hel']. split; [done|].
      intros x. rewrite Hel', Hel, elem_of_cons. split.
      * intros [[?| ->]|[? ?]]; auto.
      * intros [?|[[->|?] ?]]; auto.
    + destruct (IH _ Hc) as [Hnd' Hel']. split; [done|].
      intros x. rewrite Hel', elem_of_cons. split.
      * intros [?|[? ?]]; auto.
      * intros [?|[[->|?] ?]]; [auto|by destruct Ha|auto].
Qed.

Lemma bucket_byPOS cfg p x :
  x ∈ default [] (byPOS (build cfg) !! p)
  ↔ x < length (words cfg) ∧ pos_at cfg x = p ∧ p ≠ [].
Proof.
  rewrite <- byPOS_elem. split.
  - destruct (byPOS (build cfg) !! p) as [arr|]; simpl; [eauto|].
    by intros ?%elem_of_nil.
  - by intros (arr & -> & ?).
Qed.

Lemma bucket_byLen cfg l x :
  x ∈ default [] (byLen (build cfg) !! l)
  ↔ x < length (words cfg) ∧ len_at cfg x = l.
Proof.
  rewrite <- byLen_elem. split.
  - destruct (byLen (build cfg) !! l) as [arr|]; simpl; [eauto|].
    by intros ?%elem_of_nil.
  - by intros (arr & -> & ?).
Qed.

Lemma len_round_spec cfg t c d :
  NoDup c →
  NoDup (len_round cfg (build cfg) t c d) ∧
  ∀ x, x ∈ len_round cfg (build cfg) t c d ↔
       x ∈ c ∨ (x < length (words cfg) ∧ x ≠ t ∧
                Z.of_nat (len_at cfg x) = (Z.of_nat (len_at cfg t) + d)%Z).
Proof.
  intros Hc. unfold len_round. case_decide as Hl.
  - split; [done|]. intros x. split; [by left|]. intros [?|(_ & _ & ?)]; [done|lia].
  - assert (match byLen (build cfg) !! Z.to_nat (Z.of_nat (len_at cfg t) + d) with
            | Some arr => add_others t arr c
            | None => c
            end
            = add_others t
                (default [] (byLen (build cfg) !! Z.to_nat (Z.of_nat (len_at cfg t) + d))) c)
      as -> by (by destruct (byLen _ !! _)).
    destruct (add_others_spec t
                (default [] (byLen (build cfg) !! Z.to_nat (Z.of_nat (len_at cfg t) + d)))
                c Hc) as [Hnd Hel].
    split; [done|]. intros x. rewrite Hel, bucket_byLen. split.
    + intros [?|[[? ?] ?]]; [by left|right]. split_and!; [done..|lia].
    + intros [?|(? & ? & ?)]; [by left|right]. split_and!; [done|lia|done].
Qed.

Lemma candidate_set_unfold cfg m t :
  candidate_set cfg m t
  = let c1 := if decide (pos_at cfg t = []) then []
              else match byPOS m !! pos_at cfg t with
                   | Some arr => add_others t arr []
                   | None => []
                   end in
    let c2 := foldl (len_round cfg m t) c1 [-2; -1; 0; 1; 2]%Z in
    if decide (length c2 = 0)
    then add_others t (seq 0 (length (words cfg))) c2 else c2.
Proof. done. Qed.

Lemma candidate_union_elem cfg t x :
  x ∈ candidate_union cfg t ↔ x < length (words cfg) ∧ in_union cfg t x.
Proof.
  unfold candidate_union. rewrite list_elem_of_filter, elem_of_seq.
  split; intros [? ?]; (split; [done || lia|done || lia]).
Qed.

Lemma candidate_pool_elem cfg t x :
  x ∈ candidate_pool cfg t → x < length (words cfg) ∧ x ≠ t.
Proof.
  unfold candidate_pool. case_decide.
  - unfold others. rewrite list_elem_of_filter, elem_of_seq. lia.
  - rewrite candidate_union_elem. unfold in_union. tauto.
Qed.

Lemma candidate_pool_NoDup cfg t : NoDup (candidate_pool cfg t).
Proof.
  unfold candidate_pool, candidate_union, others.
  case_decide; apply NoDup_filter, NoDup_seq.
Qed.

Lemma candidate_set_spec cfg t :
  candidate_set cfg (build cfg) t ≡ₚ candidate_pool cfg t.
Proof.
  rewrite candidate_set_unfold.
  set (c1 := if decide (pos_at cfg t = []) then [] else _).
  assert (NoDup c1 ∧ ∀ x, x ∈ c1 ↔
            x < length (words cfg) ∧ x ≠ t ∧ shares_pos cfg t x) as [Hnd1 Hel1].
  { subst c1. unfold shares_pos. case_decide as Hp.
    - split; [apply NoDup_nil_2|]. intros x. rewrite elem_of_nil. tauto.
    - assert (match byPOS (build cfg) !! pos_at cfg t with
              | Some arr => add_others t arr []
              | None => []
              end
              = add_others t (default [] (byPOS (build cfg) !! pos_at cfg t)) [])
        as -> by (by destruct (byPOS _ !! _)).
      destruct (add_others_spec t
                  (default [] (byPOS (build cfg) !! pos_at cfg t)) []
                  (NoDup_nil_2)) as [Hnd Hel].
      split; [done|]. intros x. rewrite Hel, bucket_byPOS, elem_of_nil. tauto. }
  cbn zeta.
  set (c2 := foldl _ c1 _).
  assert (NoDup c2 ∧ ∀ x, x ∈ c2 ↔ x < length (words cfg) ∧ in_union cfg t x)
    as [Hnd2 Hel2].
  { subst c2. simpl.
    destruct (len_round_spec cfg t c1 (-2) Hnd1) as [Ha Ha'].
    destruct (len_round_spec cfg t _ (-1) Ha) as [Hb Hb'].
    destruct (len_round_spec cfg t _ 0 Hb) as [Hc Hc'].
    destruct (len_round_spec cfg t _ 1 Hc) as [Hd Hd'].
    destruct (len_round_spec cfg t _ 2 Hd) as [He He'].
    split; [done|]. intros x.
    rewrite He', Hd', Hc', Hb', Ha', Hel1. unfold in_union, near_len.
    split.
    - intros Hx. repeat destruct Hx as [Hx|Hx]; destruct Hx as (? & ? & ?);
        (split; [done|split; [done|]]); first [by left | right; lia].
    - intros (Hx & Hne & [Hs|Hn]); [by repeat left|].
      assert (Z.of_nat (len_at cfg x) = Z.of_nat (len_at cfg t) + -2
              ∨ Z.of_nat (len_at cfg x) = Z.of_nat (len_at cfg t) + -1
              ∨ Z.of_nat (len_at cfg x) = Z.of_nat (len_at cfg t) + 0
              ∨ Z.of_nat (len_at cfg x) = Z.of_nat (len_at cfg t) + 1
              ∨ Z.of_nat (len_at cfg x) = Z.of_nat (len_at cfg t) + 2)%Z
        as Hcases by lia.
      destruct Hcases as [?|[?|[?|[?|?]]]]; tauto. }
  apply NoDup_Permutation.
  - case_decide; [|done]. by apply add_others_spec.
  - apply candidate_pool_NoDup.
  - intros x. unfold candidate_pool.
    destruct (decide (length c2 = 0)) as [Hz|Hnz].
    + apply nil_length_inv in Hz.
      assert (candidate_union cfg t = []) as Hu.
      { apply elem_of_nil_inv. intros y Hy.
        apply candidate_union_elem, Hel2 in Hy. rewrite Hz in Hy.
        by apply elem_of_nil in Hy. }
      rewrite decide_True by done.
      destruct (add_others_spec t (seq 0 (length (words cfg))) c2 Hnd2) as [_ Hel].
      rewrite Hel, Hz. unfold others.
      rewrite list_elem_of_filter, elem_of_nil. tauto.
    + assert (candidate_union cfg t ≠ []) as Hu.
      { intros Hu. apply Hnz. destruct c2 as [|y c2']; [done|].
        assert (y ∈ candidate_union cfg t) as Hy.
        { apply candidate_union_elem, Hel2. left. }
        rewrite Hu in Hy. by apply elem_of_nil in Hy. }
      rewrite decide_False by done.
      by rewrite Hel2, candidate_union_elem.
Qed.

Lemma getCandidateDistractorIndices_spec cfg t s :
  index_ok cfg s →
  ∃ arr s', getCandidateDistractorIndices cfg t s = (arr, s') ∧
    usedWords s' = usedWords s ∧ indexBuilt s' = true ∧
    wordIndexMap s' = build cfg ∧
    arr ⊆+ candidate_pool cfg t ∧
    (length (candidate_pool cfg t) ≤ 200 → arr ≡ₚ candidate_pool cfg t) ∧
    (200 < length (candidate_pool cfg t) → length arr = 200).
Proof.
  intros Hok. unfold getCandidateDistractorIndices, bind, gets.
  set (s1 := ((if indexBuilt s then ret tt else buildIndex cfg) s).2).
  assert ((if indexBuilt s then ret tt else buildIndex cfg) s = (tt, s1)) as ->.
  { subst s1. by destruct (indexBuilt s). }
  assert (usedWords s1 = usedWords s ∧ indexBuilt s1 = true ∧
          wordIndexMap s1 = build cfg) as (Hu & Hb & Hm).
  { subst s1. destruct (indexBuilt s) eqn:E; simpl; [|done].
    split_and!; [done..|]. by apply Hok. }
  rewrite Hm. pose proof (candidate_set_spec cfg t) as Hp.
  case_decide as Hlen.
  - destruct (shuffleArray_spec (candidate_set cfg (build cfg) t) s1)
      as (l' & s' & -> & Hl' & (Hu' & Hb' & Hm')).
    exists (take 200 l'), s'. split; [done|].
    split_and!; [congruence..| | |].
    + rewrite <- Hp, <- Hl'. apply submseteq_take.
    + intros Hle. apply Permutation_length in Hp. lia.
    + intros _. rewrite length_take. apply Permutation_length in Hl'. lia.
  - exists (candidate_set cfg (build cfg) t), s1. split; [done|].
    split_and!; [done..| | |].
    + by rewrite Hp.
    + done.
    + intros Hgt. apply Permutation_length in Hp. lia.
Qed.
End pool_proofs.

(** ** Building the choices *)

Section choices_proofs.
Context `{Host}.
Implicit Types cfg : Config.

Lemma answer_of_lookup cfg i w :
  words cfg !! i = Some w → answer_of cfg i = answer (mode cfg) w.
Proof. unfold answer_of. by intros ->. Qed.

Lemma in_range_lookup cfg i :
  i < length (words cfg) → ∃ w, words cfg !! i = Some w.
Proof. intros Hi. by apply lookup_lt_is_Some_2. Qed.

Lemma filter_dissimilar_spec cfg target cands :
  (∀ i, i ∈ cands → i < length (words cfg)) →
  filter_dissimilar cfg target cands
  = Some (filter (λ i, dissimilar target (toLowerCase (answer_of cfg i)) = true) cands).
Proof.
  induction cands as [|i rest IH]; intros Hin; [done|].
  destruct (in_range_lookup cfg i) as [w Hw]; [apply Hin; left|].
  simpl. rewrite Hw. simpl. rewrite IH by (intros; apply Hin; by right). simpl.
  destruct (dissimilar target (toLowerCase (answer (mode cfg) w))) eqn:E.
  - by rewrite filter_cons_True by (by rewrite (answer_of_lookup _ _ _ Hw)).
  - rewrite filter_cons_False; [done|].
    rewrite (answer_of_lookup _ _ _ Hw). congruence.
Qed.

Lemma take_wrong_spec cfg i l acc :
  (∀ d, d ∈ l → d < length (words cfg)) →
  take_wrong cfg i l acc
  = Some (acc ++ (answer_of cfg <$> take (Z.to_nat (selection cfg - 1) - i) l)).
Proof.
  revert i acc. induction l as [|d rest IH]; intros i acc Hin; simpl.
  - by rewrite take_nil, app_nil_r.
  - case_decide as Hlt.
    + destruct (in_range_lookup cfg d) as [w Hw]; [apply Hin; left|].
      rewrite Hw. simpl. rewrite IH by (intros; apply Hin; by right).
      destruct (Z.to_nat (selection cfg - 1) - i) as [|k] eqn:Ek; [lia|].
      replace (Z.to_nat (selection cfg - 1) - S i) with k by lia.
      simpl. rewrite (answer_of_lookup _ _ _ Hw). by rewrite <- app_assoc.
    + replace (Z.to_nat (selection cfg - 1) - i) with 0 by lia.
      by rewrite app_nil_r.
Qed.

Lemma top_up_spec cfg fb acc :
  (∀ d, d ∈ fb → d < length (words cfg)) →
  top_up cfg fb acc
  = Some (acc ++ (answer_of cfg <$> take (Z.to_nat (selection cfg - 1) - length acc) fb)).
Proof.
  revert acc. induction fb as [|d rest IH]; intros acc Hin; simpl.
  - by rewrite take_nil, app_nil_r.
  - case_decide as Hlt.
    + destruct (in_range_lookup cfg d) as [w Hw]; [apply Hin; left|].
      rewrite Hw. simpl. rewrite IH by (intros; apply Hin; by right).
      rewrite length_app. simpl.
      destruct (Z.to_nat (selection cfg - 1) - length acc) as [|k] eqn:Ek; [lia|].
      replace (Z.to_nat (selection cfg - 1) - (length acc + 1)) with k by lia.
      simpl. rewrite (answer_of_lookup _ _ _ Hw). by rewrite <- app_assoc.
    + replace (Z.to_nat (selection cfg - 1) - length acc) with 0 by lia.
      by rewrite app_nil_r.
Qed.

Lemma length_pool_le n t (C : list nat) :
  t < n → NoDup C → (∀ d, d ∈ C → d < n ∧ d ≠ t) → length C ≤ n - 1.
Proof.
  intros Ht Hnd Hin. rewrite <- (length_others n t Ht).
  apply submseteq_length, NoDup_submseteq; [done|].
  intros x Hx. apply list_elem_of_filter. destruct (Hin _ Hx).
  split; [done|]. apply elem_of_seq. lia.
Qed.

Lemma createChoicesFor_spec cfg t w s :
  words cfg !! t = Some w → index_ok cfg s →
  ∃ q s' D, createChoicesFor cfg t s = (Some q, s') ∧
    word q = w ∧
    choices q ≡ₚ answer (mode cfg) w :: (answer_of cfg <$> D) ∧
    correctIndex q = indexOf (choices q) (answer (mode cfg) w) ∧
    distractors_for cfg t D ∧
    usedWords s' = usedWords s ∧ indexBuilt s' = true ∧
    wordIndexMap s' = build cfg.
Proof.
  intros Hw Hok. pose proof (lookup_lt_Some _ _ _ Hw) as Ht.
  unfold createChoicesFor, bindE, orThrow, lift, retE. rewrite Hw.
  destruct (getCandidateDistractorIndices_spec cfg t s Hok)
    as (arr & s1 & -> & Hu1 & Hb1 & Hm1 & Hsub & _ & _).
  (* the candidates are distinct references to other entries *)
  set (C0 := if decide (length arr = 0) then others cfg t else arr).
  assert (NoDup C0 ∧ ∀ d, d ∈ C0 → d < length (words cfg) ∧ d ≠ t) as [Hnd0 Hin0].
  { subst C0. case_decide.
    - split; [apply NoDup_filter, NoDup_seq|]. unfold others. intros d.
      rewrite list_elem_of_filter, elem_of_seq. lia.
    - split.
      + eapply submseteq_NoDup; [done|apply candidate_pool_NoDup].
      + intros d Hd. apply (candidate_pool_elem cfg t).
        by eapply elem_of_submseteq. }
  set (oC := similarity_filter cfg _ C0).
  assert (∃ C, oC = Some C ∧ NoDup C ∧
               ∀ d, d ∈ C → d < length (words cfg) ∧ d ≠ t) as (C & -> & Hnd & Hin).
  { subst oC. unfold similarity_filter. destruct (avoidSimilarDistractors cfg).
    - rewrite filter_dissimilar_spec by (intros; by apply Hin0).
      eexists. split; [done|]. split; [by apply NoDup_filter|].
      intros d Hd. apply list_elem_of_filter in Hd as [_ Hd]. by apply Hin0.
    - by exists C0. }
  destruct (shuffleArray_spec C s1) as (Sh & s2 & -> & HSh & (Hu2 & Hb2 & Hm2)).
  assert (NoDup Sh) as HndS by (by rewrite HSh).
  assert (∀ d, d ∈ Sh → d < length (words cfg) ∧ d ≠ t) as HinS.
  { intros d Hd. apply Hin. by rewrite <- HSh. }
  rewrite take_wrong_spec by (intros; by apply HinS). simpl.
  rewrite Nat.sub_0_r. set (K := Z.to_nat (selection cfg - 1)).
  rewrite length_fmap, length_take.
  pose proof (length_pool_le _ t Sh Ht HndS HinS) as HlenS.
  pose proof (others_perm (length (words cfg)) t Sh HndS HinS) as Hperm.
  set (F := filter (λ idx, idx ≠ t ∧ idx ∉ Sh) (seq 0 (length (words cfg)))) in *.
  assert (length Sh + length F = length (words cfg) - 1) as HlenF.
  { apply Permutation_length in Hperm.
    rewrite length_app, (length_others _ _ Ht) in Hperm. done. }
  assert (NoDup (Sh ++ F)) as HndSF.
  { rewrite Hperm. apply NoDup_filter, NoDup_seq. }
  assert (∀ d, d ∈ F → d < length (words cfg) ∧ d ≠ t) as HinF.
  { intros d Hd. apply list_elem_of_filter in Hd as [[? _] Hd].
    apply elem_of_seq in Hd. lia. }
  set (D := if decide (length Sh < K) then Sh ++ take (K - length Sh) F
            else take K Sh).
  set (ow := if decide (Z.of_nat (K `min` length Sh) < selection cfg - 1)%Z
             then _ else _).
  assert (ow = Some (answer_of cfg <$> D)) as ->.
  { subst ow D. case_decide as Hlt.
    - rewrite decide_True by lia.
      rewrite top_up_spec by (intros; by apply HinF).
      rewrite length_fmap, length_take. fold K.
      rewrite take_ge by lia.
      replace (K - K `min` length Sh) with (K - length Sh) by lia.
      by rewrite fmap_app.
    - rewrite decide_False by lia. done. }
  assert (distractors_for cfg t D) as HD.
  { subst D. unfold distractors_for. fold K. case_decide as Hlt.
    - split_and!.
      + eapply sublist_NoDup;
          first [exact HndSF | apply sublist_app; [done|apply sublist_take]].
      + intros d [Hd|Hd]%elem_of_app; [by apply HinS|].
        apply HinF. eapply elem_of_sublist; [done|apply sublist_take].
      + rewrite length_app, length_take. lia.
    - split_and!.
      + eapply sublist_NoDup; first [exact HndS | apply sublist_take].
      + intros d Hd. apply HinS.
        eapply elem_of_sublist; [done|apply sublist_take].
      + rewrite length_take. lia. }
  destruct (shuffleArray_spec (answer (mode cfg) w :: (answer_of cfg <$> D)) s2)
    as (ch & s3 & -> & Hch & (Hu3 & Hb3 & Hm3)).
  eexists _, s3, D. split; [done|]. simpl.
  split_and!; [done..|congruence|congruence|congruence].
Qed.
End choices_proofs.

(** ** Choosing the word *)

Section choose_proofs.
Context `{Host}.
Implicit Types cfg : Config.

Lemma used_length_le cfg (used : list (option nat)) :
  NoDup used →
  (∀ u, u ∈ used → ∃ i, u = Some i ∧ i < length (words cfg)) →
  used ⊆+ (Some <$> seq 0 (length (words cfg))).
Proof.
  intros Hnd Hin. apply NoDup_submseteq; [done|].
  intros u Hu. destruct (Hin _ Hu) as (i & -> & Hi).
  apply list_elem_of_fmap_2, elem_of_seq. lia.
Qed.

Lemma available_nonempty cfg (used : list (option nat)) :
  NoDup used →
  (∀ u, u ∈ used → ∃ i, u = Some i ∧ i < length (words cfg)) →
  length used < length (words cfg) →
  0 < length (filter (λ i, Some i ∉ used) (seq 0 (length (words cfg)))).
Proof.
  intros Hnd Hin Hlt.
  destruct (filter _ _) as [|x xs] eqn:E; [|simpl; lia]. exfalso.
  assert (((Some <$> seq 0 (length (words cfg))) ⊆+ used)) as Hsub.
  { apply NoDup_submseteq.
    - apply (NoDup_fmap_2 _), NoDup_seq.
    - intros u (i & -> & Hi)%list_elem_of_fmap.
      destruct (decide (Some i ∈ used)) as [|Hni]; [done|].
      assert (i ∈ filter (λ i, Some i ∉ used) (seq 0 (length (words cfg)))) as Hx.
      { by apply list_elem_of_filter. }
      rewrite E in Hx. by apply elem_of_nil in Hx. }
  apply submseteq_length in Hsub. rewrite length_fmap, length_seq in Hsub. lia.
Qed.

Lemma chooseWordIndex_spec cfg s :
  words cfg ≠ [] → used_ok cfg s →
  ∃ c s', chooseWordIndex cfg s = (Some c, s') ∧
    c < length (words cfg) ∧ (Some c ∉ after_reset cfg s) ∧
    usedWords s' = after_reset cfg s ++ [Some c] ∧
    indexBuilt s' = indexBuilt s ∧ wordIndexMap s' = wordIndexMap s ∧
    used_ok cfg s'.
Proof.
  intros Hne [Hnd Hin].
  assert (0 < length (words cfg)) as Hn by (destruct (words cfg); [done|simpl; lia]).
  unfold chooseWordIndex, bind, resetUsedWordsIfNeeded, modify, gets.
  set (s1 := if decide (length (usedWords s) = length (words cfg))
             then set_usedWords [] s else s).
  assert (usedWords s1 = after_reset cfg s ∧ indexBuilt s1 = indexBuilt s ∧
          wordIndexMap s1 = wordIndexMap s) as (Hu1 & Hb1 & Hm1).
  { subst s1. unfold after_reset. by case_decide. }
  assert (NoDup (after_reset cfg s) ∧
          (∀ u, u ∈ after_reset cfg s → ∃ i, u = Some i ∧ i < length (words cfg)) ∧
          length (after_reset cfg s) < length (words cfg)) as (Hnd1 & Hin1 & Hlt1).
  { unfold after_reset. case_decide as Hl.
    - split_and!; [apply NoDup_nil_2| |simpl; lia].
      intros u Hu. by apply elem_of_nil in Hu.
    - split_and!; [done..|].
      pose proof (submseteq_length _ _ (used_length_le cfg _ Hnd Hin)) as Hle.
      rewrite length_fmap, length_seq in Hle. lia. }
  rewrite Hu1.
  set (available := filter (λ i, Some i ∉ after_reset cfg s) (seq 0 (length (words cfg)))).
  pose proof (available_nonempty cfg _ Hnd1 Hin1 Hlt1) as Hav. fold available in Hav.
  destruct (getRandomInt_spec (length available) s1)
    as (j & s2 & -> & (Hu2 & Hb2 & Hm2) & Hj).
  destruct (lookup_lt_is_Some_2 available j (Hj Hav)) as [c Hc].
  rewrite Hc. exists c, (set_usedWords (usedWords s2 ++ [Some c]) s2).
  split; [done|].
  apply list_elem_of_lookup_2, list_elem_of_filter in Hc as [Hc1 Hc2].
  apply elem_of_seq in Hc2.
  assert (usedWords s2 = after_reset cfg s) as Hu by congruence.
  split_and!; simpl; [lia|done|by rewrite Hu|congruence|congruence|].
  split; simpl; rewrite Hu.
  - apply NoDup_app. split_and!; [done| |apply NoDup_singleton].
    intros u Hu' ->%list_elem_of_singleton. done.
  - intros u [Hu'| ->%list_elem_of_singleton]%elem_of_app; [by apply Hin1|].
    exists c. split; [done|lia].
Qed.

Lemma choose_many_spec cfg k s :
  words cfg ≠ [] → used_ok cfg s →
  length (usedWords s) + k ≤ length (words cfg) →
  ∃ cs s', choose_many cfg k s = (cs, s') ∧ length cs = k ∧
    usedWords s' = usedWords s ++ cs ∧ used_ok cfg s'.
Proof.
  intros Hne. revert s. induction k as [|k IH]; intros s Hok Hlen.
  - exists [], s. by rewrite app_nil_r.
  - simpl. unfold bind at 1.
    destruct (chooseWordIndex_spec cfg s Hne Hok)
      as (c & s1 & -> & _ & _ & Hu1 & _ & _ & Hok1).
    unfold after_reset in Hu1. rewrite decide_False in Hu1 by lia.
    destruct (IH s1 Hok1) as (cs & s' & Hcs & Hl & Hu' & Hok').
    { rewrite Hu1, length_app. simpl. lia. }
    unfold bind, ret. rewrite Hcs. exists (Some c :: cs), s'.
    split_and!; [done|simpl; lia| |done].
    by rewrite Hu', Hu1, <- app_assoc.
Qed.
End choose_proofs.

(** ** The question handed to the page *)

Lemma indexOf_spec (l : list jsstring) x :
  x ∈ l →
  ∃ i, indexOf l x = Z.of_nat i ∧ l !! i = Some x ∧ ∀ j, j < i → l !! j ≠ Some x.
Proof.
  intros Hx. unfold indexOf.
  destruct (list_find (λ y, y = x) l) as [[i y]|] eqn:E.
  - apply list_find_Some in E as (Hi & -> & Hmin). exists i.
    split_and!; [done..|]. intros j Hj Hl. by apply (Hmin j x).
  - apply list_find_None in E. rewrite Forall_forall in E. by destruct (E x).
Qed.

Lemma answers_of_catalog `{Host} cfg :
  answer_of cfg <$> seq 0 (length (words cfg)) = answer (mode cfg) <$> words cfg.
Proof.
  apply list_eq. intros i. rewrite !list_lookup_fmap.
  destruct (decide (i < length (words cfg))) as [Hi|Hi].
  - rewrite lookup_seq_lt by done. simpl. unfold answer_of.
    by destruct (lookup_lt_is_Some_2 _ _ Hi) as [w ->].
  - rewrite lookup_seq_ge by lia. by rewrite lookup_ge_None_2 by lia.
Qed.

Section question_proofs.
Context `{Host}.
Implicit Types cfg : Config.

Lemma changeQuestion_spec cfg s :
  words cfg ≠ [] → state_ok cfg s →
  ∃ q s' t D, changeQuestion cfg s = (Some q, s') ∧
    words cfg !! t = Some (word q) ∧
    choices q ≡ₚ answer (mode cfg) (word q) :: (answer_of cfg <$> D) ∧
    correctIndex q = indexOf (choices q) (answer (mode cfg) (word q)) ∧
    distractors_for cfg t D ∧
    currentQuestion s' = Some (word q, t) ∧
    correctAnswerIndex s' = correctIndex q ∧
    usedWords s' = after_reset cfg s ++ [Some t] ∧
    state_ok cfg s'.
Proof.
  intros Hne [Hix Hused].
  unfold changeQuestion, bindE, lift, orThrow, retE, modify.
  destruct (chooseWordIndex_spec cfg s Hne Hused)
    as (t & s1 & -> & Ht & _ & Hu1 & Hb1 & Hm1 & Hok1).
  destruct (lookup_lt_is_Some_2 _ _ Ht) as [w Hw].
  assert (index_ok cfg s1) as Hix1.
  { unfold index_ok. rewrite Hb1, Hm1. exact Hix. }
  destruct (createChoicesFor_spec cfg t w s1 Hw Hix1)
    as (q & s2 & D & -> & Hq & Hch & Hci & HD & Hu2 & Hb2 & Hm2).
  subst w. eexists q, _, t, D. split; [done|]. simpl.
  split_and!; [done..|congruence|].
  split.
  - intros _. done.
  - destruct Hok1 as [? ?]. split; simpl; by rewrite Hu2.
Qed.
End question_proofs.

(** * The properties of the specification *)

Lemma filter_eq_once {A} `{EqDecision A} (x : A) (l rest : list A) :
  l ≡ₚ x :: rest → x ∉ rest → length (filter (λ c, c = x) l) = 1.
Proof.
  intros Hp Hx. rewrite Hp, filter_cons_True by done. simpl.
  assert (filter (λ c, c = x) rest = []) as ->; [|done].
  apply elem_of_nil_inv. intros y [-> Hy]%list_elem_of_filter. done.
Qed.

Lemma state_ok_initial cfg : state_ok cfg initial_state.
Proof.
  split; [intros [=]|]. split; [apply NoDup_nil_2|].
  intros u Hu. by apply elem_of_nil in Hu.
Qed.

(** C1 (amended): on a non-empty catalog, in a state where the index is not
    stale, [changeQuestion] returns a question whose [choices] contain the
    answer text of the chosen word; [correctIndex] is the first position that
    holds this text; and the text occurs exactly once when no other catalog
    entry has the same answer text. *)
Theorem changeQuestion_correct_answer `{Host} cfg s :
  words cfg ≠ [] → state_ok cfg s →
  ∃ q s' t, changeQuestion cfg s = (Some q, s') ∧
    words cfg !! t = Some (word q) ∧ currentQuestion s' = Some (word q, t) ∧
    answer (mode cfg) (word q) ∈ choices q ∧
    (∃ i, correctIndex q = Z.of_nat i ∧
          choices q !! i = Some (answer (mode cfg) (word q)) ∧
          ∀ j, j < i → choices q !! j ≠ Some (answer (mode cfg) (word q))) ∧
    ((∀ j, j < length (words cfg) → j ≠ t →
           answer_of cfg j ≠ answer (mode cfg) (word q)) →
     length (filter (λ c, c = answer (mode cfg) (word q)) (choices q)) = 1).
Proof.
  intros Hne Hok.
  destruct (changeQuestion_spec cfg s Hne Hok)
    as (q & s' & t & D & Hrun & Hw & Hch & Hci & (HndD & HinD & _) & Hcur & _).
  exists q, s', t. split_and!; [done..| | |].
  - rewrite Hch. left.
  - rewrite Hci. apply indexOf_spec. rewrite Hch. left.
  - intros Huniq. eapply filter_eq_once; [exact Hch|].
    intros (d & Hd & HdD)%list_elem_of_fmap. destruct (HinD _ HdD) as [? ?].
    by eapply Huniq.
Qed.

Lemma changeQuestion_correct_answer_witness :
  words nouns_cfg ≠ [] ∧ state_ok nouns_cfg initial_state ∧
  ∃ q s' t, @changeQuestion example_host nouns_cfg initial_state = (Some q, s') ∧
    words nouns_cfg !! t = Some (word q) ∧ currentQuestion s' = Some (word q, t) ∧
    answer (mode nouns_cfg) (word q) ∈ choices q ∧
    (∃ i, correctIndex q = Z.of_nat i ∧
          choices q !! i = Some (answer (mode nouns_cfg) (word q)) ∧
          ∀ j, j < i → choices q !! j ≠ Some (answer (mode nouns_cfg) (word q))) ∧
    ((∀ j, j < length (words nouns_cfg) → j ≠ t →
           @answer_of nouns_cfg j ≠ answer (mode nouns_cfg) (word q)) →
     length (filter (λ c, c = answer (mode nouns_cfg) (word q)) (choices q)) = 1).
Proof.
  assert (words nouns_cfg ≠ []) as Hne by done.
  pose proof (state_ok_initial nouns_cfg) as Hok.
  split; [exact Hne|]. split; [exact Hok|].
  exact (@changeQuestion_correct_answer example_host nouns_cfg initial_state Hne Hok).
Defined.

(** C1, as stated, fails: with two words of the same meaning the correct
    answer text occurs twice among the choices. *)
Lemma changeQuestion_answer_twice :
  ∃ q s', @changeQuestion example_host synonyms_cfg initial_state = (Some q, s') ∧
    words synonyms_cfg ≠ [] ∧
    length (filter (λ c, c = answer (mode synonyms_cfg) (word q)) (choices q)) = 2.
Proof.
  eexists _, _. split; [vm_compute; reflexivity|]. split; [done|].
  vm_compute. reflexivity.
Qed.

(** C2: when the catalog has at least [cfg.selection] words (and
    [cfg.selection] is at least 1), [changeQuestion] returns exactly
    [cfg.selection] choices: the answer text of the chosen word and those of
    [cfg.selection - 1] distinct other entries, the re-scan of the catalog
    topping up whatever the candidate pool leaves short. *)
Theorem changeQuestion_full_choices `{Host} cfg s :
  (1 ≤ selection cfg)%Z → (selection cfg ≤ Z.of_nat (length (words cfg)))%Z →
  state_ok cfg s →
  ∃ q s' t D, changeQuestion cfg s = (Some q, s') ∧
    Z.of_nat (length (choices q)) = selection cfg ∧
    words cfg !! t = Some (word q) ∧
    NoDup D ∧ (∀ d, d ∈ D → d < length (words cfg) ∧ d ≠ t) ∧
    Z.of_nat (length D) = (selection cfg - 1)%Z ∧
    choices q ≡ₚ answer (mode cfg) (word q) :: (answer_of cfg <$> D).
Proof.
  intros Hsel Hn Hok.
  assert (words cfg ≠ []) as Hne by (destruct (words cfg); [simpl in Hn; lia|done]).
  destruct (changeQuestion_spec cfg s Hne Hok)
    as (q & s' & t & D & Hrun & Hw & Hch & _ & (HndD & HinD & HlenD) & _).
  exists q, s', t, D. split_and!; [done| |done..| |done].
  - rewrite Hch. simpl. rewrite length_fmap, HlenD. lia.
  - rewrite HlenD. lia.
Qed.

Lemma changeQuestion_full_choices_witness :
  (1 ≤ selection nouns_cfg)%Z ∧
  (selection nouns_cfg ≤ Z.of_nat (length (words nouns_cfg)))%Z ∧
  state_ok nouns_cfg initial_state ∧
  ∃ q s' t D, @changeQuestion example_host nouns_cfg initial_state = (Some q, s') ∧
    Z.of_nat (length (choices q)) = selection nouns_cfg ∧
    words nouns_cfg !! t = Some (word q) ∧
    NoDup D ∧ (∀ d, d ∈ D → d < length (words nouns_cfg) ∧ d ≠ t) ∧
    Z.of_nat (length D) = (selection nouns_cfg - 1)%Z ∧
    choices q ≡ₚ answer (mode nouns_cfg) (word q) :: (answer_of nouns_cfg <$> D).
Proof.
  assert (1 ≤ selection nouns_cfg)%Z as H1 by (vm_compute; discriminate).
  assert (selection nouns_cfg ≤ Z.of_nat (length (words nouns_cfg)))%Z as H2
    by (vm_compute; discriminate).
  pose proof (state_ok_initial nouns_cfg) as Hok.
  split; [exact H1|]. split; [exact H2|]. split; [exact Hok|].
  exact (@changeQuestion_full_choices example_host nouns_cfg initial_state H1 H2 Hok).
Defined.

(** C6 (amended): when the catalog has at least one word and fewer than
    [cfg.selection], [changeQuestion] returns as many choices as the catalog
    has words, namely the answer texts of all its entries, each entry once; so
    the choices are free of duplicates exactly when the catalog's answer texts
    are; with one word the only choice is the correct answer. *)
Theorem changeQuestion_small_catalog `{Host} cfg s :
  1 ≤ length (words cfg) → (Z.of_nat (length (words cfg)) < selection cfg)%Z →
  state_ok cfg s →
  ∃ q s', changeQuestion cfg s = (Some q, s') ∧
    length (choices q) = length (words cfg) ∧
    choices q ≡ₚ answer (mode cfg) <$> words cfg ∧
    (NoDup (choices q) ↔ NoDup (answer (mode cfg) <$> words cfg)) ∧
    (length (words cfg) = 1 →
     choices q = [answer (mode cfg) (word q)] ∧ correctIndex q = 0%Z).
Proof.
  intros Hn Hsel Hok.
  assert (words cfg ≠ []) as Hne by (destruct (words cfg); [simpl in Hn; lia|done]).
  destruct (changeQuestion_spec cfg s Hne Hok)
    as (q & s' & t & D & Hrun & Hw & Hch & Hci & (HndD & HinD & HlenD) & _).
  pose proof (lookup_lt_Some _ _ _ Hw) as Ht.
  assert (t :: D ≡ₚ seq 0 (length (words cfg))) as Hall.
  { apply nodup_range_full.
    - apply NoDup_cons. split; [|done]. intros HtD. by destruct (HinD _ HtD).
    - intros x [->|Hx]%elem_of_cons; [done|]. by destruct (HinD _ Hx).
    - simpl. rewrite HlenD. lia. }
  assert (choices q ≡ₚ answer (mode cfg) <$> words cfg) as Hperm.
  { rewrite Hch, <- answers_of_catalog, <- Hall. simpl.
    by rewrite (answer_of_lookup _ _ _ Hw). }
  exists q, s'. split_and!; [done| |done| |].
  - rewrite Hperm. by rewrite length_fmap.
  - by rewrite Hperm.
  - intros H1. destruct D as [|d D']; [|simpl in HlenD; lia].
    simpl in Hch. apply Permutation_singleton_r in Hch.
    split; [done|]. rewrite Hci, Hch. unfold indexOf. simpl.
    by rewrite decide_True.
Qed.

Lemma changeQuestion_small_catalog_witness :
  1 ≤ length (words homographs_cfg) ∧
  (Z.of_nat (length (words homographs_cfg)) < selection homographs_cfg)%Z ∧
  state_ok homographs_cfg initial_state ∧
  ∃ q s', @changeQuestion example_host homographs_cfg initial_state = (Some q, s') ∧
    length (choices q) = length (words homographs_cfg) ∧
    choices q ≡ₚ answer (mode homographs_cfg) <$> words homographs_cfg ∧
    (NoDup (choices q) ↔ NoDup (answer (mode homographs_cfg) <$> words homographs_cfg)) ∧
    (length (words homographs_cfg) = 1 →
     choices q = [answer (mode homographs_cfg) (word q)] ∧ correctIndex q = 0%Z).
Proof.
  assert (1 ≤ length (words homographs_cfg)) as H1 by (vm_compute; lia).
  assert (Z.of_nat (length (words homographs_cfg)) < selection homographs_cfg)%Z as H2
    by (vm_compute; reflexivity).
  pose proof (state_ok_initial homographs_cfg) as Hok.
  split; [exact H1|]. split; [exact H2|]. split; [exact Hok|].
  exact (@changeQuestion_small_catalog example_host homographs_cfg initial_state H1 H2 Hok).
Defined.

(** C6, as stated, fails: a catalog of three words, two of them with the
    same headword, yields three choices with a duplicate among them. *)
Lemma changeQuestion_duplicate_choices :
  ∃ q s', @changeQuestion example_host homographs_cfg initial_state = (Some q, s') ∧
    1 ≤ length (words homographs_cfg) ∧
    (Z.of_nat (length (words homographs_cfg)) < selection homographs_cfg)%Z ∧
    length (choices q) = 3 ∧
    length (filter (λ c, c = lit "bank") (choices q)) = 2.
Proof.
  eexists _, _. split; [vm_compute; reflexivity|].
  split_and!; [simpl; lia|done|done|]. vm_compute. reflexivity.
Qed.

Lemma candidate_pool_spec cfg t x :
  x ∈ candidate_pool cfg t ↔
  x < length (words cfg) ∧ x ≠ t ∧
  (shares_pos cfg t x ∨ near_len cfg t x ∨ candidate_union cfg t = []).
Proof.
  unfold candidate_pool. case_decide as Hu.
  - unfold others. rewrite list_elem_of_filter, elem_of_seq. split.
    + intros [? ?]. split_and!; [lia|done|auto].
    + intros (? & ? & _). split; [done|lia].
  - rewrite candidate_union_elem. unfold in_union. split.
    + intros (? & ? & [?|?]); auto.
    + intros (? & ? & [?|[?|?]]); [auto..|done].
Qed.

(** C3: with an index built from the current catalog, the sequence returned
    by [getCandidateDistractorIndices] is drawn from the pool, which consists
    of the other indices that share the target's (non-empty) part of speech or
    whose answer text is within two code units of the target's, and of every
    other index when there is none of these. A pool of at most 200 indices is
    returned whole; a larger one is cut to 200 of its members. The result has
    no repeats, at most 200 elements, and never holds the target index. *)
Theorem getCandidateDistractorIndices_pool `{Host} cfg t s :
  index_ok cfg s →
  ∃ arr s', getCandidateDistractorIndices cfg t s = (arr, s') ∧
    (∀ x, x ∈ candidate_pool cfg t ↔
          x < length (words cfg) ∧ x ≠ t ∧
          (shares_pos cfg t x ∨ near_len cfg t x ∨
           ¬ ∃ y, y < length (words cfg) ∧ y ≠ t ∧
                  (shares_pos cfg t y ∨ near_len cfg t y))) ∧
    (length (candidate_pool cfg t) ≤ 200 → arr ≡ₚ candidate_pool cfg t) ∧
    (200 < length (candidate_pool cfg t) →
     length arr = 200 ∧ ∀ x, x ∈ arr → x ∈ candidate_pool cfg t) ∧
    NoDup arr ∧ length arr ≤ 200 ∧ t ∉ arr.
Proof.
  intros Hok.
  destruct (getCandidateDistractorIndices_spec cfg t s Hok)
    as (arr & s' & Hrun & _ & _ & _ & Hsub & Hsmall & Hbig).
  exists arr, s'. split; [done|]. split_and!.
  - intros x. rewrite candidate_pool_spec.
    assert (candidate_union cfg t = [] ↔
            ¬ ∃ y, y < length (words cfg) ∧ y ≠ t ∧
                   (shares_pos cfg t y ∨ near_len cfg t y)) as ->; [|done].
    split.
    + intros Hu (y & Hy & Hne & Hy').
      assert (y ∈ candidate_union cfg t) as Hin.
      { apply candidate_union_elem. by split. }
      rewrite Hu in Hin. by apply elem_of_nil in Hin.
    + intros Hno. apply elem_of_nil_inv. intros y Hy.
      apply candidate_union_elem in Hy as [? [? ?]]. apply Hno. by exists y.
  - done.
  - intros Hgt. split; [by apply Hbig|].
    intros x Hx. by eapply elem_of_submseteq.
  - eapply submseteq_NoDup; [done|apply candidate_pool_NoDup].
  - destruct (decide (length (candidate_pool cfg t) ≤ 200)) as [Hle|Hgt].
    + by rewrite (Permutation_length (Hsmall Hle)).
    + rewrite Hbig by lia. done.
  - intros Ht. eapply elem_of_submseteq in Ht; [|done].
    apply candidate_pool_elem in Ht as [_ ?]. done.
Qed.

Lemma getCandidateDistractorIndices_pool_witness :
  index_ok insist_cfg initial_state ∧
  ∃ arr s', @getCandidateDistractorIndices example_host insist_cfg 2 initial_state
            = (arr, s') ∧
    (∀ x, x ∈ candidate_pool insist_cfg 2 ↔
          x < length (words insist_cfg) ∧ x ≠ 2 ∧
          (shares_pos insist_cfg 2 x ∨ near_len insist_cfg 2 x ∨
           ¬ ∃ y, y < length (words insist_cfg) ∧ y ≠ 2 ∧
                  (shares_pos insist_cfg 2 y ∨ near_len insist_cfg 2 y))) ∧
    (length (candidate_pool insist_cfg 2) ≤ 200 → arr ≡ₚ candidate_pool insist_cfg 2) ∧
    (200 < length (candidate_pool insist_cfg 2) →
     length arr = 200 ∧ ∀ x, x ∈ arr → x ∈ candidate_pool insist_cfg 2) ∧
    NoDup arr ∧ length arr ≤ 200 ∧ 2 ∉ arr.
Proof.
  assert (index_ok insist_cfg initial_state) as Hok by (intros Hb; discriminate Hb).
  split; [exact Hok|].
  exact (@getCandidateDistractorIndices_pool example_host insist_cfg 2 initial_state Hok).
Defined.

(** C10: after [buildIndex], every catalog index is listed in [byLen] under
    exactly one key, the length of its answer text, and is listed in [byPOS]
    (under its part of speech) exactly when its part of speech is not the
    empty string; an entry with an empty part of speech is therefore among the
    candidates of a target only as a length neighbour or when no index shares
    the target's part of speech or neighbours its length. *)
Theorem buildIndex_membership `{Host} cfg s i :
  i < length (words cfg) →
  indexBuilt (buildIndex cfg s).2 = true ∧
  (∀ l, (∃ arr, byLen (wordIndexMap (buildIndex cfg s).2) !! l = Some arr ∧ i ∈ arr)
        ↔ l = len_at cfg i) ∧
  (∀ p, (∃ arr, byPOS (wordIndexMap (buildIndex cfg s).2) !! p = Some arr ∧ i ∈ arr)
        ↔ p = pos_at cfg i ∧ p ≠ []) ∧
  ((∃ p arr, byPOS (wordIndexMap (buildIndex cfg s).2) !! p = Some arr ∧ i ∈ arr)
   ↔ pos_at cfg i ≠ []) ∧
  (pos_at cfg i = [] →
   ∀ t, i ∈ (getCandidateDistractorIndices cfg t (buildIndex cfg s).2).1 →
        near_len cfg t i ∨ candidate_union cfg t = []).
Proof.
  intros Hi. simpl. split_and!; [done|..].
  - intros l. rewrite byLen_elem. split; [by intros [_ ->]|by intros ->].
  - intros p. rewrite byPOS_elem. split; [by intros (_ & -> & ?)|by intros [-> ?]].
  - split.
    + intros (p & Hp). apply byPOS_elem in Hp as (_ & -> & ?). done.
    + intros Hp. exists (pos_at cfg i). by apply byPOS_elem.
  - intros Hp t Hin.
    destruct (getCandidateDistractorIndices_spec cfg t (set_index true (build cfg) s))
      as (arr & s' & Hrun & _ & _ & _ & Hsub & _); [by intros _|].
    unfold buildIndex, modify in Hin. simpl in Hin. rewrite Hrun in Hin. simpl in Hin.
    eapply elem_of_submseteq in Hin; [|done].
    apply candidate_pool_spec in Hin as (_ & _ & [[Hne Hs]|[?|?]]); [|by left|by right].
    exfalso. apply Hne. congruence.
Qed.

Lemma buildIndex_membership_witness :
  3 < length (words insist_cfg) ∧
  indexBuilt (buildIndex insist_cfg initial_state).2 = true ∧
  (∀ l, (∃ arr, byLen (wordIndexMap (buildIndex insist_cfg initial_state).2) !! l
                = Some arr ∧ 3 ∈ arr)
        ↔ l = len_at insist_cfg 3) ∧
  (∀ p, (∃ arr, byPOS (wordIndexMap (buildIndex insist_cfg initial_state).2) !! p
                = Some arr ∧ 3 ∈ arr)
        ↔ p = pos_at insist_cfg 3 ∧ p ≠ []) ∧
  ((∃ p arr, byPOS (wordIndexMap (buildIndex insist_cfg initial_state).2) !! p
             = Some arr ∧ 3 ∈ arr)
   ↔ pos_at insist_cfg 3 ≠ []) ∧
  (pos_at insist_cfg 3 = [] →
   ∀ t, 3 ∈ (@getCandidateDistractorIndices example_host insist_cfg t
               (buildIndex insist_cfg initial_state).2).1 →
        near_len insist_cfg t 3 ∨ candidate_union insist_cfg t = []).
Proof.
  assert (3 < length (words insist_cfg)) as Hi by (vm_compute; lia).
  split; [exact Hi|].
  exact (@buildIndex_membership example_host insist_cfg initial_state 3 Hi).
Defined.

Lemma longest_common_length_unique {A} `{EqDecision A} (a b : list A) k :
  longest_common_length a b k ↔ k = longestCommonSubstringLength a b.
Proof.
  destruct (longestCommonSubstringLength_spec a b) as [(s0 & Hs0 & Hl0) Hmax0].
  split.
  - intros [(s & Hs & Hl) Hmax].
    specialize (Hmax _ Hs0). specialize (Hmax0 _ Hs). lia.
  - intros ->. split; [by exists s0|done].
Qed.

(** C5: with the similarity filter enabled, a candidate is dropped exactly
    when the longest common contiguous substring of its lower-cased answer
    text and the lower-cased target has at least max(3, floor(n/2)) code
    units, n being the length of the lower-cased target; candidates are never
    added; and for the target "insist" a candidate "insisting" is dropped. *)
Theorem similarity_filter_spec `{Host} cfg (correctAnswer : jsstring) cands :
  avoidSimilarDistractors cfg = true →
  (∀ i, i ∈ cands → i < length (words cfg)) →
  ∃ kept, similarity_filter cfg correctAnswer cands = Some kept ∧
    (∀ i, i ∈ kept → i ∈ cands) ∧
    (∀ i, i ∈ cands →
       (i ∉ kept ↔
        ∃ k, longest_common_length (toLowerCase correctAnswer)
               (toLowerCase (answer_of cfg i)) k ∧
             Nat.max 3 (length (toLowerCase correctAnswer) / 2) ≤ k)) ∧
    (correctAnswer = lit "insist" →
     toLowerCase (lit "insist") = lit "insist" →
     toLowerCase (lit "insisting") = lit "insisting" →
     ∀ i, answer_of cfg i = lit "insisting" → i ∉ kept).
Proof.
  intros Hon Hin. unfold similarity_filter. rewrite Hon.
  rewrite filter_dissimilar_spec by done. eexists. split; [done|].
  assert (∀ i, i ∈ cands →
            (i ∉ filter (λ i, dissimilar (toLowerCase correctAnswer)
                                (toLowerCase (answer_of cfg i)) = true) cands
             ↔ Nat.max 3 (length (toLowerCase correctAnswer) / 2)
               ≤ longestCommonSubstringLength (toLowerCase correctAnswer)
                   (toLowerCase (answer_of cfg i)))) as Hdrop.
  { intros i Hi. rewrite list_elem_of_filter. unfold dissimilar.
    rewrite bool_decide_eq_true. split; [|lia].
    intros Hn. destruct (decide (Nat.max 3 (length (toLowerCase correctAnswer) / 2)
                          ≤ longestCommonSubstringLength (toLowerCase correctAnswer)
                              (toLowerCase (answer_of cfg i)))); [done|].
    exfalso. apply Hn. split; [lia|done]. }
  split_and!.
  - intros i Hi. by apply list_elem_of_filter in Hi as [_ ?].
  - intros i Hi. rewrite (Hdrop i Hi). split.
    + intros Hle. eexists. split; [by apply longest_common_length_unique|done].
    + intros (k & ->%longest_common_length_unique & Hle). done.
  - intros -> Ht Hc i Hi Hkept.
    apply list_elem_of_filter in Hkept as [Hd _].
    rewrite Hi, Ht, Hc in Hd. vm_compute in Hd. discriminate Hd.
Qed.

Lemma similarity_filter_spec_witness :
  avoidSimilarDistractors insist_cfg = true ∧
  (∀ i, i ∈ [1; 2; 3] → i < length (words insist_cfg)) ∧
  ∃ kept, @similarity_filter example_host insist_cfg (lit "insist") [1; 2; 3]
          = Some kept ∧
    (∀ i, i ∈ kept → i ∈ [1; 2; 3]) ∧
    (∀ i, i ∈ [1; 2; 3] →
       (i ∉ kept ↔
        ∃ k, longest_common_length (@toLowerCase example_host (lit "insist"))
               (@toLowerCase example_host (answer_of insist_cfg i)) k ∧
             Nat.max 3 (length (@toLowerCase example_host (lit "insist")) / 2) ≤ k)) ∧
    (lit "insist" = lit "insist" →
     @toLowerCase example_host (lit "insist") = lit "insist" →
     @toLowerCase example_host (lit "insisting") = lit "insisting" →
     ∀ i, answer_of insist_cfg i = lit "insisting" → i ∉ kept).
Proof.
  assert (avoidSimilarDistractors insist_cfg = true) as Hon by reflexivity.
  assert (∀ i, i ∈ [1; 2; 3] → i < length (words insist_cfg)) as Hin.
  { intros i Hi. simpl.
    repeat (apply elem_of_cons in Hi as [->|Hi]; [lia|]). by apply elem_of_nil in Hi. }
  split; [exact Hon|]. split; [exact Hin|].
  exact (@similarity_filter_spec example_host insist_cfg (lit "insist") [1; 2; 3] Hon Hin).
Defined.

(** The filter at work: of the candidates 1 ("insisting"), 2 ("dog") and
    3 ("cat") for the target "insist", the first is dropped. *)
Example similarity_filter_insist :
  @similarity_filter example_host insist_cfg (lit "insist") [1; 2; 3] = Some [2; 3].
Proof. vm_compute. reflexivity. Qed.

(** When the filter leaves fewer than [cfg.selection - 1] distractors, the
    re-scan of the catalog brings a dropped entry back among the choices. *)
Example similarity_filter_topped_up :
  ∃ q s', @changeQuestion example_host insist_cfg initial_state = (Some q, s') ∧
    answer (mode insist_cfg) (word q) = lit "insist" ∧
    lit "insisting" ∈ choices q.
Proof.
  eexists _, _. split; [vm_compute; reflexivity|]. split; [done|].
  vm_compute. set_solver.
Qed.

(** C4: on a non-empty catalog, starting from an empty [usedWords], as many
    calls of [chooseWordIndex] as the catalog has words choose every index
    exactly once; a call made when [usedWords] covers the catalog clears it
    before choosing; any other call chooses an index not used so far and
    appends it. *)
Theorem chooseWordIndex_without_replacement `{Host} cfg s :
  words cfg ≠ [] →
  (usedWords s = [] →
   ∃ cs s', choose_many cfg (length (words cfg)) s = (cs, s') ∧
     cs ≡ₚ Some <$> seq 0 (length (words cfg)) ∧ usedWords s' = cs) ∧
  (used_ok cfg s → (∀ i, i < length (words cfg) → Some i ∈ usedWords s) →
   ∃ c s', chooseWordIndex cfg s = (Some c, s') ∧ c < length (words cfg) ∧
     usedWords s' = [Some c]) ∧
  (used_ok cfg s → length (usedWords s) < length (words cfg) →
   ∃ c s', chooseWordIndex cfg s = (Some c, s') ∧ c < length (words cfg) ∧
     (Some c ∉ usedWords s) ∧ usedWords s' = usedWords s ++ [Some c]).
Proof.
  intros Hne. split_and!.
  - intros Hempty.
    assert (used_ok cfg s) as Hok.
    { split; rewrite Hempty; [apply NoDup_nil_2|]. intros u Hu.
      by apply elem_of_nil in Hu. }
    destruct (choose_many_spec cfg (length (words cfg)) s Hne Hok)
      as (cs & s' & Hrun & Hlen & Hu & [Hnd Hin]).
    { rewrite Hempty. simpl. lia. }
    rewrite Hempty in Hu. simpl in Hu. exists cs, s'. rewrite Hu in *.
    split_and!; [done| |done].
    apply submseteq_length_Permutation.
    + by apply used_length_le.
    + rewrite length_fmap, length_seq. lia.
  - intros Hok Hcover.
    destruct (chooseWordIndex_spec cfg s Hne Hok) as (c & s' & Hrun & Hc & _ & Hu & _).
    exists c, s'. split_and!; [done..|].
    unfold after_reset in Hu. rewrite decide_True in Hu; [done|].
    destruct Hok as [Hnd Hin]. apply Nat.le_antisymm.
    + pose proof (submseteq_length _ _ (used_length_le cfg _ Hnd Hin)) as Hle.
      by rewrite length_fmap, length_seq in Hle.
    + assert ((Some <$> seq 0 (length (words cfg))) ⊆+ usedWords s) as Hsub.
      { apply NoDup_submseteq; [apply (NoDup_fmap_2 _), NoDup_seq|].
        intros u (i & -> & Hi)%list_elem_of_fmap. apply Hcover.
        apply elem_of_seq in Hi. lia. }
      apply submseteq_length in Hsub. by rewrite length_fmap, length_seq in Hsub.
  - intros Hok Hlt.
    destruct (chooseWordIndex_spec cfg s Hne Hok) as (c & s' & Hrun & Hc & Hfresh & Hu & _).
    unfold after_reset in Hu, Hfresh. rewrite decide_False in Hu, Hfresh by lia.
    by exists c, s'.
Qed.

Lemma used_ok_full cfg :
  used_ok cfg (set_usedWords (Some <$> seq 0 (length (words cfg))) initial_state).
Proof.
  split; simpl.
  - apply (NoDup_fmap_2 _), NoDup_seq.
  - intros u (i & -> & Hi)%list_elem_of_fmap. exists i. split; [done|].
    apply elem_of_seq in Hi. lia.
Qed.

Lemma chooseWordIndex_without_replacement_witness :
  words nouns_cfg ≠ [] ∧
  (∃ cs s', @choose_many example_host nouns_cfg (length (words nouns_cfg)) initial_state
            = (cs, s') ∧
     cs ≡ₚ Some <$> seq 0 (length (words nouns_cfg)) ∧ usedWords s' = cs) ∧
  (∃ c s', @chooseWordIndex example_host nouns_cfg
             (set_usedWords (Some <$> seq 0 (length (words nouns_cfg))) initial_state)
           = (Some c, s') ∧ c < length (words nouns_cfg) ∧ usedWords s' = [Some c]) ∧
  (∃ c s', @chooseWordIndex example_host nouns_cfg initial_state = (Some c, s') ∧
     c < length (words nouns_cfg) ∧ (Some c ∉ usedWords initial_state) ∧
     usedWords s' = usedWords initial_state ++ [Some c]).
Proof.
  assert (words nouns_cfg ≠ []) as Hne by done.
  split; [exact Hne|]. split_and!.
  - apply (@chooseWordIndex_without_replacement example_host nouns_cfg initial_state Hne).
    reflexivity.
  - apply (@chooseWordIndex_without_replacement example_host nouns_cfg
             (set_usedWords (Some <$> seq 0 (length (words nouns_cfg))) initial_state) Hne).
    + apply used_ok_full.
    + intros i Hi. apply (list_elem_of_fmap_2 Some), elem_of_seq. lia.
  - apply (@chooseWordIndex_without_replacement example_host nouns_cfg initial_state Hne).
    + apply state_ok_initial.
    + simpl. lia.
Defined.

(** ** The normaliser *)

Section normalizer_proofs.
Import Normalizer.

Lemma normalizeWords_array items :
  normalizeWords (VArray items) = omap normalize_item items.
Proof.
  unfold normalizeWords. simpl.
  assert (∀ out, foldl (λ out item, match normalize_item item with
                                    | Some entry => out ++ [entry]
                                    | None => out
                                    end) out items
                 = out ++ omap normalize_item items) as Hgen.
  { induction items as [|item items IH]; intros out; simpl.
    - by rewrite app_nil_r.
    - rewrite IH. destruct (normalize_item item); [|done].
      by rewrite <- app_assoc. }
  by rewrite Hgen.
Qed.

Lemma normalizeWords_mapping props :
  normalizeWords (VObject props) = normalize_key (VObject props) <$> (fst <$> props).
Proof.
  unfold normalizeWords. simpl. generalize (VObject props). intros raw.
  assert (∀ out, foldl (λ out key, out ++ [normalize_key raw key]) out (fst <$> props)
                 = out ++ (normalize_key raw <$> (fst <$> props))) as Hgen.
  { induction props as [|p props IH]; intros out; simpl.
    - by rewrite app_nil_r.
    - rewrite IH. by rewrite <- app_assoc. }
  by rewrite Hgen.
Qed.

Lemma normalize_item_four_fields item entry :
  normalize_item item = Some entry → length entry = 4.
Proof.
  destruct item; simpl; try done; try (by intros [= <-]).
  destruct (default _ _); by intros [= <-].
Qed.

(** Every entry of the result has four fields, whatever the input. *)
Lemma normalizeWords_four_fields raw entry :
  entry ∈ normalizeWords raw → length entry = 4.
Proof.
  destruct raw; try (by intros ?%elem_of_nil);
    try (unfold normalizeWords; simpl; case_match; by intros ?%elem_of_nil).
  - rewrite normalizeWords_array. intros (item & _ & Hitem)%list_elem_of_omap.
    by eapply normalize_item_four_fields.
  - rewrite normalizeWords_mapping. by intros (key & -> & _)%list_elem_of_fmap.
Qed.

(** C7, the failing input: for the array source [[{}]] the normaliser
    neither skips the object nor fills its headword with the empty string;
    the entry it emits has [undefined] as headword and is no entry of four
    strings. An empty array item, by contrast, does get the empty string. *)
Theorem normalizeWords_empty_object :
  normalizeWords (VArray [VObject []])
  = [[VUndefined; VString []; VString []; VString []]] ∧
  to_entry <$> normalizeWords (VArray [VObject []]) = [None] ∧
  normalizeWords (VArray [VArray []])
  = [[VString []; VString []; VString []; VString []]].
Proof. split_and!; reflexivity. Qed.

(** The shapes of section 4.1 of the specification, normalised in order;
    the number in between is skipped. *)
Example normalizeWords_shapes :
  normalizeWords
    (VArray [VArray [VString (lit "cat"); VString (lit "neko")];
             VNumber 7;
             VObject [(lit "word", VString (lit "dog")); (lit "POS", VString (lit "noun"))];
             VObject [(lit "run", VObject [(lit "meaning", VString (lit "hashiru"))])];
             VString (lit "fish")])
  = [[VString (lit "cat"); VString (lit "neko"); VString []; VString []];
     [VString (lit "dog"); VString []; VString []; VString (lit "noun")];
     [VString (lit "run"); VString (lit "hashiru"); VString []; VString []];
     [VString (lit "fish"); VString []; VString []; VString []]].
Proof. reflexivity. Qed.

End normalizer_proofs.

(** ** The statistics store *)

Section persistence_proofs.
Import Persistence.
Context `{LocalStorage}.

Lemma loadStats_cases st :
  ∃ loaded st', loadStats st = (Return loaded, st') ∧
    (hasLocalStorage = false → loaded = empty_stats ∧ st' = st) ∧
    (hasLocalStorage = true →
     match getItem STORAGE_KEY st with
     | (Raise, _) => loaded = empty_stats
     | (Return raw, st1) =>
         if no_text raw then loaded = empty_stats ∧ st' = st1
         else match JSON_parse (default [] raw) with
              | Return v => loaded = v ∧ st' = st1
              | Raise => loaded = empty_stats
              end
     end).
Proof.
  unfold loadStats, try_catch, andThen, pure, throw.
  destruct hasLocalStorage; simpl.
  2:{ eexists _, _. split; [done|]. split; [done|]. intros [=]. }
  destruct (getItem STORAGE_KEY st) as [[raw|] st1].
  - destruct (no_text raw).
    + eexists _, _. split; [done|]. split; [intros [=]|done].
    + destruct (JSON_parse (default [] raw)) as [v|].
      * eexists _, _. split; [done|]. split; [intros [=]|done].
      * destruct (removeItem STORAGE_KEY st1) as [[[]|] st2];
          (eexists _, _; split; [done|]; split; [intros [=]|done]).
  - destruct (removeItem STORAGE_KEY st1) as [[[]|] st2];
      (eexists _, _; split; [done|]; split; [intros [=]|done]).
Qed.

Lemma saveStats_cases s st :
  ∃ st', saveStats s st = (Return tt, st') ∧
    (hasLocalStorage = false → st' = st) ∧
    (hasLocalStorage = true → st' = (setItem STORAGE_KEY (JSON_stringify s) st).2).
Proof.
  unfold saveStats, try_catch, pure. destruct hasLocalStorage; simpl.
  - destruct (setItem STORAGE_KEY (JSON_stringify s) st) as [[[]|] st1];
      (eexists; split; [done|]; split; [intros [=]|done]).
  - eexists. split; [done|]. split; [done|intros [=]].
Qed.

(** *** Properties and their names *)

Lemma assoc_put {A} k (a : A) l : assoc k (put k a l) = Some a.
Proof.
  induction l as [|[k' a'] l IH]; simpl.
  - by rewrite decide_True.
  - destruct (decide (k' = k)) as [->|Hne]; simpl.
    + by rewrite decide_True.
    + by rewrite decide_False.
Qed.

Lemma assoc_put_ne {A} k k' (a : A) l : k ≠ k' → assoc k' (put k a l) = assoc k' l.
Proof.
  intros Hne. induction l as [|[k0 a0] l IH]; simpl.
  - by rewrite decide_False.
  - destruct (decide (k0 = k)) as [->|Hk]; simpl.
    + by rewrite !decide_False.
    + destruct (decide (k0 = k')); [done|]. exact IH.
Qed.

Lemma assoc_elem {A} k (a : A) l : assoc k l = Some a → (k, a) ∈ l.
Proof.
  induction l as [|[k' a'] l IH]; simpl; [done|].
  destruct (decide (k' = k)) as [->|Hne].
  - intros [= ->]. apply elem_of_cons. by left.
  - intros Ha. apply elem_of_cons. right. by apply IH.
Qed.

Lemma put_elem {A} k (a : A) l x : x ∈ put k a l → x = (k, a) ∨ x ∈ l.
Proof.
  induction l as [|[k' a'] l IH]; simpl.
  - intros ->%list_elem_of_singleton. by left.
  - destruct (decide (k' = k)) as [->|Hne].
    + intros [->|Hx]%elem_of_cons; [by left|]. right. apply elem_of_cons. by right.
    + intros [->|Hx]%elem_of_cons.
      * right. apply elem_of_cons. by left.
      * destruct (IH Hx) as [->|Hl]; [by left|]. right. apply elem_of_cons. by right.
Qed.

Lemma is_object_named v :
  is_object v = true →
  ∃ props, (∀ name, get_named v name = default JUndefined (assoc name props)) ∧
           (v = JObj props ∨ ∃ items, v = JArr items props).
Proof. destruct v; try done; intros _; eexists; split; eauto. Qed.

Lemma set_named_object v name x :
  is_object v = true →
  ∃ v', set_named v name x = Return v' ∧ is_object v' = true ∧
    get_named v' name = x ∧
    ∀ name', name ≠ name' → get_named v' name' = get_named v name'.
Proof.
  destruct v as [| | | | |items props|props]; try done; intros _; simpl;
    (eexists; split; [done|]; split; [done|]; simpl; split;
     [by rewrite assoc_put|intros name' Hne; by rewrite assoc_put_ne]).
Qed.

Lemma set_named_primitive v name x : is_object v = false → set_named v name x = Raise.
Proof. by destruct v. Qed.

Lemma get_named_primitive v name : is_object v = false → get_named v name = JUndefined.
Proof. by destruct v. Qed.

(** *** What [record_session] does to each property *)

Lemma record_session_primitive stats results qc now :
  is_object stats = false → record_session stats results qc now = Raise.
Proof. intros Hv. unfold record_session. by rewrite set_named_primitive. Qed.

Lemma record_session_spec stats results qc now sessions better perWord :
  is_object stats = true →
  push (or_value (get_named stats (lit "sessions")) (JArr [] []))
    (session_record now (length (filter (λ r, r_correct r = true) results)) qc)
  = Return sessions →
  beats (get_named stats (lit "highScore"))
    (length (filter (λ r, r_correct r = true) results)) = Return better →
  count_words (or_value (get_named stats (lit "perWord")) (JObj [])) results
  = Return perWord →
  ∃ stats', record_session stats results qc now = Return stats' ∧
    is_object stats' = true ∧
    get_named stats' (lit "sessions") = sessions ∧
    get_named stats' (lit "perWord") = perWord ∧
    get_named stats' (lit "highScore")
    = (if better
       then num_nat (length (filter (λ r, r_correct r = true) results))
       else get_named stats (lit "highScore")) ∧
    ∀ name, name ≠ lit "sessions" → name ≠ lit "perWord" →
            name ≠ lit "highScore" → get_named stats' name = get_named stats name.
Proof.
  intros Hobj. set (correct := length (filter (λ r, r_correct r = true) results)).
  intros Hpush Hbeats Hcount.
  assert (lit "sessions" ≠ lit "perWord") as Hsp by (by vm_compute).
  assert (lit "sessions" ≠ lit "highScore") as Hsh by (by vm_compute).
  assert (lit "perWord" ≠ lit "highScore") as Hph by (by vm_compute).
  assert (lit "perWord" ≠ lit "sessions") as Hps by (by vm_compute).
  assert (lit "highScore" ≠ lit "perWord") as Hhp by (by vm_compute).
  assert (lit "highScore" ≠ lit "sessions") as Hhs by (by vm_compute).
  unfold record_session. fold correct.
  destruct (set_named_object stats (lit "sessions")
              (or_value (get_named stats (lit "sessions")) (JArr [] [])) Hobj)
    as (s1 & -> & Hobj1 & Hs1 & Hother1). cbn [and_then].
  destruct (set_named_object s1 (lit "perWord")
              (or_value (get_named s1 (lit "perWord")) (JObj [])) Hobj1)
    as (s2 & -> & Hobj2 & Hp2 & Hother2). cbn [and_then].
  rewrite (Hother2 (lit "sessions")), Hs1, Hpush by done. cbn [and_then].
  destruct (set_named_object s2 (lit "sessions") sessions Hobj2)
    as (s3 & -> & Hobj3 & Hs3 & Hother3). cbn [and_then].
  rewrite (Hother3 (lit "highScore")), (Hother2 (lit "highScore")),
    (Hother1 (lit "highScore")), Hbeats by done. cbn [and_then].
  assert (∃ s4, (if better then set_named s3 (lit "highScore") (num_nat correct)
                 else Return s3) = Return s4 ∧ is_object s4 = true ∧
            get_named s4 (lit "highScore")
            = (if better then num_nat correct else get_named stats (lit "highScore")) ∧
            ∀ name', lit "highScore" ≠ name' → get_named s4 name' = get_named s3 name')
    as (s4 & -> & Hobj4 & Hh4 & Hother4).
  { destruct better.
    - destruct (set_named_object s3 (lit "highScore") (num_nat correct) Hobj3)
        as (s4 & -> & ? & ? & ?). by exists s4.
    - exists s3. split_and!; [done..| |done].
      by rewrite (Hother3 (lit "highScore")), (Hother2 (lit "highScore")),
        (Hother1 (lit "highScore")). }
  cbn [and_then].
  rewrite (Hother4 (lit "perWord")), (Hother3 (lit "perWord")), Hp2,
    (Hother1 (lit "perWord")), Hcount by done. cbn [and_then].
  destruct (set_named_object s4 (lit "perWord") perWord Hobj4)
    as (s5 & Hs5 & Hobj5 & Hp5 & Hother5).
  exists s5. split_and!; [done|done| |done| |].
  - by rewrite (Hother5 (lit "sessions")), (Hother4 (lit "sessions")), Hs3.
  - by rewrite (Hother5 (lit "highScore")), Hh4.
  - intros name Hn1 Hn2 Hn3.
    by rewrite (Hother5 name), (Hother4 name), (Hother3 name), (Hother2 name),
      (Hother1 name).
Qed.

Lemma updateStatsWithSession_returns results qc now st stats st0 stats' :
  loadStats st = (Return stats, st0) →
  record_session stats results qc now = Return stats' →
  ∃ st', updateStatsWithSession results qc now st = (Return stats', st') ∧
         st' = (saveStats stats' st0).2.
Proof.
  intros Hload Hrec. unfold updateStatsWithSession, andThen. rewrite Hload, Hrec.
  destruct (saveStats_cases stats' st0) as (st' & -> & _). by exists st'.
Qed.

Lemma updateStatsWithSession_raises results qc now st stats st0 :
  loadStats st = (Return stats, st0) →
  record_session stats results qc now = Raise →
  updateStatsWithSession results qc now st = (Raise, st0).
Proof.
  intros Hload Hrec. unfold updateStatsWithSession, andThen. by rewrite Hload, Hrec.
Qed.

(** *** Statistics of the expected shape stay so *)

Lemma plus_one_addable v :
  addable v = true → ∃ v', plus_one v = Return v' ∧ addable v' = true.
Proof. destruct v; try done; intros _; simpl; eauto. Qed.

Lemma increment_object name e :
  is_object e = true → addable (get_named e name) = true →
  ∃ e', increment name e = Return e' ∧ is_object e' = true ∧
    addable (get_named e' name) = true ∧
    ∀ name', name ≠ name' → get_named e' name' = get_named e name'.
Proof.
  intros Hobj Hadd. unfold increment.
  destruct (plus_one_addable _ Hadd) as (a & -> & Ha). cbn [and_then].
  destruct (set_named_object e name a Hobj) as (e' & -> & ? & <- & ?).
  by exists e'.
Qed.

Lemma bump_ok r e :
  is_object e = true → entry_ok e = true →
  ∃ e', bump r e = Return e' ∧ is_object e' = true ∧ entry_ok e' = true.
Proof.
  intros Hobj Hok.
  assert (lit "attempts" ≠ lit "correct") as Hac by (by vm_compute).
  assert (lit "attempts" ≠ lit "hintUsed") as Hah by (by vm_compute).
  assert (lit "correct" ≠ lit "hintUsed") as Hch by (by vm_compute).
  assert (lit "correct" ≠ lit "attempts") as Hca by (by vm_compute).
  assert (lit "hintUsed" ≠ lit "attempts") as Hha by (by vm_compute).
  assert (lit "hintUsed" ≠ lit "correct") as Hhc by (by vm_compute).
  assert (∀ x, is_object x = true →
            entry_ok x = addable (get_named x (lit "attempts"))
                         && addable (get_named x (lit "correct"))
                         && addable (get_named x (lit "hintUsed"))) as Hentry
    by (by intros []).
  rewrite Hentry in Hok by done.
  apply andb_true_iff in Hok as [[Ha Hc]%andb_true_iff Hh].
  unfold bump.
  destruct (increment_object (lit "attempts") e Hobj Ha)
    as (e1 & -> & Hobj1 & Ha1 & Ho1). cbn [and_then].
  assert (∃ e2, (if r_correct r then increment (lit "correct") e1 else Return e1)
                = Return e2 ∧ is_object e2 = true ∧
            addable (get_named e2 (lit "attempts")) = true ∧
            addable (get_named e2 (lit "correct")) = true ∧
            addable (get_named e2 (lit "hintUsed")) = true)
    as (e2 & -> & Hobj2 & Ha2 & Hc2 & Hh2).
  { destruct (r_correct r).
    - destruct (increment_object (lit "correct") e1 Hobj1)
        as (e2 & -> & ? & ? & Ho2); [by rewrite Ho1|].
      exists e2. split_and!; [done|done| |done|].
      + by rewrite (Ho2 (lit "attempts")).
      + by rewrite (Ho2 (lit "hintUsed")), (Ho1 (lit "hintUsed")).
    - exists e1. split_and!; [done|done|done| |].
      + by rewrite (Ho1 (lit "correct")).
      + by rewrite (Ho1 (lit "hintUsed")). }
  cbn [and_then]. destruct (hint_counts r).
  - destruct (increment_object (lit "hintUsed") e2 Hobj2 Hh2)
      as (e3 & -> & ? & ? & Ho3).
    exists e3. split_and!; [done..|]. rewrite Hentry by done.
    rewrite (Ho3 (lit "attempts")), (Ho3 (lit "correct")) by done.
    by rewrite Ha2, Hc2.
  - exists e2. split_and!; [done..|]. rewrite Hentry by done. by rewrite Ha2, Hc2, Hh2.
Qed.

Lemma forallb_put {A} (P : jsstring * A → bool) k a l :
  forallb P l = true → P (k, a) = true → forallb P (put k a l) = true.
Proof.
  intros Hl Ha. induction l as [|[k' a'] l IH]; simpl in *.
  - by rewrite Ha.
  - apply andb_true_iff in Hl as [H1 H2].
    destruct (decide (k' = k)); simpl.
    + by rewrite Ha, H2.
    + by rewrite H1, IH.
Qed.

Lemma forallb_assoc {A} (P : jsstring * A → bool) k a l :
  forallb P l = true → assoc k l = Some a → P (k, a) = true.
Proof.
  intros Hl Ha. apply assoc_elem in Ha.
  rewrite forallb_forall in Hl. apply Hl. by apply list_elem_of_In.
Qed.

Lemma count_word_ok props r :
  forallb (λ kv, entry_ok kv.2) props = true →
  ∃ props', count_word (JObj props) r = Return (JObj props') ∧
            forallb (λ kv, entry_ok kv.2) props' = true.
Proof.
  intros Hok. unfold count_word. cbn [own kind_of].
  assert (entry_ok fresh_entry = true) as Hfresh by done.
  assert (∃ props',
            and_then (assign (JObj props) (word_key r) fresh_entry) (λ p,
              and_then (bump r fresh_entry) (assign p (word_key r)))
            = Return (JObj props') ∧
            forallb (λ kv, entry_ok kv.2) props' = true) as Hcreate.
  { cbn [assign and_then].
    destruct (bump_ok r fresh_entry) as (e' & -> & _ & He'); [done..|].
    cbn [and_then assign]. eexists. split; [done|].
    by apply (forallb_put (λ kv, entry_ok kv.2)); [apply forallb_put|]. }
  destruct (assoc (word_key r) props) as [e|] eqn:He.
  - destruct (truthy e) eqn:Ht; [|done].
    pose proof (forallb_assoc (λ kv, entry_ok kv.2) _ _ _ Hok He) as Hentry.
    change (entry_ok e = true) in Hentry.
    assert (is_object e = true) as Hobj.
    { destruct e; try done; unfold entry_ok in Hentry; by rewrite Ht in Hentry. }
    destruct (bump_ok r e Hobj Hentry) as (e' & -> & _ & He').
    cbn [and_then assign]. eexists. split; [done|].
    by apply (forallb_put (λ kv, entry_ok kv.2)).
  - destruct (inherits KObject (word_key r)); [|done]. by exists props.
Qed.

Lemma count_words_ok results : ∀ props,
  forallb (λ kv, entry_ok kv.2) props = true →
  ∃ props', count_words (JObj props) results = Return (JObj props') ∧
            forallb (λ kv, entry_ok kv.2) props' = true.
Proof.
  induction results as [|r results IH]; intros props Hok; simpl.
  - by exists props.
  - destruct (count_word_ok props r Hok) as (props1 & -> & Hok1). cbn [and_then].
    by apply IH.
Qed.

Lemma perWord_ok_counts perWord results :
  perWord_ok perWord = true →
  ∃ perWord', count_words (or_value perWord (JObj [])) results = Return perWord' ∧
              perWord_ok perWord' = true ∧ truthy perWord' = true.
Proof.
  intros Hok.
  assert (∃ props, or_value perWord (JObj []) = JObj props ∧
                   forallb (λ kv, entry_ok kv.2) props = true) as (props & -> & Hall).
  { unfold or_value. destruct (truthy perWord) eqn:Ht.
    - destruct perWord; simpl in Hok, Ht; try done; try (by rewrite Ht in Hok).
      by eexists.
    - by exists []. }
  destruct (count_words_ok results props Hall) as (props' & -> & Hall').
  by exists (JObj props').
Qed.

Lemma sessions_ok_push sessions session :
  sessions_ok sessions = true →
  ∃ items props,
    push (or_value sessions (JArr [] [])) session
    = Return (JArr (items ++ [session]) props) ∧
    assoc (lit "push") props = None ∧
    items = match sessions with JArr items _ => items | _ => [] end.
Proof.
  intros Hok. unfold or_value. destruct (truthy sessions) eqn:Ht.
  - destruct sessions as [| | | | |items props|props]; simpl in Hok, Ht; try done;
      try (by rewrite Ht in Hok).
    apply bool_decide_eq_true in Hok. exists items, props. simpl. by rewrite Hok.
  - exists [], []. split_and!; [done..|]. by destruct sessions.
Qed.

Lemma beats_number old correct x :
  ToNumber old = Return x →
  beats old correct = Return (negb (truthy old && negb (exceeds correct x))).
Proof.
  intros Hx. unfold beats. rewrite Hx. destruct (truthy old); [|done].
  simpl. by rewrite negb_involutive.
Qed.

Lemma ToNumber_addable v : addable v = true → ∃ x, ToNumber v = Return x.
Proof. destruct v; try done; intros _; simpl; eauto. Qed.

(** The session record and the high score after [record_session], for
    statistics whose [sessions] and [highScore] are of the expected shape and
    whose words can be counted. *)
Lemma record_session_scores stats results qc now x perWord :
  is_object stats = true →
  sessions_ok (get_named stats (lit "sessions")) = true →
  ToNumber (get_named stats (lit "highScore")) = Return x →
  count_words (or_value (get_named stats (lit "perWord")) (JObj [])) results
  = Return perWord →
  ∃ stats', record_session stats results qc now = Return stats' ∧
    is_object stats' = true ∧
    sessions_ok (get_named stats' (lit "sessions")) = true ∧
    session_list stats'
    = session_list stats
      ++ [session_record now (length (filter (λ r, r_correct r = true) results)) qc] ∧
    get_named stats' (lit "perWord") = perWord ∧
    get_named stats' (lit "highScore")
    = (if truthy (get_named stats (lit "highScore"))
          && negb (exceeds (length (filter (λ r, r_correct r = true) results)) x)
       then get_named stats (lit "highScore")
       else num_nat (length (filter (λ r, r_correct r = true) results))).
Proof.
  intros Hobj Hs Hx Hcount.
  destruct (sessions_ok_push _
              (session_record now (length (filter (λ r, r_correct r = true) results)) qc)
              Hs) as (items & props & Hpush & Hnopush & Hitems).
  destruct (record_session_spec stats results qc now _ _ _ Hobj Hpush
              (beats_number _ _ _ Hx) Hcount)
    as (stats' & Hrec & Hobj' & Hs' & Hp' & Hh' & _).
  exists stats'. split_and!; [done|done| | |done|].
  - rewrite Hs'. simpl. by apply bool_decide_eq_true.
  - unfold session_list. rewrite Hs'. by rewrite Hitems.
  - rewrite Hh'.
    by destruct (truthy (get_named stats (lit "highScore"))
                 && negb (exceeds (length (filter (λ r, r_correct r = true) results)) x)).
Qed.

Lemma record_session_ok stats results qc now :
  stats_ok stats = true →
  ∃ stats', record_session stats results qc now = Return stats' ∧
            stats_ok stats' = true.
Proof.
  unfold stats_ok. intros [[[Hobj Hs]%andb_true_iff Hp]%andb_true_iff Hh]%andb_true_iff.
  destruct (ToNumber_addable _ Hh) as (x & Hx).
  destruct (perWord_ok_counts _ results Hp) as (perWord & Hcount & Hp' & _).
  destruct (record_session_scores stats results qc now x perWord Hobj Hs Hx Hcount)
    as (stats' & Hrec & Hobj' & Hs' & _ & Hpw & Hhs).
  exists stats'. split; [done|]. rewrite Hobj', Hs', Hpw, Hp', Hhs. simpl.
  by destruct (truthy (get_named stats (lit "highScore")) && _).
Qed.

Lemma record_session_bad_sessions stats results qc now :
  truthy (get_named stats (lit "sessions")) = true →
  (∀ items props, get_named stats (lit "sessions") ≠ JArr items props) →
  record_session stats results qc now = Raise.
Proof.
  intros Ht Hno. destruct (is_object stats) eqn:Hobj;
    [|by apply record_session_primitive].
  assert (lit "perWord" ≠ lit "sessions") as Hps by (by vm_compute).
  unfold record_session.
  destruct (set_named_object stats (lit "sessions")
              (or_value (get_named stats (lit "sessions")) (JArr [] [])) Hobj)
    as (s1 & -> & Hobj1 & Hs1 & Hother1). cbn [and_then].
  destruct (set_named_object s1 (lit "perWord")
              (or_value (get_named s1 (lit "perWord")) (JObj [])) Hobj1)
    as (s2 & -> & Hobj2 & Hp2 & Hother2). cbn [and_then].
  rewrite (Hother2 (lit "sessions")), Hs1 by done. unfold or_value. rewrite Ht.
  destruct (get_named stats (lit "sessions")) as [| | | | |items props|]; try done.
  by destruct (Hno items props).
Qed.



(** C9: whatever the store does, [loadStats] returns normally, with the
    empty statistics when there is no store, when [getItem] throws, when
    nothing is stored, or when the stored text does not parse; [saveStats]
    returns normally even when [setItem] throws, and does nothing more than
    that one call; in each of these cases, and whenever the stored text
    parses to statistics of the expected shape, [updateStatsWithSession]
    returns the updated statistics, again of that shape; when the text parses
    to a value that is no object or array, or to one whose [sessions] is
    truthy and no array, it throws; and [showResults] catches whatever it
    throws. *)
Theorem persistence_never_raises st :
  (∃ loaded st', loadStats st = (Return loaded, st') ∧
     (hasLocalStorage = false ∨
      (getItem STORAGE_KEY st).1 = Raise ∨
      (∃ raw, (getItem STORAGE_KEY st).1 = Return raw ∧
              (no_text raw = true ∨ JSON_parse (default [] raw) = Raise)) →
      loaded = empty_stats)) ∧
  (∀ s, ∃ st', saveStats s st = (Return tt, st') ∧
     (hasLocalStorage = false → st' = st) ∧
     (hasLocalStorage = true → st' = (setItem STORAGE_KEY (JSON_stringify s) st).2)) ∧
  (∀ results qc now,
     hasLocalStorage = false ∨
     (getItem STORAGE_KEY st).1 = Raise ∨
     (∃ raw, (getItem STORAGE_KEY st).1 = Return raw ∧
             (no_text raw = true ∨ JSON_parse (default [] raw) = Raise)) →
     ∃ stats' st', updateStatsWithSession results qc now st = (Return stats', st') ∧
       record_session empty_stats results qc now = Return stats') ∧
  (∀ results qc now stats st0,
     loadStats st = (Return stats, st0) → stats_ok stats = true →
     ∃ stats' st', updateStatsWithSession results qc now st = (Return stats', st') ∧
       record_session stats results qc now = Return stats' ∧
       stats_ok stats' = true) ∧
  (∀ results qc now stats st0,
     loadStats st = (Return stats, st0) →
     is_object stats = false ∨
     (truthy (get_named stats (lit "sessions")) = true ∧
      ∀ items props, get_named stats (lit "sessions") ≠ JArr items props) →
     updateStatsWithSession results qc now st = (Raise, st0)) ∧
  (∀ cfg now (u : UI.Ui),
     UI.storage u = st →
     (updateStatsWithSession (UI.results u) (UI.questionCount cfg) now st).1 = Raise →
     ∃ u', UI.showResults cfg now u = (None, u') ∧
           UI.engine u' = UI.engine u ∧ UI.count u' = UI.count u ∧
           UI.results u' = UI.results u ∧
           UI.resultScreen_display (UI.refs u') = lit "block").
Proof.
  assert (∀ loaded st',
    loadStats st = (Return loaded, st') →
    hasLocalStorage = false ∨
    (getItem STORAGE_KEY st).1 = Raise ∨
    (∃ raw, (getItem STORAGE_KEY st).1 = Return raw ∧
            (no_text raw = true ∨ JSON_parse (default [] raw) = Raise)) →
    loaded = empty_stats) as Hfail.
  { intros loaded st' Hload Hbad.
    destruct (loadStats_cases st) as (l & st1 & Hl & Hno & Hyes).
    assert (l = loaded) as -> by congruence.
    destruct hasLocalStorage eqn:E; [|by apply Hno].
    specialize (Hyes eq_refl).
    destruct Hbad as [?|[Hg|(raw & Hg & Hbad)]]; [done|..];
      destruct (getItem STORAGE_KEY st) as [[raw'|] st2]; simpl in Hg; try done.
    injection Hg as ->. destruct Hbad as [Hnt|Hp].
    - rewrite Hnt in Hyes. by destruct Hyes.
    - destruct (no_text raw); [by destruct Hyes|]. by rewrite Hp in Hyes. }
  assert (∀ results qc now stats st0,
    loadStats st = (Return stats, st0) → stats_ok stats = true →
    ∃ stats' st', updateStatsWithSession results qc now st = (Return stats', st') ∧
      record_session stats results qc now = Return stats' ∧
      stats_ok stats' = true) as Hok.
  { intros results qc now stats st0 Hload Hshape.
    destruct (record_session_ok stats results qc now Hshape) as (stats' & Hrec & Hshape').
    destruct (updateStatsWithSession_returns results qc now st stats st0 stats'
                Hload Hrec) as (st' & Hrun & _).
    by exists stats', st'. }
  split_and!.
  - destruct (loadStats_cases st) as (loaded & st' & Hload & _).
    exists loaded, st'. split; [done|]. exact (Hfail _ _ Hload).
  - intros s. apply saveStats_cases.
  - intros results qc now Hbad.
    destruct (loadStats_cases st) as (loaded & st0 & Hload & _).
    rewrite (Hfail _ _ Hload Hbad) in Hload.
    destruct (Hok results qc now _ _ Hload eq_refl) as (stats' & st' & ? & ? & _).
    by exists stats', st'.
  - exact Hok.
  - intros results qc now stats st0 Hload Hbad.
    apply (updateStatsWithSession_raises results qc now st stats st0 Hload).
    destruct Hbad as [Hprim|[Ht Hno]].
    + by apply record_session_primitive.
    + by apply record_session_bad_sessions.
  - intros cfg now u Hst Hraise. unfold UI.showResults. rewrite Hst.
    destruct (updateStatsWithSession (UI.results u) (UI.questionCount cfg) now st)
      as [[s|] st']; [done|]. by eexists.
Qed.

End persistence_proofs.

Section persistence_examples.
Import Persistence.



(** When the stored text is [null], which parses, [updateStatsWithSession]
    throws. *)
Lemma updateStatsWithSession_null :
  @updateStatsWithSession example_storage [] 5 1000 (Some (lit "null"))
  = (Raise, Some (lit "null")).
Proof. reflexivity. Qed.

(** So it does when the stored object holds a number under [sessions], a
    string under [perWord], or a number as the entry of a word that is
    answered. *)
Lemma updateStatsWithSession_misshapen :
  (@updateStatsWithSession faithful_storage [] 5 1000
     (Some (value_text (JObj [(lit "sessions", num_Z 5)])))).1 = Raise ∧
  (@updateStatsWithSession faithful_storage [answered "cat" true false] 5 1000
     (Some (value_text (JObj [(lit "perWord", JStr (lit "abc"))])))).1 = Raise ∧
  (@updateStatsWithSession faithful_storage [answered "cat" true false] 5 1000
     (Some (value_text (JObj [(lit "perWord", JObj [(lit "cat", num_Z 5)])])))).1
  = Raise.
Proof. split_and!; by vm_compute. Qed.

End persistence_examples.

(** * Further properties of the code *)

(** ** Longest common substring *)

Section lcs_more.
Context {A : Type} `{EqDecision A}.
Implicit Types a b s : list A.

Lemma common_substring_sym s a b : common_substring s a b → common_substring s b a.
Proof. by intros [? ?]. Qed.

Lemma substring_of_length s a : substring_of s a → length s ≤ length a.
Proof. intros (l1 & l2 & ->). rewrite !length_app. lia. Qed.

Lemma substring_of_elem s a x : substring_of s a → x ∈ s → x ∈ a.
Proof. intros (l1 & l2 & ->) Hx. rewrite !elem_of_app. auto. Qed.

Lemma singleton_substring a x : x ∈ a → substring_of [x] a.
Proof. intros (l1 & l2 & ->)%list_elem_of_split. by exists l1, l2. Qed.

(** X1: the value computed by the table of [longestCommonSubstringLength]
    is the length of a contiguous block that occurs in both strings, and no
    common contiguous block is longer. *)
Theorem longestCommonSubstringLength_correct a b :
  (∃ s a1 a2 b1 b2, a = a1 ++ s ++ a2 ∧ b = b1 ++ s ++ b2 ∧
                    length s = longestCommonSubstringLength a b) ∧
  (∀ s a1 a2 b1 b2, a = a1 ++ s ++ a2 → b = b1 ++ s ++ b2 →
                    length s ≤ longestCommonSubstringLength a b).
Proof.
  destruct (longestCommonSubstringLength_spec a b) as [(s & [Ha Hb] & Hl) Hmax].
  split.
  - destruct Ha as (a1 & a2 & Ha), Hb as (b1 & b2 & Hb). by exists s, a1, a2, b1, b2.
  - intros s' a1 a2 b1 b2 Ha' Hb'. apply Hmax. split; by eexists _, _.
Qed.

(** X2: [longestCommonSubstringLength] is symmetric, is at most the length
    of either argument, gives the whole length on equal arguments, and is 0
    exactly when the two strings share no element. *)
Theorem longestCommonSubstringLength_facts a b :
  longestCommonSubstringLength a b = longestCommonSubstringLength b a ∧
  longestCommonSubstringLength a b ≤ Nat.min (length a) (length b) ∧
  longestCommonSubstringLength a a = length a ∧
  (longestCommonSubstringLength a b = 0 ↔ ∀ x, x ∈ a → x ∉ b).
Proof.
  destruct (longestCommonSubstringLength_spec a b) as [(s & [Ha Hb] & Hl) Hmax].
  split_and!.
  - destruct (longestCommonSubstringLength_spec b a) as [(s' & Hs' & Hl') Hmax'].
    pose proof (Hmax _ (common_substring_sym _ _ _ Hs')).
    pose proof (Hmax' _ (common_substring_sym _ _ _ (conj Ha Hb))). lia.
  - apply substring_of_length in Ha, Hb. lia.
  - destruct (longestCommonSubstringLength_spec a a) as [(s' & [Ha' _] & Hl') Hmax'].
    apply substring_of_length in Ha'.
    assert (common_substring a a a) as Haa.
    { split; exists [], []; by rewrite app_nil_r. }
    specialize (Hmax' _ Haa). lia.
  - split.
    + intros Hz x Hxa Hxb.
      assert (common_substring [x] a b) as Hc
        by (split; by apply singleton_substring).
      specialize (Hmax _ Hc). simpl in Hmax. lia.
    + intros Hdis. destruct s as [|x s']; [by rewrite <- Hl|]. exfalso.
      apply (Hdis x).
      * eapply substring_of_elem; [exact Ha|left].
      * eapply substring_of_elem; [exact Hb|left].
Qed.
End lcs_more.

(** ** Random numbers and shuffling *)

Section random_more.
Context `{Host}.

(** X3: [getRandomInt(max)] draws one random number and returns an index
    below [max]; for [max = 0] it returns 0. *)
Theorem getRandomInt_range max s :
  (getRandomInt max s).1 < Nat.max 1 max ∧
  (getRandomInt max s).2 = set_randomCalls (S (randomCalls s)) s.
Proof.
  split; [|done]. simpl. destruct max as [|m].
  - unfold floor_times. rewrite Nat.mul_0_r, Nat.Div0.div_0_l. simpl. lia.
  - pose proof (floor_times_lt (Math_random (randomCalls s)) (S m)). lia.
Qed.

Lemma shuffle_from_state {A} i (l : list A) s :
  (shuffle_from i l s).2 = set_randomCalls (randomCalls s + i) s.
Proof.
  revert l s. induction i as [|i IH]; intros l s.
  - destruct s. simpl. by rewrite Nat.add_0_r.
  - change (shuffle_from (S i) l s)
      with (shuffle_from i
              (swap l (S i) (floor_times (Math_random (randomCalls s)) (S i + 1)))
              (set_randomCalls (S (randomCalls s)) s)).
    rewrite IH. destruct s. unfold set_randomCalls. simpl. f_equal. lia.
Qed.

(** X4: [shuffleArray] returns a rearrangement of its argument (same
    elements, same multiplicities), draws one random number per element but
    the first, and changes nothing else of the state. *)
Theorem shuffleArray_permutation {A} (l : list A) s :
  (shuffleArray l s).1 ≡ₚ l ∧
  length (shuffleArray l s).1 = length l ∧
  (shuffleArray l s).2 = set_randomCalls (randomCalls s + (length l - 1)) s.
Proof.
  destruct (shuffleArray_spec l s) as (l' & s' & Hrun & Hp & _).
  split_and!.
  - by rewrite Hrun.
  - rewrite Hrun. simpl. by rewrite Hp.
  - apply shuffle_from_state.
Qed.
End random_more.

(** ** The index *)

Lemma filter_seq_ascending (P : nat → Prop) `{∀ x, Decision (P x)} k :
  ascending (filter P (seq 0 k)).
Proof.
  induction k as [|k IH]; [by intros i j x y _ ?|].
  rewrite seq_S, filter_snoc_nat. case_decide; [|done].
  intros i j x y Hij Hi Hj.
  assert (∀ z, z ∈ filter P (seq 0 k) → z < k) as Hlt.
  { intros z [_ Hz]%list_elem_of_filter. apply elem_of_seq in Hz. lia. }
  destruct (decide (j < length (filter P (seq 0 k)))) as [Hj'|Hj'].
  - rewrite lookup_app_l in Hi, Hj by lia. exact (IH i j x y Hij Hi Hj).
  - rewrite lookup_app_r in Hj by lia.
    destruct (j - length (filter P (seq 0 k))) as [|n] eqn:E; [|by destruct n].
    injection Hj as <-. rewrite lookup_app_l in Hi by lia.
    apply Hlt. by eapply list_elem_of_lookup_2.
Qed.

(** X5: every bucket of the built index is a non-empty list of valid
    catalog indices in strictly increasing order (hence without repeats); a
    bucket of [byLen] holds exactly the indices whose answer text has the
    key's length, a bucket of [byPOS] exactly those whose part of speech is
    the key, and the empty string is never a key of [byPOS]. *)
Theorem build_buckets cfg :
  (∀ l arr, byLen (build cfg) !! l = Some arr →
     arr ≠ [] ∧ ascending arr ∧
     ∀ i, i ∈ arr ↔ i < length (words cfg) ∧ len_at cfg i = l) ∧
  (∀ p arr, byPOS (build cfg) !! p = Some arr →
     p ≠ [] ∧ arr ≠ [] ∧ ascending arr ∧
     ∀ i, i ∈ arr ↔ i < length (words cfg) ∧ pos_at cfg i = p).
Proof.
  split.
  - intros l arr Harr. pose proof Harr as Hraw.
    rewrite build_byLen in Hraw.
    assert (arr ≠ []) as Hne by (destruct (filter _ _); [done|by injection Hraw as <-]).
    apply nonempty_Some in Hraw as ->.
    split_and!; [done|apply filter_seq_ascending|].
    intros i. rewrite list_elem_of_filter, elem_of_seq. split; intros [? ?]; split; lia || done.
  - intros p arr Harr. pose proof Harr as Hraw.
    rewrite build_byPOS in Hraw. case_decide as Hp; [done|].
    assert (arr ≠ []) as Hne by (destruct (filter _ _); [done|by injection Hraw as <-]).
    apply nonempty_Some in Hraw as ->.
    split_and!; [done|done|apply filter_seq_ascending|].
    intros i. rewrite list_elem_of_filter, elem_of_seq. split; intros [? ?]; split; lia || done.
Qed.

(** ** The candidates, whatever the index holds *)

Section candidates_more.
Context `{Host}.
Implicit Types cfg : Config.

Lemma add_others_clean t arr c :
  NoDup c ∧ t ∉ c → NoDup (add_others t arr c) ∧ t ∉ add_others t arr c.
Proof.
  intros [Hnd Ht]. destruct (add_others_spec t arr c Hnd) as [Hnd' Hel].
  split; [done|]. rewrite Hel. tauto.
Qed.

Lemma candidate_set_clean cfg m t :
  NoDup (candidate_set cfg m t) ∧ t ∉ candidate_set cfg m t.
Proof.
  assert (NoDup (@nil nat) ∧ t ∉ @nil nat) as Hnil.
  { split; [apply NoDup_nil_2|apply not_elem_of_nil]. }
  assert (∀ c d, NoDup c ∧ t ∉ c →
                 NoDup (len_round cfg m t c d) ∧ t ∉ len_round cfg m t c d) as Hround.
  { intros c d Hc. unfold len_round. case_decide; [done|].
    destruct (byLen m !! _); [by apply add_others_clean|done]. }
  rewrite candidate_set_unfold. cbn zeta.
  set (c1 := if decide (pos_at cfg t = []) then [] else _).
  assert (NoDup c1 ∧ t ∉ c1) as Hc1.
  { subst c1. case_decide; [done|].
    destruct (byPOS m !! _); [by apply add_others_clean|done]. }
  simpl.
  pose proof (Hround _ (-2)%Z Hc1) as Ha. pose proof (Hround _ (-1)%Z Ha) as Hb.
  pose proof (Hround _ 0%Z Hb) as Hc. pose proof (Hround _ 1%Z Hc) as Hd.
  pose proof (Hround _ 2%Z Hd) as He.
  case_decide; [by apply add_others_clean|done].
Qed.

(** X6: whatever the index holds, [getCandidateDistractorIndices] returns
    at most 200 distinct indices and never the target; it builds the index
    only when it was not built yet and leaves a built one as it is; it does
    not touch [usedWords]; and when the candidate set has at most 200
    elements it returns that set in insertion order without drawing a random
    number. *)
Theorem getCandidateDistractorIndices_effect cfg t s :
  ∃ arr s', getCandidateDistractorIndices cfg t s = (arr, s') ∧
    NoDup arr ∧ (t ∉ arr) ∧ length arr ≤ 200 ∧
    indexBuilt s' = true ∧
    wordIndexMap s' = (if indexBuilt s then wordIndexMap s else build cfg) ∧
    usedWords s' = usedWords s ∧
    (length (candidate_set cfg (wordIndexMap s') t) ≤ 200 →
     arr = candidate_set cfg (wordIndexMap s') t ∧ randomCalls s' = randomCalls s).
Proof.
  unfold getCandidateDistractorIndices, bind, gets.
  set (s1 := ((if indexBuilt s then ret tt else buildIndex cfg) s).2).
  assert ((if indexBuilt s then ret tt else buildIndex cfg) s = (tt, s1)) as ->.
  { subst s1. by destruct (indexBuilt s). }
  assert (usedWords s1 = usedWords s ∧ indexBuilt s1 = true ∧
          wordIndexMap s1 = (if indexBuilt s then wordIndexMap s else build cfg) ∧
          randomCalls s1 = randomCalls s) as (Hu & Hb & Hm & Hr).
  { subst s1. by destruct (indexBuilt s) eqn:E. }
  destruct (candidate_set_clean cfg (wordIndexMap s1) t) as [Hnd Ht].
  case_decide as Hlen.
  - destruct (shuffleArray_spec (candidate_set cfg (wordIndexMap s1) t) s1)
      as (l' & s' & -> & Hl' & (Hu' & Hb' & Hm')).
    exists (take 200 l'), s'. split; [done|]. rewrite Hm'.
    split_and!; [| |rewrite length_take; lia|congruence..|lia].
    + apply (sublist_NoDup _ l'); first [apply sublist_take | by rewrite Hl'].
    + intros Hin. apply Ht. rewrite <- Hl'.
      eapply elem_of_sublist; [done|apply sublist_take].
  - exists (candidate_set cfg (wordIndexMap s1) t), s1. split; [done|].
    split_and!; [done|done|lia|done..].
Qed.
End candidates_more.

(** ** Questions *)

Section questions_more.
Context `{Host}.
Implicit Types cfg : Config.

(** X7: on an empty catalog [chooseWordIndex] returns [undefined] and
    still appends it to [usedWords], and [changeQuestion] throws; so does
    [createChoicesFor] for any index outside the catalog, without changing
    the state. *)
Theorem changeQuestion_empty_catalog cfg s :
  words cfg = [] →
  (∃ s', chooseWordIndex cfg s = (None, s') ∧
         changeQuestion cfg s = (None, s') ∧
         usedWords s' = usedWords s ++ [None] ∧
         randomCalls s' = S (randomCalls s)) ∧
  (∀ wordIndex, createChoicesFor cfg wordIndex s = (None, s)).
Proof.
  intros Hw. split.
  - unfold changeQuestion, bindE, lift, orThrow, chooseWordIndex, bind,
      resetUsedWordsIfNeeded, modify, gets, getRandomInt, random, ret.
    rewrite Hw. simpl. eexists. split; [done|]. split; [done|]. simpl.
    case_decide as Hl; simpl; [|done].
    apply nil_length_inv in Hl. by rewrite Hl.
  - intros wordIndex. unfold createChoicesFor, bindE, orThrow. by rewrite Hw.
Qed.

(** X8: on a non-empty catalog, for any value of [cfg.selection], a
    question has 1 + min(max(selection - 1, 0), size - 1) choices: at least
    one, and never more than the catalog has words; each choice is the answer
    text of a catalog entry. *)
Theorem changeQuestion_choice_count cfg s :
  words cfg ≠ [] → state_ok cfg s →
  ∃ q s', changeQuestion cfg s = (Some q, s') ∧
    length (choices q)
    = 1 + Nat.min (Z.to_nat (selection cfg - 1)) (length (words cfg) - 1) ∧
    1 ≤ length (choices q) ≤ length (words cfg) ∧
    (∀ c, c ∈ choices q → ∃ w, w ∈ words cfg ∧ c = answer (mode cfg) w).
Proof.
  intros Hne Hok.
  destruct (changeQuestion_spec cfg s Hne Hok)
    as (q & s' & t & D & Hrun & Hw & Hch & _ & (HndD & HinD & HlenD) & _).
  pose proof (lookup_lt_Some _ _ _ Hw) as Ht.
  exists q, s'. split; [done|].
  assert (length (choices q) = 1 + length D) as Hlen.
  { rewrite Hch. simpl. by rewrite length_fmap. }
  split_and!; [lia|lia|lia|].
  intros c Hc. rewrite Hch in Hc. apply elem_of_cons in Hc as [->|Hc].
  - exists (word q). split; [by eapply list_elem_of_lookup_2|done].
  - apply list_elem_of_fmap in Hc as (d & -> & Hd).
    destruct (HinD _ Hd) as [Hdn _].
    destruct (lookup_lt_is_Some_2 _ _ Hdn) as [w' Hw'].
    exists w'. split; [by eapply list_elem_of_lookup_2|by apply answer_of_lookup].
Qed.

(** X9: [restartQuiz] works from any state whose index is not stale,
    whatever [usedWords] holds: it asks a question and leaves [usedWords]
    with the index of that question alone. *)
Theorem restartQuiz_fresh_lap cfg s :
  words cfg ≠ [] → index_ok cfg s →
  ∃ q s' t, restartQuiz cfg s = (Some q, s') ∧
    words cfg !! t = Some (word q) ∧
    usedWords s' = [Some t] ∧
    currentQuestion s' = Some (word q, t) ∧
    correctAnswerIndex s' = correctIndex q ∧
    state_ok cfg s'.
Proof.
  intros Hne Hix. unfold restartQuiz, bindE, lift, modify.
  assert (state_ok cfg (set_usedWords [] s)) as Hok.
  { split; [exact Hix|]. split; simpl; [apply NoDup_nil_2|].
    intros u Hu. by apply elem_of_nil in Hu. }
  destruct (changeQuestion_spec cfg _ Hne Hok)
    as (q & s' & t & D & Hrun & Hw & _ & _ & _ & Hcur & Hci & Hu & Hok').
  simpl. rewrite Hrun. exists q, s', t. split_and!; [done..| |done|done|done].
  rewrite Hu. unfold after_reset. by case_decide.
Qed.

Lemma filter_all {A} (P : A → Prop) `{∀ x, Decision (P x)} (l : list A) :
  (∀ x, x ∈ l → P x) → filter P l = l.
Proof.
  induction l as [|x l IH]; intros Hall; [done|].
  rewrite filter_cons_True by (apply Hall; left).
  f_equal. apply IH. intros y Hy. apply Hall. by right.
Qed.

Lemma similarity_filter_acceptable cfg w (C0 : list nat) :
  (∀ i, i ∈ C0 → i < length (words cfg)) →
  similarity_filter cfg (answer (mode cfg) w) C0
  = Some (filter (λ i, acceptable cfg w i = true) C0).
Proof.
  intros Hin. unfold similarity_filter, acceptable.
  destruct (avoidSimilarDistractors cfg).
  - by apply filter_dissimilar_spec.
  - by rewrite filter_all.
Qed.

(** X10: when the pool of the target has at most 200 indices and at least
    [cfg.selection - 1] of them are acceptable (all of them when the
    similarity filter is off, those that pass its test when it is on), every
    distractor of the question is an acceptable member of the pool: the
    re-scan of the whole catalog is not used. *)
Theorem createChoicesFor_from_pool cfg t w s :
  words cfg !! t = Some w → index_ok cfg s →
  length (candidate_pool cfg t) ≤ 200 →
  Z.to_nat (selection cfg - 1)
  ≤ length (filter (λ i, acceptable cfg w i = true) (candidate_pool cfg t)) →
  ∃ q s' D, createChoicesFor cfg t s = (Some q, s') ∧
    choices q ≡ₚ answer (mode cfg) w :: (answer_of cfg <$> D) ∧
    NoDup D ∧ length D = Z.to_nat (selection cfg - 1) ∧
    ∀ d, d ∈ D → d ∈ candidate_pool cfg t ∧ acceptable cfg w d = true.
Proof.
  intros Hw Hok Hsmall Henough.
  unfold createChoicesFor, bindE, orThrow, lift, retE. rewrite Hw.
  destruct (getCandidateDistractorIndices_spec cfg t s Hok)
    as (arr & s1 & -> & _ & _ & _ & _ & Hperm & _).
  specialize (Hperm Hsmall).
  set (C0 := if decide (length arr = 0) then others cfg t else arr).
  assert (C0 ≡ₚ candidate_pool cfg t) as HC0.
  { subst C0. case_decide as Hz; [|done].
    apply nil_length_inv in Hz. subst arr.
    assert (candidate_pool cfg t = []) as Hnil
      by (apply Permutation_nil_r; by symmetry).
    rewrite Hnil. unfold candidate_pool in Hnil.
    case_decide as Hu; [by rewrite Hnil|congruence]. }
  assert (∀ d, d ∈ C0 → d < length (words cfg)) as Hin0.
  { intros d Hd. rewrite HC0 in Hd. by apply candidate_pool_elem in Hd as [? _]. }
  rewrite (similarity_filter_acceptable cfg w C0 Hin0).
  set (kept := filter (λ i, acceptable cfg w i = true) C0).
  assert (kept ≡ₚ filter (λ i, acceptable cfg w i = true) (candidate_pool cfg t))
    as Hkept by (subst kept; by rewrite HC0).
  destruct (shuffleArray_spec kept s1) as (Sh & s2 & -> & HSh & _).
  assert (∀ d, d ∈ Sh → d ∈ candidate_pool cfg t ∧ acceptable cfg w d = true) as HinS.
  { intros d Hd. rewrite HSh, Hkept in Hd.
    by apply list_elem_of_filter in Hd as [? ?]. }
  assert (NoDup Sh) as HndS.
  { rewrite HSh, Hkept. apply NoDup_filter, candidate_pool_NoDup. }
  rewrite take_wrong_spec
    by (intros d Hd; by apply HinS in Hd as [[? _]%candidate_pool_elem _]).
  simpl. rewrite Nat.sub_0_r. set (K := Z.to_nat (selection cfg - 1)) in *.
  assert (K ≤ length Sh) as HK.
  { rewrite HSh, Hkept. exact Henough. }
  rewrite length_fmap, length_take.
  rewrite decide_False by lia.
  destruct (shuffleArray_spec (answer (mode cfg) w :: (answer_of cfg <$> take K Sh)) s2)
    as (ch & s3 & -> & Hch & _).
  eexists _, s3, (take K Sh). split; [done|]. simpl. split_and!.
  - done.
  - apply (sublist_NoDup _ Sh); first [apply sublist_take | done].
  - rewrite length_take. lia.
  - intros d Hd. apply HinS. eapply elem_of_sublist; [done|apply sublist_take].
Qed.

(** X11: from a state that satisfies the invariant (index not stale,
    [usedWords] holding distinct catalog indices), any number of consecutive
    calls of [changeQuestion] succeed and keep the invariant; each question
    is about a catalog word and offers its answer; and from an empty
    [usedWords], as long as no more questions are asked than the catalog has
    words, no word is asked twice. *)
Theorem ask_many_never_throws cfg k s :
  words cfg ≠ [] → state_ok cfg s →
  ∃ qs s', ask_many cfg k s = (Some qs, s') ∧ length qs = k ∧
    state_ok cfg s' ∧
    (∀ q, q ∈ qs → word q ∈ words cfg ∧ answer (mode cfg) (word q) ∈ choices q) ∧
    (length (usedWords s) + k ≤ length (words cfg) →
     ∃ ts, usedWords s' = usedWords s ++ (Some <$> ts) ∧
           Forall2 (λ q t, words cfg !! t = Some (word q)) qs ts).
Proof.
  intros Hne. revert s. induction k as [|k IH]; intros s Hok.
  - exists [], s. split_and!; [done..| |].
    + intros q Hq. by apply elem_of_nil in Hq.
    + intros _. exists []. by rewrite app_nil_r.
  - simpl. unfold bindE at 1.
    destruct (changeQuestion_spec cfg s Hne Hok)
      as (q & s1 & t & D & -> & Hw & Hch & _ & _ & _ & _ & Hu1 & Hok1).
    destruct (IH s1 Hok1) as (qs & s' & Hrun & Hlen & Hok' & Hqs & Hlap).
    unfold bindE, retE. rewrite Hrun. exists (q :: qs), s'.
    split_and!; [done|simpl; lia|done| |].
    + intros q' [->|Hq']%elem_of_cons; [|by apply Hqs].
      split; [by eapply list_elem_of_lookup_2|]. rewrite Hch. left.
    + intros Hroom. unfold after_reset in Hu1. rewrite decide_False in Hu1 by lia.
      destruct Hlap as (ts & Hu' & Hts).
      { rewrite Hu1, length_app. simpl. lia. }
      exists (t :: ts). split; [|by constructor].
      rewrite Hu', Hu1, <- app_assoc. done.
Qed.

End questions_more.

Lemma changeQuestion_empty_catalog_witness :
  words {| words := []; mode := Mode0; selection := 4;
           avoidSimilarDistractors := false |} = [] ∧
  (∃ s', @chooseWordIndex example_host
           {| words := []; mode := Mode0; selection := 4;
              avoidSimilarDistractors := false |} initial_state = (None, s') ∧
         @changeQuestion example_host
           {| words := []; mode := Mode0; selection := 4;
              avoidSimilarDistractors := false |} initial_state = (None, s') ∧
         usedWords s' = usedWords initial_state ++ [None] ∧
         randomCalls s' = S (randomCalls initial_state)).
Proof.
  split; [reflexivity|].
  exact (proj1 (@changeQuestion_empty_catalog example_host
                  {| words := []; mode := Mode0; selection := 4;
                     avoidSimilarDistractors := false |} initial_state eq_refl)).
Defined.

Lemma changeQuestion_choice_count_witness :
  words homographs_cfg ≠ [] ∧ state_ok homographs_cfg initial_state ∧
  ∃ q s', @changeQuestion example_host homographs_cfg initial_state = (Some q, s') ∧
    length (choices q)
    = 1 + Nat.min (Z.to_nat (selection homographs_cfg - 1))
            (length (words homographs_cfg) - 1) ∧
    1 ≤ length (choices q) ≤ length (words homographs_cfg) ∧
    (∀ c, c ∈ choices q →
          ∃ w, w ∈ words homographs_cfg ∧ c = answer (mode homographs_cfg) w).
Proof.
  assert (words homographs_cfg ≠ []) as Hne by done.
  pose proof (state_ok_initial homographs_cfg) as Hok.
  split; [exact Hne|]. split; [exact Hok|].
  exact (@changeQuestion_choice_count example_host homographs_cfg initial_state Hne Hok).
Defined.

Lemma restartQuiz_fresh_lap_witness :
  words nouns_cfg ≠ [] ∧
  index_ok nouns_cfg (set_usedWords [None; Some 9] initial_state) ∧
  ∃ q s' t, @restartQuiz example_host nouns_cfg
              (set_usedWords [None; Some 9] initial_state) = (Some q, s') ∧
    words nouns_cfg !! t = Some (word q) ∧
    usedWords s' = [Some t] ∧
    currentQuestion s' = Some (word q, t) ∧
    correctAnswerIndex s' = correctIndex q ∧
    state_ok nouns_cfg s'.
Proof.
  assert (words nouns_cfg ≠ []) as Hne by done.
  assert (index_ok nouns_cfg (set_usedWords [None; Some 9] initial_state)) as Hix
    by (intros Hb; discriminate Hb).
  split; [exact Hne|]. split; [exact Hix|].
  exact (@restartQuiz_fresh_lap example_host nouns_cfg _ Hne Hix).
Defined.

Lemma createChoicesFor_from_pool_witness :
  words nouns_filtered_cfg !! 0 = Some (entry "cat" "neko" "noun") ∧
  index_ok nouns_filtered_cfg initial_state ∧
  length (candidate_pool nouns_filtered_cfg 0) ≤ 200 ∧
  Z.to_nat (selection nouns_filtered_cfg - 1)
  ≤ length (filter (λ i, @acceptable example_host nouns_filtered_cfg
                           (entry "cat" "neko" "noun") i = true)
              (candidate_pool nouns_filtered_cfg 0)) ∧
  ∃ q s' D, @createChoicesFor example_host nouns_filtered_cfg 0 initial_state
            = (Some q, s') ∧
    choices q ≡ₚ answer (mode nouns_filtered_cfg) (entry "cat" "neko" "noun")
                 :: (answer_of nouns_filtered_cfg <$> D) ∧
    NoDup D ∧ length D = Z.to_nat (selection nouns_filtered_cfg - 1) ∧
    ∀ d, d ∈ D → d ∈ candidate_pool nouns_filtered_cfg 0 ∧
                 @acceptable example_host nouns_filtered_cfg
                   (entry "cat" "neko" "noun") d = true.
Proof.
  assert (words nouns_filtered_cfg !! 0 = Some (entry "cat" "neko" "noun")) as Hw
    by reflexivity.
  assert (index_ok nouns_filtered_cfg initial_state) as Hix
    by (intros Hb; discriminate Hb).
  assert (length (candidate_pool nouns_filtered_cfg 0) ≤ 200) as Hsmall
    by (vm_compute; lia).
  assert (Z.to_nat (selection nouns_filtered_cfg - 1)
          ≤ length (filter (λ i, @acceptable example_host nouns_filtered_cfg
                                   (entry "cat" "neko" "noun") i = true)
                      (candidate_pool nouns_filtered_cfg 0))) as Henough
    by (vm_compute; lia).
  split; [exact Hw|]. split; [exact Hix|]. split; [exact Hsmall|].
  split; [exact Henough|].
  exact (@createChoicesFor_from_pool example_host nouns_filtered_cfg 0 _ initial_state
           Hw Hix Hsmall Henough).
Defined.

Lemma ask_many_never_throws_witness :
  words nouns_cfg ≠ [] ∧ state_ok nouns_cfg initial_state ∧
  ∃ qs s', @ask_many example_host nouns_cfg 6 initial_state = (Some qs, s') ∧
    length qs = 6 ∧ state_ok nouns_cfg s' ∧
    (∀ q, q ∈ qs → word q ∈ words nouns_cfg ∧
                   answer (mode nouns_cfg) (word q) ∈ choices q) ∧
    (length (usedWords initial_state) + 6 ≤ length (words nouns_cfg) →
     ∃ ts, usedWords s' = usedWords initial_state ++ (Some <$> ts) ∧
           Forall2 (λ q t, words nouns_cfg !! t = Some (word q)) qs ts).
Proof.
  assert (words nouns_cfg ≠ []) as Hne by done.
  pose proof (state_ok_initial nouns_cfg) as Hok.
  split; [exact Hne|]. split; [exact Hok|].
  exact (@ask_many_never_throws example_host nouns_cfg 6 initial_state Hne Hok).
Defined.

(** ** The normaliser, further *)

Lemma omap_cons_None {A B} (f : A → option B) x l :
  f x = None → omap f (x :: l) = omap f l.
Proof. intros Hx. simpl. by rewrite Hx. Qed.

Lemma omap_cons_Some {A B} (f : A → option B) x y l :
  f x = Some y → omap f (x :: l) = y :: omap f l.
Proof. intros Hx. simpl. by rewrite Hx. Qed.

Section normalizer_more.
Import Normalizer.

Lemma or_empty_idemp v : or_empty (or_empty v) = or_empty v.
Proof. unfold or_empty. destruct (truthy v) eqn:E; [by rewrite E|done]. Qed.

Lemma or_empty_string s : or_empty (VString s) = VString s.
Proof.
  unfold or_empty. simpl. case_bool_decide as Hs; simpl; [by subst|done].
Qed.

Lemma normalize_item_array e :
  length e = 4 → normalize_item (VArray e) = Some (or_empty <$> e).
Proof.
  intros Hl. destruct e as [|a [|b [|c [|d [|? ?]]]]]; simpl in Hl; try lia. done.
Qed.

Lemma normalizeWords_of_entries (es : list (list value)) :
  (∀ e, e ∈ es → length e = 4) →
  normalizeWords (VArray (VArray <$> es)) = (fmap (M := list) or_empty) <$> es.
Proof.
  intros Hes. rewrite normalizeWords_array.
  induction es as [|e es IH]; [done|].
  cbn [fmap list_fmap omap list_omap].
  rewrite normalize_item_array by (apply Hes; left).
  simpl. f_equal. apply IH. intros e' He'. apply Hes. by right.
Qed.

(** X12: the normaliser is the identity on a catalog that is already
    normalised: an array source made of the four-string arrays of a list of
    entries yields exactly these arrays, and reading them back as entries
    gives the list. *)
Theorem normalizeWords_normalised (ws : list WordEntry) :
  normalizeWords (VArray (VArray <$> (entry_value <$> ws))) = entry_value <$> ws ∧
  omap to_entry (normalizeWords (VArray (VArray <$> (entry_value <$> ws)))) = ws.
Proof.
  assert (normalizeWords (VArray (VArray <$> (entry_value <$> ws)))
          = entry_value <$> ws) as Hn.
  { rewrite normalizeWords_of_entries.
    - rewrite <- list_fmap_compose. apply list_fmap_ext. intros _ w _.
      unfold entry_value. simpl. by rewrite !or_empty_string.
    - by intros e (w & -> & _)%list_elem_of_fmap. }
  split; [done|]. rewrite Hn. clear Hn. induction ws as [|w ws IH]; [done|].
  cbn [fmap list_fmap omap list_omap].
  assert (to_entry (entry_value w) = Some w) as -> by (by destruct w).
  simpl. f_equal. exact IH.
Qed.

(** X13: normalising the output of the normaliser once more changes a
    field only by replacing a falsy one (the [undefined] headword of a
    key-less object) by the empty string, and a third pass changes nothing. *)
Theorem normalizeWords_again raw :
  normalizeWords (VArray (VArray <$> normalizeWords raw))
  = (fmap (M := list) or_empty) <$> normalizeWords raw ∧
  normalizeWords
    (VArray (VArray <$> normalizeWords (VArray (VArray <$> normalizeWords raw))))
  = normalizeWords (VArray (VArray <$> normalizeWords raw)).
Proof.
  assert (normalizeWords (VArray (VArray <$> normalizeWords raw))
          = (fmap (M := list) or_empty) <$> normalizeWords raw) as H1.
  { apply normalizeWords_of_entries. apply normalizeWords_four_fields. }
  split; [done|]. rewrite H1. rewrite normalizeWords_of_entries.
  - rewrite <- list_fmap_compose. apply list_fmap_ext. intros _ e _. simpl.
    rewrite <- list_fmap_compose. apply list_fmap_ext. intros _ v _. simpl.
    apply or_empty_idemp.
  - intros e (e0 & -> & He0)%list_elem_of_fmap. rewrite length_fmap.
    by eapply normalizeWords_four_fields.
Qed.

(** X14: over an array source the normaliser works item by item: the
    result for a concatenation is the concatenation of the results, an item
    that is not an array, an object or a string contributes nothing, and
    every other item contributes exactly one entry. *)
Theorem normalizeWords_itemwise items1 items2 :
  normalizeWords (VArray (items1 ++ items2))
  = normalizeWords (VArray items1) ++ normalizeWords (VArray items2) ∧
  length (normalizeWords (VArray items1))
  = length (filter (λ item, recognised item = true) items1) ∧
  (∀ item, recognised item = false →
     normalizeWords (VArray (items1 ++ item :: items2))
     = normalizeWords (VArray (items1 ++ items2))).
Proof.
  assert (∀ l1 l2, omap normalize_item (l1 ++ l2)
                   = omap normalize_item l1 ++ omap normalize_item l2) as Happ.
  { intros l1 l2. apply omap_app. }
  rewrite !normalizeWords_array. split_and!.
  - apply Happ.
  - induction items1 as [|x l IH]; [done|].
    destruct (recognised x) eqn:Hx.
    + rewrite filter_cons_True by done.
      assert (∃ e, normalize_item x = Some e) as [e He].
      { destruct x; try done; simpl; eauto. destruct (default _ _); eauto. }
      rewrite (omap_cons_Some _ _ _ _ He). simpl. by rewrite IH.
    + rewrite filter_cons_False by congruence.
      rewrite omap_cons_None by (by destruct x).
      exact IH.
  - intros item Hitem. rewrite !normalizeWords_array, !Happ. f_equal.
    apply omap_cons_None. by destruct item.
Qed.

(** X15: over a mapping source the normaliser yields one entry per key, in
    the order of the keys, with the key as headword; and in every entry of
    every result the meaning, hint and part-of-speech fields are truthy
    values or the empty string, never [undefined], [null], 0, [NaN] or
    [false]. *)
Theorem normalizeWords_fields raw props :
  (λ e, at_index e 0) <$> normalizeWords (VObject props)
  = VString <$> (fst <$> props) ∧
  (∀ e i, e ∈ normalizeWords raw → 1 ≤ i ≤ 3 →
          ∃ v, e !! i = Some v ∧ or_empty v = v).
Proof.
  split.
  - rewrite normalizeWords_mapping. rewrite <- !list_fmap_compose.
    by apply list_fmap_ext.
  - intros e i He Hi.
    assert (∀ a b c d : value, ∃ v,
              [a; or_empty b; or_empty c; or_empty d] !! i = Some v ∧ or_empty v = v)
      as Hshape.
    { intros a b c d. destruct i as [|[|[|[|?]]]]; try lia;
        (eexists; split; [done|apply or_empty_idemp]). }
    destruct raw; try (by apply elem_of_nil in He);
      try (unfold normalizeWords in He; simpl in He; case_match; by apply elem_of_nil in He).
    + rewrite normalizeWords_array in He.
      apply list_elem_of_omap in He as (item & _ & Hitem).
      destruct item; simpl in Hitem; try done; try (injection Hitem as <-).
      * rewrite <- (or_empty_string []). apply Hshape.
      * apply Hshape.
      * destruct (default _ _); injection Hitem as <-; apply Hshape.
    + rewrite normalizeWords_mapping in He.
      apply list_elem_of_fmap in He as (key & -> & _). apply Hshape.
Qed.
End normalizer_more.

(** ** The statistics, further *)

Section persistence_more.
Import Persistence.
Context `{LocalStorage}.

Lemma word_key_nonempty r : word_key r ≠ [].
Proof.
  unfold word_key. destruct (r_correctAnswer r) as [|a l]; [|done].
  destruct (r_question r); [|done]. by vm_compute.
Qed.

Lemma length_filter_cons {A} (P : A → Prop) `{∀ x, Decision (P x)} x l :
  length (filter P (x :: l)) = (if decide (P x) then 1 else 0) + length (filter P l).
Proof.
  case_decide; [by rewrite filter_cons_True|by rewrite filter_cons_False].
Qed.

Lemma hint_counts_spec r :
  hint_counts r = true ↔ r_hint r ≠ [] ∧ r_hintUsed r = true.
Proof.
  unfold hint_counts. rewrite !andb_true_iff, !bool_decide_eq_true. split.
  - by intros [[? ?] ?].
  - intros [Hne ?]. split_and!; [done| |done]. destruct (r_hint r); [done|simpl; lia].
Qed.

Lemma as_nat_num_nat n : as_nat (num_nat n) = Some n.
Proof.
  unfold as_nat, num_nat, num_Z, as_integer. rewrite decide_True by done. simpl.
  rewrite Z.mul_1_r, decide_True by lia. by rewrite Nat2Z.id.
Qed.

(** Adding 1 to a natural number below 2^53 gives the next one. *)
Lemma plus_one_nat v a v' :
  as_nat v = Some a → (Z.of_nat a < 2 ^ 53)%Z → plus_one v = Return v' →
  as_nat v' = Some (a + 1).
Proof.
  destruct v as [| | |[m e| | |]| | |]; try done. simpl.
  destruct (as_integer m e) as [z|] eqn:Hz; [|done]. simpl.
  case_decide as Hpos; [|done]. intros [= <-] Hlt. rewrite Z2Nat.id in Hlt by done.
  rewrite decide_True by lia. intros [= <-].
  change (as_nat (num_Z (z + 1)) = Some (Z.to_nat z + 1)).
  replace (z + 1)%Z with (Z.of_nat (Z.to_nat z + 1)) by lia. apply as_nat_num_nat.
Qed.

Lemma increment_inv name e e' :
  increment name e = Return e' →
  is_object e = true ∧ is_object e' = true ∧
  plus_one (get_named e name) = Return (get_named e' name) ∧
  ∀ name', name ≠ name' → get_named e' name' = get_named e name'.
Proof.
  unfold increment. destruct (plus_one (get_named e name)) as [a|]; [|done].
  cbn [and_then]. intros Hset.
  destruct (is_object e) eqn:Hobj; [|by rewrite set_named_primitive in Hset].
  destruct (set_named_object e name a Hobj) as (e2 & He2 & ? & ? & ?).
  assert (e2 = e') as -> by congruence. by subst a.
Qed.

(** What the three statements of the loop do to natural counters. *)
Lemma bump_counters r e e' :
  bump r e = Return e' →
  is_object e' = true ∧
  (∀ a, as_nat (get_named e (lit "attempts")) = Some a →
        (Z.of_nat (a + 1) ≤ 2 ^ 53)%Z →
        as_nat (get_named e' (lit "attempts")) = Some (a + 1)) ∧
  (∀ c, as_nat (get_named e (lit "correct")) = Some c →
        (Z.of_nat (c + if r_correct r then 1 else 0) ≤ 2 ^ 53)%Z →
        as_nat (get_named e' (lit "correct"))
        = Some (c + if r_correct r then 1 else 0)) ∧
  (∀ h, as_nat (get_named e (lit "hintUsed")) = Some h →
        (Z.of_nat (h + if hint_counts r then 1 else 0) ≤ 2 ^ 53)%Z →
        as_nat (get_named e' (lit "hintUsed"))
        = Some (h + if hint_counts r then 1 else 0)).
Proof.
  assert (lit "attempts" ≠ lit "correct") as Hac by (by vm_compute).
  assert (lit "attempts" ≠ lit "hintUsed") as Hah by (by vm_compute).
  assert (lit "correct" ≠ lit "hintUsed") as Hch by (by vm_compute).
  assert (lit "correct" ≠ lit "attempts") as Hca by (by vm_compute).
  assert (lit "hintUsed" ≠ lit "attempts") as Hha by (by vm_compute).
  assert (lit "hintUsed" ≠ lit "correct") as Hhc by (by vm_compute).
  unfold bump.
  destruct (increment (lit "attempts") e) as [e1|] eqn:H1; [|done]. cbn [and_then].
  apply increment_inv in H1 as (_ & Hobj1 & Hp1 & Ho1).
  destruct (if r_correct r then increment (lit "correct") e1 else Return e1)
    as [e2|] eqn:H2; [|done]. cbn [and_then]. intros H3.
  assert (is_object e2 = true ∧
          get_named e2 (lit "attempts") = get_named e1 (lit "attempts") ∧
          get_named e2 (lit "hintUsed") = get_named e1 (lit "hintUsed") ∧
          ∀ c, as_nat (get_named e1 (lit "correct")) = Some c →
               (Z.of_nat (c + if r_correct r then 1 else 0) ≤ 2 ^ 53)%Z →
               as_nat (get_named e2 (lit "correct"))
               = Some (c + if r_correct r then 1 else 0)) as (Hobj2 & Ha2 & Hh2 & Hc2).
  { destruct (r_correct r).
    - apply increment_inv in H2 as (_ & ? & Hp2 & Ho2).
      split_and!; [done|by apply Ho2|by apply Ho2|].
      intros c Hc Hlt. eapply plus_one_nat; [done|lia|done].
    - injection H2 as <-. split_and!; [done..|]. intros c -> _. by rewrite Nat.add_0_r. }
  assert (is_object e' = true ∧
          get_named e' (lit "attempts") = get_named e2 (lit "attempts") ∧
          get_named e' (lit "correct") = get_named e2 (lit "correct") ∧
          ∀ h, as_nat (get_named e2 (lit "hintUsed")) = Some h →
               (Z.of_nat (h + if hint_counts r then 1 else 0) ≤ 2 ^ 53)%Z →
               as_nat (get_named e' (lit "hintUsed"))
               = Some (h + if hint_counts r then 1 else 0)) as (Hobj3 & Ha3 & Hc3 & Hh3).
  { destruct (hint_counts r).
    - apply increment_inv in H3 as (_ & ? & Hp3 & Ho3).
      split_and!; [done|by apply Ho3|by apply Ho3|].
      intros h Hh Hlt. eapply plus_one_nat; [done|lia|done].
    - injection H3 as <-. split_and!; [done..|]. intros h -> _. by rewrite Nat.add_0_r. }
  split_and!; [done|..].
  - intros a Ha Hlt. rewrite Ha3, Ha2. eapply plus_one_nat; [done|lia|done].
  - intros c Hc Hlt. rewrite Hc3. apply Hc2; [|done]. by rewrite (Ho1 (lit "correct")).
  - intros h Hh Hlt. apply Hh3; [|done]. by rewrite Hh2, (Ho1 (lit "hintUsed")).
Qed.

(** One round of the loop on an object. *)
Lemma count_word_object props r perWord' :
  count_word (JObj props) r = Return perWord' →
  ∃ props', perWord' = JObj props' ∧
    (∀ key, key ≠ word_key r → assoc key props' = assoc key props) ∧
    (assoc (word_key r) props = None → inherits KObject (word_key r) = true →
     props' = props) ∧
    (assoc (word_key r) props ≠ None ∨ inherits KObject (word_key r) = false →
     ∃ e', assoc (word_key r) props' = Some e' ∧
           bump r (match assoc (word_key r) props with
                   | Some e => if truthy e then e else fresh_entry
                   | None => fresh_entry
                   end) = Return e').
Proof.
  unfold count_word. cbn [own kind_of].
  assert (and_then (assign (JObj props) (word_key r) fresh_entry) (λ p,
            and_then (bump r fresh_entry) (assign p (word_key r)))
          = Return perWord' →
          ∃ props', perWord' = JObj props' ∧
            (∀ key, key ≠ word_key r → assoc key props' = assoc key props) ∧
            ∃ e', assoc (word_key r) props' = Some e' ∧
                  bump r fresh_entry = Return e') as Hcreate.
  { cbn [assign and_then].
    destruct (bump r fresh_entry) as [e'|]; [|done]. cbn [and_then assign].
    intros [= <-]. eexists. split; [done|]. split.
    - intros key Hkey. by rewrite !assoc_put_ne.
    - exists e'. by rewrite assoc_put. }
  destruct (assoc (word_key r) props) as [e|] eqn:He.
  - destruct (truthy e) eqn:Ht.
    + destruct (bump r e) as [e'|]; [|done]. cbn [and_then assign].
      intros [= <-]. eexists. split; [done|]. split_and!.
      * intros key Hkey. by rewrite assoc_put_ne.
      * done.
      * intros _. exists e'. by rewrite assoc_put.
    + intros Hrun. destruct (Hcreate Hrun) as (props' & -> & Hother & Hnew).
      exists props'. split_and!; done.
  - destruct (inherits KObject (word_key r)) eqn:Hin.
    + intros [= <-]. exists props. split_and!; [done|done|done|]. by intros [?|?].
    + intros Hrun. destruct (Hcreate Hrun) as (props' & -> & Hother & Hnew).
      exists props'. split_and!; done.
Qed.

(** X16: the loop over the results, on a [perWord] that is an object. A
    word whose key the object does not hold but inherits (such as
    [constructor]) is not entered. For every other key, a counter that is a
    natural number, or that is absent with its entry, grows by the number of
    results that count for it, as long as it stays within 2^53: attempts by
    the results filed under the key, correct by the correct ones, hintUsed by
    those with a hint that was used. A result is filed under its correct
    answer, else its question text, else the key <unknown>, never under the
    empty key. *)
Theorem count_words_counters results : ∀ props perWord',
  count_words (JObj props) results = Return perWord' →
  ∃ props', perWord' = JObj props' ∧
    assoc [] props' = assoc [] props ∧
    ∀ key,
      (assoc key props = None → inherits KObject key = true →
       assoc key props' = None) ∧
      (assoc key props ≠ None ∨ inherits KObject key = false →
       (∀ a, counter_of (JObj props) key (lit "attempts") = Some a →
          (Z.of_nat (a + length (filter (λ r, word_key r = key) results))
           ≤ 2 ^ 53)%Z →
          counter_of perWord' key (lit "attempts")
          = Some (a + length (filter (λ r, word_key r = key) results))) ∧
       (∀ c, counter_of (JObj props) key (lit "correct") = Some c →
          (Z.of_nat (c + length (filter (λ r, word_key r = key ∧ r_correct r = true)
                                   results)) ≤ 2 ^ 53)%Z →
          counter_of perWord' key (lit "correct")
          = Some (c + length (filter (λ r, word_key r = key ∧ r_correct r = true)
                                results))) ∧
       (∀ h, counter_of (JObj props) key (lit "hintUsed") = Some h →
          (Z.of_nat (h + length (filter (λ r, word_key r = key ∧ r_hint r ≠ [] ∧
                                              r_hintUsed r = true) results))
           ≤ 2 ^ 53)%Z →
          counter_of perWord' key (lit "hintUsed")
          = Some (h + length (filter (λ r, word_key r = key ∧ r_hint r ≠ [] ∧
                                             r_hintUsed r = true) results)))).
Proof.
  induction results as [|r results IH]; intros props perWord'.
  - simpl. intros [= <-]. exists props. split_and!; [done..|]. intros key.
    split; [done|]. intros _. split_and!; intros n ->; by rewrite Nat.add_0_r.
  - cbn [count_words]. destruct (count_word (JObj props) r) as [p1|] eqn:Hstep; [|done].
    cbn [and_then]. intros Hrest.
    destruct (count_word_object props r p1 Hstep)
      as (props1 & -> & Hother & Hkept & Hcounted).
    destruct (IH props1 perWord' Hrest) as (props' & -> & Hempty & Hkeys).
    exists props'. split; [done|]. split.
    { rewrite Hempty. apply Hother. pose proof (word_key_nonempty r). done. }
    intros key. destruct (Hkeys key) as (Hkept' & Hcounted').
    destruct (decide (word_key r = key)) as [Hk|Hk].
    2:{ (* a result for another word *)
      assert (assoc key props1 = assoc key props) as Hsame by (by apply Hother).
      assert (∀ name, counter_of (JObj props1) key name
                      = counter_of (JObj props) key name) as Hcnt
        by (intros name; unfold counter_of; cbn [own]; by rewrite Hsame).
      rewrite !length_filter_cons.
      rewrite !(decide_False (P := word_key r = key)) by done.
      rewrite !(decide_False (P := word_key r = key ∧ _)) by (by intros [? _]).
      rewrite Hsame in Hkept', Hcounted'. split; [done|]. intros Hc.
      destruct (Hcounted' Hc) as (Ha & Hb & Hh).
      split_and!; intros n Hn Hle; [apply Ha|apply Hb|apply Hh]; by rewrite ?Hcnt. }
    subst key. split.
    { intros Hnone Hin. apply Hkept'; [|done]. by rewrite (Hkept Hnone Hin). }
    intros Hc. destruct (Hcounted Hc) as (e' & He' & Hbump).
    apply bump_counters in Hbump as (Hobj' & Ha' & Hc' & Hh').
    assert (truthy e' = true) as Ht' by (by destruct e').
    assert (∀ name n,
              counter_of (JObj props) (word_key r) name = Some n →
              name = lit "attempts" ∨ name = lit "correct" ∨ name = lit "hintUsed" →
              as_nat (get_named (match assoc (word_key r) props with
                                 | Some e => if truthy e then e else fresh_entry
                                 | None => fresh_entry
                                 end) name) = Some n) as Hstart.
    { intros name n. unfold counter_of. cbn [own].
      destruct (assoc (word_key r) props) as [e|]; [destruct (truthy e); [done|]|];
        intros [= <-] [-> | [-> | ->] ]; done. }
    assert (∀ name, counter_of (JObj props1) (word_key r) name
                    = as_nat (get_named e' name)) as Hnow
      by (intros name; unfold counter_of; cbn [own]; by rewrite He', Ht').
    assert (assoc (word_key r) props1 ≠ None ∨ inherits KObject (word_key r) = false)
      as Hc1 by (left; by rewrite He').
    destruct (Hcounted' Hc1) as (Ha & Hb & Hh).
    rewrite !length_filter_cons.
    rewrite !(decide_True (P := word_key r = word_key r)) by done.
    split_and!.
    + intros a Hcount Hle.
      replace (a + (1 + length (filter (λ r0, word_key r0 = word_key r) results)))
        with (a + 1 + length (filter (λ r0, word_key r0 = word_key r) results)) in *
        by lia.
      apply Ha; [|done]. rewrite Hnow. apply Ha'; [by apply Hstart; auto|lia].
    + intros c Hcount Hle.
      assert ((if decide (word_key r = word_key r ∧ r_correct r = true) then 1 else 0)
              = if r_correct r then 1 else 0) as Hd.
      { destruct (r_correct r); [by rewrite decide_True|].
        by rewrite decide_False by (by intros [_ ?]). }
      rewrite Hd in *. rewrite Nat.add_assoc in *.
      apply Hb; [|done]. rewrite Hnow. apply Hc'; [by apply Hstart; auto|lia].
    + intros h Hcount Hle.
      assert ((if decide (word_key r = word_key r ∧ r_hint r ≠ [] ∧
                          r_hintUsed r = true) then 1 else 0)
              = if hint_counts r then 1 else 0) as Hd.
      { destruct (hint_counts r) eqn:Hhc.
        - apply hint_counts_spec in Hhc. by rewrite decide_True.
        - rewrite decide_False; [done|]. intros [_ Hx].
          apply hint_counts_spec in Hx. congruence. }
      rewrite Hd in *. rewrite Nat.add_assoc in *.
      apply Hh; [|done]. rewrite Hnow. apply Hh'; [by apply Hstart; auto|lia].
Qed.
End persistence_more.

Section store_more.
Import Persistence.
Context `{LocalStorage}.

Lemma loadStats_resets_corrupt_aux st text st1 v :
  hasLocalStorage = true →
  getItem STORAGE_KEY st = (Return (Some text), st1) →
  text ≠ [] → JSON_parse text = Return v → loadStats st = (Return v, st1).
Proof.
  intros Hls Hget Hne Hp. unfold loadStats, try_catch, andThen, pure, throw.
  rewrite Hls. simpl. rewrite Hget. destruct text as [|c t]; [done|]. simpl.
  by rewrite Hp.
Qed.

(** X17: when the stored text cannot be read ([getItem] throws, or the
    text does not parse), [loadStats] answers with the empty statistics and
    calls [removeItem] on the key, so the store is left as that call leaves
    it; when nothing is stored, or the text parses, the store is left as
    [getItem] leaves it. *)
Theorem loadStats_resets_corrupt st :
  hasLocalStorage = true →
  (∀ st1, getItem STORAGE_KEY st = (Raise, st1) →
     loadStats st = (Return empty_stats, (removeItem STORAGE_KEY st1).2)) ∧
  (∀ text st1, getItem STORAGE_KEY st = (Return (Some text), st1) →
     text ≠ [] → JSON_parse text = Raise →
     loadStats st = (Return empty_stats, (removeItem STORAGE_KEY st1).2)) ∧
  (∀ raw st1, getItem STORAGE_KEY st = (Return raw, st1) →
     no_text raw = true → loadStats st = (Return empty_stats, st1)) ∧
  (∀ text st1 v, getItem STORAGE_KEY st = (Return (Some text), st1) →
     text ≠ [] → JSON_parse text = Return v → loadStats st = (Return v, st1)).
Proof.
  intros Hls. unfold loadStats, try_catch, andThen, pure, throw. rewrite Hls. simpl.
  split_and!.
  - intros st1 ->. by destruct (removeItem STORAGE_KEY st1) as [[[]|] st2].
  - intros text st1 -> Hne Hp. destruct text as [|c t]; [done|]. simpl.
    rewrite Hp. by destruct (removeItem STORAGE_KEY st1) as [[[]|] st2].
  - intros raw st1 -> Hnt. by rewrite Hnt.
  - intros text st1 v -> Hne Hp. destruct text as [|c t]; [done|]. simpl.
    by rewrite Hp.
Qed.

Lemma exceeds_as_integer n m e z :
  as_integer m e = Some z → exceeds n (Finite m e) = bool_decide (z < Z.of_nat n)%Z.
Proof.
  unfold as_integer, exceeds. destruct (decide (0 ≤ e)%Z) as [He|He].
  - by intros [= <-].
  - case_decide as Hmod; [|done]. intros [= <-].
    assert (0 < 2 ^ (- e))%Z as Hpos by (apply Z.pow_pos_nonneg; lia).
    apply bool_decide_ext.
    apply Z.div_exact in Hmod; [|lia].
    rewrite Hmod at 1. rewrite (Z.mul_comm (2 ^ (- e))).
    symmetry. by apply Z.mul_lt_mono_pos_r.
Qed.

(** The high score as a natural number after [record_session]. *)
Lemma highScore_nat_step stats stats' h correct x :
  highScore_nat stats = Some h →
  ToNumber (get_named stats (lit "highScore")) = Return x →
  get_named stats' (lit "highScore")
  = (if truthy (get_named stats (lit "highScore")) && negb (exceeds correct x)
     then get_named stats (lit "highScore") else num_nat correct) →
  highScore_nat stats' = Some (Nat.max h correct).
Proof.
  unfold highScore_nat. intros Hh Hx Hnew.
  assert (∀ c, (if truthy (num_nat c) then as_nat (num_nat c) else Some 0) = Some c)
    as Hnum.
  { intros c. rewrite as_nat_num_nat. destruct (truthy (num_nat c)) eqn:Ht; [done|].
    unfold num_nat, num_Z in Ht. simpl in Ht. apply bool_decide_eq_false in Ht.
    f_equal. lia. }
  destruct (truthy (get_named stats (lit "highScore"))) eqn:Ht.
  - destruct (get_named stats (lit "highScore")) as [| | |[m e| | |]| | |] eqn:Hhs;
      try done.
    simpl in Hh, Hx. injection Hx as <-.
    destruct (as_integer m e) as [z|] eqn:Hz; [|done]. simpl in Hh.
    case_decide as Hpos; [|done]. injection Hh as <-.
    rewrite (exceeds_as_integer _ _ _ _ Hz) in Hnew. simpl in Hnew.
    case_bool_decide as Hlt; simpl in Hnew; rewrite Hnew.
    + rewrite Hnum. f_equal. lia.
    + rewrite Ht. simpl. rewrite Hz. simpl. rewrite decide_True by done.
      f_equal. lia.
  - injection Hh as <-. simpl in Hnew. rewrite Hnew, Hnum. done.
Qed.

(** X18: with statistics of the expected shape whose high score is a
    natural number or falsy, a store that accepts the text of the first
    session's statistics and hands it back, and a codec that reads this text
    back, recording two sessions in a row yields the stored statistics with
    both session records appended in order and, as high score, the largest
    of the stored one and the two scores. *)
Theorem updateStatsWithSession_twice st stats st0 st1 st2 r1 r2 qc now1 now2 stats1 h :
  hasLocalStorage = true →
  loadStats st = (Return stats, st0) →
  stats_ok stats = true →
  highScore_nat stats = Some h →
  record_session stats r1 qc now1 = Return stats1 →
  setItem STORAGE_KEY (JSON_stringify stats1) st0 = (Return tt, st1) →
  getItem STORAGE_KEY st1 = (Return (Some (JSON_stringify stats1)), st2) →
  JSON_stringify stats1 ≠ [] →
  JSON_parse (JSON_stringify stats1) = Return stats1 →
  updateStatsWithSession r1 qc now1 st = (Return stats1, st1) ∧
  ∃ stats2 st', updateStatsWithSession r2 qc now2 st1 = (Return stats2, st') ∧
    session_list stats2
    = session_list stats
      ++ [session_record now1 (length (filter (λ r, r_correct r = true) r1)) qc;
          session_record now2 (length (filter (λ r, r_correct r = true) r2)) qc] ∧
    highScore_nat stats2
    = Some (Nat.max (Nat.max h (length (filter (λ r, r_correct r = true) r1)))
              (length (filter (λ r, r_correct r = true) r2))).
Proof.
  intros Hls Hload Hok Hh Hrec Hset Hget Hne Hparse.
  assert (updateStatsWithSession r1 qc now1 st = (Return stats1, st1)) as H1.
  { unfold updateStatsWithSession, andThen. rewrite Hload, Hrec.
    unfold saveStats, try_catch, pure. rewrite Hls. simpl. by rewrite Hset. }
  split; [exact H1|].
  pose proof (loadStats_resets_corrupt_aux st1 _ st2 _ Hls Hget Hne Hparse) as Hload2.
  assert (∀ s results now, stats_ok s = true →
            ∃ s' x, record_session s results qc now = Return s' ∧ stats_ok s' = true ∧
              ToNumber (get_named s (lit "highScore")) = Return x ∧
              session_list s'
              = session_list s
                ++ [session_record now
                      (length (filter (λ r, r_correct r = true) results)) qc] ∧
              get_named s' (lit "highScore")
              = (if truthy (get_named s (lit "highScore"))
                    && negb (exceeds (length (filter (λ r, r_correct r = true)
                                                results)) x)
                 then get_named s (lit "highScore")
                 else num_nat (length (filter (λ r, r_correct r = true) results))))
    as Hstep.
  { intros s results now Hs.
    destruct (record_session_ok s results qc now Hs) as (s' & Hrun & Hs').
    unfold stats_ok in Hs.
    apply andb_true_iff in Hs as [[[Hobj Hss]%andb_true_iff Hp]%andb_true_iff Hhs].
    destruct (ToNumber_addable _ Hhs) as (x & Hx).
    destruct (perWord_ok_counts _ results Hp) as (perWord & Hcount & _).
    destruct (record_session_scores s results qc now x perWord Hobj Hss Hx Hcount)
      as (s2 & Hrun2 & _ & _ & Hlist & _ & Hnew).
    assert (s2 = s') as -> by congruence. by exists s', x. }
  destruct (Hstep stats r1 now1 Hok) as (s1 & x1 & Hrun1 & Hok1 & Hx1 & Hlist1 & Hnew1).
  assert (s1 = stats1) as -> by congruence.
  destruct (Hstep stats1 r2 now2 Hok1) as (stats2 & x2 & Hrun2 & Hok2 & Hx2 & Hlist2 & Hnew2).
  destruct (updateStatsWithSession_returns r2 qc now2 st1 stats1 st2 stats2 Hload2 Hrun2)
    as (st' & Hupd & _).
  exists stats2, st'. split_and!; [done| |].
  - by rewrite Hlist2, Hlist1, <- app_assoc.
  - eapply highScore_nat_step; [|exact Hx2|exact Hnew2].
    by eapply highScore_nat_step.
Qed.
End store_more.

Section store_examples.
Import Persistence.

Lemma text_pos_text p : text_pos (pos_text p) = Some p.
Proof. induction p as [p IH|p IH|]; simpl; [by rewrite IH..|done]. Qed.

Lemma of_tree_to_tree : ∀ v, of_tree (to_tree v) = Some v.
Proof.
  fix IH 1. intros [| | | | |items props|props]; try reflexivity.
  - cbn [to_tree of_tree].
    assert (mapM of_tree (to_tree <$> items) = Some items) as ->.
    { clear props. revert items. fix IHl 1. intros [|x l]; [reflexivity|].
      cbn. rewrite IH. cbn. rewrite IHl. reflexivity. }
    cbn.
    match goal with |- (?m ≫= _) = _ => assert (m = Some props) as -> end.
    { revert props. fix IHl 1. intros [|[k x] l]; [reflexivity|].
      cbn. rewrite IH. cbn. rewrite IHl. reflexivity. }
    reflexivity.
  - cbn [to_tree of_tree].
    match goal with |- (?m ≫= _) = _ => assert (m = Some props) as -> end.
    { revert props. fix IHl 1. intros [|[k x] l]; [reflexivity|].
      cbn. rewrite IH. cbn. rewrite IHl. reflexivity. }
    reflexivity.
Qed.

(** The codec of the faithful store reads back what it writes. *)
Lemma faithful_storage_round_trip v :
  @JSON_parse faithful_storage (@JSON_stringify faithful_storage v) = Return v.
Proof.
  simpl. unfold text_value, value_text. rewrite text_pos_text. simpl.
  rewrite decode_encode. simpl. by rewrite of_tree_to_tree.
Qed.

Lemma count_words_counters_witness :
  ∃ perWord',
    @count_words example_storage (JObj [])
      [answered "cat" true true; answered "constructor" false false;
       answered "cat" false true] = Return perWord' ∧
    own perWord' (lit "constructor") = None ∧
    counter_of perWord' (lit "cat") (lit "attempts") = Some 2 ∧
    counter_of perWord' (lit "cat") (lit "correct") = Some 1 ∧
    counter_of perWord' (lit "cat") (lit "hintUsed") = Some 2.
Proof.
  destruct (@count_words example_storage (JObj [])
              [answered "cat" true true; answered "constructor" false false;
               answered "cat" false true]) as [perWord'|] eqn:Hrun;
    [|vm_compute in Hrun; discriminate Hrun].
  exists perWord'. split; [reflexivity|].
  destruct (@count_words_counters example_storage _ _ _ Hrun)
    as (props' & -> & _ & Hkeys).
  destruct (Hkeys (lit "constructor")) as [Hkept _].
  destruct (Hkeys (lit "cat")) as [_ Hcounted].
  destruct Hcounted as (Ha & Hc & Hh); [by right|].
  split; [exact (Hkept eq_refl eq_refl)|].
  split; [apply (Ha 0 eq_refl); by vm_compute|].
  split; [apply (Hc 0 eq_refl); by vm_compute|].
  apply (Hh 0 eq_refl); by vm_compute.
Defined.

Lemma loadStats_resets_corrupt_witness :
  @hasLocalStorage example_storage = true ∧
  @loadStats example_storage (Some (lit "xyz")) = (Return empty_stats, None).
Proof.
  assert (@hasLocalStorage example_storage = true) as Hls by reflexivity.
  split; [exact Hls|].
  apply (proj1 (proj2 (@loadStats_resets_corrupt example_storage
                         (Some (lit "xyz")) Hls)) (lit "xyz") (Some (lit "xyz")));
    [reflexivity|discriminate|reflexivity].
Defined.

Lemma updateStatsWithSession_twice_witness :
  @hasLocalStorage faithful_storage = true ∧
  @loadStats faithful_storage None = (Return empty_stats, None) ∧
  stats_ok empty_stats = true ∧
  highScore_nat empty_stats = Some 0 ∧
  ∃ stats1,
    @record_session faithful_storage empty_stats [answered "cat" true false] 5 1000
    = Return stats1 ∧
    @JSON_parse faithful_storage (@JSON_stringify faithful_storage stats1)
    = Return stats1 ∧
    ∃ stats2 st',
      @updateStatsWithSession faithful_storage [] 5 2000
        (Some (@JSON_stringify faithful_storage stats1))
      = (Return stats2, st') ∧
      session_list stats2 = [session_record 1000 1 5; session_record 2000 0 5] ∧
      highScore_nat stats2 = Some 1.
Proof.
  assert (@hasLocalStorage faithful_storage = true) as Hls by reflexivity.
  assert (@loadStats faithful_storage None = (Return empty_stats, None))
    as Hload by reflexivity.
  assert (stats_ok empty_stats = true) as Hok by reflexivity.
  assert (highScore_nat empty_stats = Some 0) as Hh by reflexivity.
  split; [exact Hls|]. split; [exact Hload|]. split; [exact Hok|]. split; [exact Hh|].
  eexists. split; [vm_compute; reflexivity|].
  match goal with |- JSON_parse (JSON_stringify ?v) = _ ∧ _ =>
    pose proof (faithful_storage_round_trip v) as Hparse;
    assert (@record_session faithful_storage empty_stats [answered "cat" true false]
              5 1000 = Return v) as Hrec by (vm_compute; reflexivity)
  end.
  split; [exact Hparse|].
  exact (proj2 (@updateStatsWithSession_twice faithful_storage None empty_stats None
                  _ _ [answered "cat" true false] [] 5 1000 2000 _ 0
                  Hls Hload Hok Hh Hrec eq_refl eq_refl ltac:(discriminate) Hparse)).
Defined.
End store_examples.

(** ** The page and the session *)

Section page_more.
Import UI.
Context `{Host} `{Persistence.LocalStorage} `{Window}.

Lemma render_lookup choices (r : Refs) i :
  selectionButtons (renderChoices choices r) !! i
  = render_button choices i <$> selectionButtons r !! i.
Proof. unfold renderChoices. simpl. apply list_lookup_imap. Qed.

(** X19: [renderChoices] keeps the number of buttons; the button at a
    position that has a choice shows that choice, is displayed and enabled;
    every button beyond the choices is hidden; so the displayed texts are the
    choices in order, cut to the number of buttons when there are fewer
    buttons than choices. *)
Theorem renderChoices_buttons choices (r : Refs) :
  length (selectionButtons (renderChoices choices r)) = length (selectionButtons r) ∧
  (∀ i b, selectionButtons (renderChoices choices r) !! i = Some b →
     (∀ c, choices !! i = Some c →
        textContent b = c ∧ display b = lit "flex" ∧ disabled b = false) ∧
     (choices !! i = None → display b = lit "none")) ∧
  textContent <$> take (length choices) (selectionButtons (renderChoices choices r))
  = take (length (selectionButtons r)) choices.
Proof.
  split_and!.
  - unfold renderChoices. simpl. apply length_imap.
  - intros i b Hb. rewrite render_lookup in Hb.
    destruct (selectionButtons r !! i) as [b0|]; [|done]. injection Hb as <-.
    unfold render_button. split.
    + intros c ->. done.
    + intros ->. done.
  - apply list_eq. intros i. rewrite list_lookup_fmap.
    destruct (decide (i < length choices)) as [Hc|Hc].
    + rewrite lookup_take_lt by done. rewrite render_lookup.
      destruct (lookup_lt_is_Some_2 _ _ Hc) as [c Hci].
      destruct (selectionButtons r !! i) as [b0|] eqn:Hb; simpl.
      * apply lookup_lt_Some in Hb. rewrite lookup_take_lt by done.
        unfold render_button. by rewrite Hci.
      * apply lookup_ge_None in Hb. by rewrite lookup_take_ge.
    + rewrite lookup_take_ge by lia. simpl. symmetry.
      apply lookup_ge_None. rewrite length_take. lia.
Qed.

Lemma with_focusedIndex_same (u : Ui) x :
  focusedIndex u = x → with_focusedIndex x u = u.
Proof. intros <-. by destruct u. Qed.

Lemma with_focusedIndex_twice (u : Ui) x y :
  with_focusedIndex y (with_focusedIndex x u) = with_focusedIndex y u.
Proof. done. Qed.

Lemma focus_button_in_range (u : Ui) z :
  focusedIndex u = Num z →
  (0 ≤ z < Z.of_nat (length (selectionButtons (refs u))))%Z →
  focus_button u = (Some tt, u).
Proof.
  intros Hf Hz. unfold focus_button. rewrite Hf. simpl.
  rewrite decide_True by lia.
  destruct (lookup_lt_is_Some_2 (selectionButtons (refs u)) (Z.to_nat z)) as [b ->];
    [lia|done].
Qed.

(** X20: with the focus index on one of the buttons, the right and down
    arrows move it to the next button and the left and up arrows to the
    previous one, wrapping around at the ends; nothing else changes; and an
    arrow followed by the opposite arrow restores the state. *)
Theorem handleKeydown_arrows cfg (u : Ui) f active :
  focusedIndex u = Num f →
  (0 ≤ f < Z.of_nat (length (selectionButtons (refs u))))%Z →
  handleKeydown cfg ArrowRight active u
  = (Some tt, with_focusedIndex
                (Num ((f + 1) `mod` Z.of_nat (length (selectionButtons (refs u))))) u) ∧
  handleKeydown cfg ArrowDown active u = handleKeydown cfg ArrowRight active u ∧
  handleKeydown cfg ArrowLeft active u
  = (Some tt, with_focusedIndex
                (Num ((f - 1) `mod` Z.of_nat (length (selectionButtons (refs u))))) u) ∧
  handleKeydown cfg ArrowUp active u = handleKeydown cfg ArrowLeft active u ∧
  handleKeydown cfg ArrowLeft active (handleKeydown cfg ArrowRight active u).2
  = (Some tt, u) ∧
  handleKeydown cfg ArrowRight active (handleKeydown cfg ArrowLeft active u).2
  = (Some tt, u).
Proof.
  intros Hf Hz. set (len := length (selectionButtons (refs u))) in *.
  assert (len ≠ 0) as Hlen by lia.
  assert (∀ z, (0 ≤ z)%Z →
            remainder (Num z) len = Num (z `mod` Z.of_nat len)) as Hrem.
  { intros z Hz0. unfold remainder. rewrite decide_False by done.
    f_equal. apply Z.rem_mod_nonneg; lia. }
  assert (∀ z, (0 ≤ z `mod` Z.of_nat len < Z.of_nat len)%Z) as Hmod.
  { intros z. apply Z.mod_pos_bound. lia. }
  assert (∀ (u0 : Ui) g, refs u0 = refs u → focusedIndex u0 = Num g → (0 ≤ g)%Z →
            handleKeydown cfg ArrowRight active u0
            = (Some tt, with_focusedIndex (Num ((g + 1) `mod` Z.of_nat len)) u0))
    as HR.
  { intros u0 g Hr Hg Hg0. unfold handleKeydown. rewrite Hr, Hg. fold len.
    cbn [plus]. rewrite Hrem by lia.
    apply (focus_button_in_range _ ((g + 1) `mod` Z.of_nat len)); [done|].
    cbn [refs with_focusedIndex]. rewrite Hr. apply Hmod. }
  assert (∀ (u0 : Ui) g, refs u0 = refs u → focusedIndex u0 = Num g → (0 ≤ g)%Z →
            handleKeydown cfg ArrowLeft active u0
            = (Some tt, with_focusedIndex (Num ((g - 1) `mod` Z.of_nat len)) u0))
    as HL.
  { intros u0 g Hr Hg Hg0. unfold handleKeydown. rewrite Hr, Hg. fold len.
    cbn [plus]. rewrite Hrem by lia.
    replace ((g + -1 + Z.of_nat len) `mod` Z.of_nat len)%Z
      with ((g - 1) `mod` Z.of_nat len)%Z.
    2:{ replace (g + -1 + Z.of_nat len)%Z with (g - 1 + 1 * Z.of_nat len)%Z by lia.
        by rewrite Z.mod_add by lia. }
    apply (focus_button_in_range _ ((g - 1) `mod` Z.of_nat len)); [done|].
    cbn [refs with_focusedIndex]. rewrite Hr. apply Hmod. }
  split_and!; [by apply HR; [|  |lia]|done|by apply HL; [| |lia]|done|..].
  - rewrite (HR u f) by (done || lia). cbn [snd].
    rewrite (HL _ ((f + 1) `mod` Z.of_nat len)%Z); [|done|done|apply Hmod].
    rewrite with_focusedIndex_twice. f_equal.
    apply with_focusedIndex_same. rewrite Hf. f_equal. symmetry.
    rewrite <- Zminus_mod_idemp_l, Z.mod_mod by lia.
    rewrite Zminus_mod_idemp_l. replace (f + 1 - 1)%Z with f by lia.
    apply Z.mod_small. lia.
  - rewrite (HL u f) by (done || lia). cbn [snd].
    rewrite (HR _ ((f - 1) `mod` Z.of_nat len)%Z); [|done|done|apply Hmod].
    rewrite with_focusedIndex_twice. f_equal.
    apply with_focusedIndex_same. rewrite Hf. f_equal. symmetry.
    rewrite Zplus_mod_idemp_l. replace (f - 1 + 1)%Z with f by lia.
    apply Z.mod_small. lia.
Qed.

Lemma selectAnswer_locked cfg idx (u : Ui) b :
  currentQuestion (engine u) ≠ None →
  b ∈ selectionButtons (refs (selectAnswer cfg idx u)) → disabled b = true.
Proof.
  intros Hq. unfold selectAnswer.
  destruct (currentQuestion (engine u)) as [[w t]|]; [|done].
  assert (∀ b', b' ∈ lock_button <$> selectionButtons (refs u) → disabled b' = true)
    as Hlocked.
  { by intros b' (b0 & -> & _)%list_elem_of_fmap. }
  destruct ((lock_button <$> selectionButtons (refs u)) !! idx) as [btn|] eqn:Hbtn;
    simpl.
  - intros (i & Hi)%list_elem_of_lookup.
    destruct (decide (i = idx)) as [->|Hne].
    + rewrite list_lookup_insert_eq in Hi by (by eapply lookup_lt_Some).
      injection Hi as <-. simpl. apply Hlocked. by eapply list_elem_of_lookup_2.
    + rewrite list_lookup_insert_ne in Hi by done.
      apply Hlocked. by eapply list_elem_of_lookup_2.
  - apply Hlocked.
Qed.

(** X21: [handleKeydown] at its edges: on a page without selection
    buttons an arrow key makes the focus index [NaN] and throws; a key other
    than the arrows, Enter and Space does nothing, like Enter and Space when
    no selection button is active or the active one is disabled; hence once
    [selectAnswer] ran, Enter and Space record no second answer. *)
Theorem handleKeydown_edges cfg (u : Ui) active :
  (selectionButtons (refs u) = [] →
   handleKeydown cfg ArrowRight active u = (None, with_focusedIndex NaN u) ∧
   handleKeydown cfg ArrowLeft active u = (None, with_focusedIndex NaN u)) ∧
  handleKeydown cfg OtherKey active u = (Some tt, u) ∧
  handleKeydown cfg Enter None u = (Some tt, u) ∧
  (∀ idx btn, selectionButtons (refs u) !! idx = Some btn → disabled btn = true →
     handleKeydown cfg Enter (Some idx) u = (Some tt, u) ∧
     handleKeydown cfg Space (Some idx) u = (Some tt, u)) ∧
  (∀ idx, (handleKeydown cfg Enter active (selectAnswer cfg idx u)).2
          = selectAnswer cfg idx u ∧
          (handleKeydown cfg Space active (selectAnswer cfg idx u)).2
          = selectAnswer cfg idx u).
Proof.
  split_and!; [|done|done| |].
  - intros Hb. unfold handleKeydown, focus_button. rewrite Hb. simpl.
    by destruct (focusedIndex u).
  - intros idx btn Hb Hd. unfold handleKeydown. by rewrite Hb, Hd.
  - intros idx.
    assert (∀ key, key = Enter ∨ key = Space →
              (handleKeydown cfg key active (selectAnswer cfg idx u)).2
              = selectAnswer cfg idx u) as Hkey; [|split; apply Hkey; auto].
    intros key Hk.
    destruct (currentQuestion (engine u)) as [[w t]|] eqn:Hq.
    + assert (∀ b, b ∈ selectionButtons (refs (selectAnswer cfg idx u)) →
                   disabled b = true) as Hlocked.
      { intros b. apply selectAnswer_locked. by rewrite Hq. }
      unfold handleKeydown. destruct active as [i|]; [|by destruct Hk as [->| ->]].
      destruct (selectionButtons (refs (selectAnswer cfg idx u)) !! i) as [b|] eqn:Hb;
        [|by destruct Hk as [->| ->]].
      rewrite (Hlocked b) by (by eapply list_elem_of_lookup_2).
      by destruct Hk as [->| ->].
    + assert (selectAnswer cfg idx u = u) as Hid
        by (unfold selectAnswer; by rewrite Hq).
      rewrite Hid. unfold handleKeydown. destruct active as [i|];
        [|by destruct Hk as [->| ->]].
      destruct (selectionButtons (refs u) !! i) as [b|]; [|by destruct Hk as [->| ->]].
      destruct (disabled b); [by destruct Hk as [->| ->]|].
      assert (selectAnswer cfg i u = u) as -> by (unfold selectAnswer; by rewrite Hq).
      by destruct Hk as [->| ->].
Qed.

Lemma or_else_nil (a : jsstring) : or_else a [] = a.
Proof. by destruct a. Qed.

Lemma changeQuestion_hintUsed cfg s q s' :
  changeQuestion cfg s = (Some q, s') → hintUsed s' = false.
Proof.
  unfold changeQuestion, bindE, lift, orThrow, retE, modify. intros Hrun.
  destruct (chooseWordIndex cfg s) as [[t|] s1]; [|done].
  destruct (createChoicesFor cfg t s1) as [[q'|] s2]; [|done].
  by injection Hrun as <- <-.
Qed.

(** What [changeQuestion] leaves on the page when the engine succeeds. *)
Lemma changeQuestion_page_spec cfg (u : Ui) :
  words (quiz cfg) ≠ [] → state_ok (quiz cfg) (engine u) →
  ∃ q u1 t, changeQuestion_page cfg u = (Some tt, u1) ∧
    changeQuestion (quiz cfg) (engine u) = (Some q, engine u1) ∧
    currentQuestion (engine u1) = Some (word q, t) ∧
    correctAnswerIndex (engine u1)
    = indexOf (choices q) (answer (mode (quiz cfg)) (word q)) ∧
    answer (mode (quiz cfg)) (word q) ∈ choices q ∧
    hintUsed (engine u1) = false ∧
    state_ok (quiz cfg) (engine u1) ∧
    selectionButtons (refs u1)
    = imap (render_button (choices q)) (selectionButtons (refs u)) ∧
    hintText (refs u1) = [] ∧
    nextButton_disabled (refs u1) = true ∧
    nextButton_textContent (refs u1)
    = (if decide (count u < questionCount cfg - 1)%Z
       then text_next (texts cfg) else text_results (texts cfg)) ∧
    quizScreen_display (refs u1) = quizScreen_display (refs u) ∧
    resultScreen_display (refs u1) = resultScreen_display (refs u) ∧
    count u1 = count u ∧ results u1 = results u ∧ storage u1 = storage u ∧
    focusedIndex u1 = focusedIndex u.
Proof.
  intros Hne Hok.
  destruct (changeQuestion_spec (quiz cfg) (engine u) Hne Hok)
    as (q & s' & t & D & Hrun & _ & Hch & Hci & _ & Hcur & Hcorr & _ & Hok').
  unfold changeQuestion_page. rewrite Hrun. eexists q, _, t.
  split; [done|]. simpl. split_and!; try done.
  - congruence.
  - rewrite Hch. apply elem_of_cons. by left.
  - by eapply changeQuestion_hintUsed.
Qed.

(** What [selectAnswer] does on a page with a question and a button at the
    index. *)
Lemma selectAnswer_spec cfg (u : Ui) idx w t btn :
  currentQuestion (engine u) = Some (w, t) →
  selectionButtons (refs u) !! idx = Some btn →
  results (selectAnswer cfg idx u)
  = results u ++
    [{| Persistence.r_question := question_line (mode (quiz cfg)) w;
        Persistence.r_correctAnswer := answer (mode (quiz cfg)) w;
        Persistence.r_hint := or_else (hintText (refs u)) (hint w);
        Persistence.r_answer := textContent btn;
        Persistence.r_correct :=
          bool_decide (Z.of_nat idx = correctAnswerIndex (engine u));
        Persistence.r_hintUsed := hintUsed (engine u) |}] ∧
  resultText (refs (selectAnswer cfg idx u))
  = (if bool_decide (Z.of_nat idx = correctAnswerIndex (engine u))
     then correctText (texts cfg)
     else incorrectPrefix (texts cfg) ++ answer (mode (quiz cfg)) w
          ++ incorrectSuffix (texts cfg)) ∧
  nextButton_disabled (refs (selectAnswer cfg idx u)) = false ∧
  length (selectionButtons (refs (selectAnswer cfg idx u)))
  = length (selectionButtons (refs u)) ∧
  quizScreen_display (refs (selectAnswer cfg idx u)) = quizScreen_display (refs u) ∧
  resultScreen_display (refs (selectAnswer cfg idx u))
  = resultScreen_display (refs u) ∧
  engine (selectAnswer cfg idx u) = engine u ∧
  count (selectAnswer cfg idx u) = count u ∧
  storage (selectAnswer cfg idx u) = storage u ∧
  focusedIndex (selectAnswer cfg idx u) = focusedIndex u.
Proof.
  intros Hq Hb. unfold selectAnswer. rewrite Hq, list_lookup_fmap, Hb. simpl.
  rewrite !or_else_nil. split_and!; try done.
  by rewrite length_insert, length_fmap.
Qed.

(** X22: after [changeQuestion] put a question on the page, a click on a
    button that shows a choice records one result: the question, the correct
    answer, the word's own hint, the clicked text and no hint used. The result
    counts as correct exactly when the clicked button is the first one that
    shows the correct answer's text. The result line says so, the next button
    is enabled and every selection button is disabled. *)
Theorem selectAnswer_after_changeQuestion cfg (u : Ui) :
  words (quiz cfg) ≠ [] → state_ok (quiz cfg) (engine u) →
  ∃ q u1, changeQuestion_page cfg u = (Some tt, u1) ∧
    changeQuestion (quiz cfg) (engine u) = (Some q, engine u1) ∧
    ∀ idx c, idx < length (selectionButtons (refs u)) → choices q !! idx = Some c →
      ∃ right,
        results (selectAnswer cfg idx u1)
        = results u ++
          [{| Persistence.r_question := question_line (mode (quiz cfg)) (word q);
              Persistence.r_correctAnswer := answer (mode (quiz cfg)) (word q);
              Persistence.r_hint := hint (word q);
              Persistence.r_answer := c;
              Persistence.r_correct := right;
              Persistence.r_hintUsed := false |}] ∧
        (right = true ↔
         c = answer (mode (quiz cfg)) (word q) ∧
         ∀ j, j < idx → choices q !! j ≠ Some c) ∧
        resultText (refs (selectAnswer cfg idx u1))
        = (if right then correctText (texts cfg)
           else incorrectPrefix (texts cfg) ++ answer (mode (quiz cfg)) (word q)
                ++ incorrectSuffix (texts cfg)) ∧
        nextButton_disabled (refs (selectAnswer cfg idx u1)) = false ∧
        (∀ b, b ∈ selectionButtons (refs (selectAnswer cfg idx u1)) →
              disabled b = true) ∧
        engine (selectAnswer cfg idx u1) = engine u1.
Proof.
  intros Hne Hok.
  destruct (changeQuestion_page_spec cfg u Hne Hok)
    as (q & u1 & t & Hpage & Hrun & Hcur & Hcorr & Hin & Hhint & _ & Hbtn & Hht
        & _ & _ & _ & _ & _ & Hresults & _).
  exists q, u1. split_and!; [done..|].
  intros idx c Hidx Hc.
  destruct (lookup_lt_is_Some_2 _ _ Hidx) as [b0 Hb0].
  assert (selectionButtons (refs u1) !! idx = Some (render_button (choices q) idx b0))
    as Hb1 by (by rewrite Hbtn, list_lookup_imap, Hb0).
  destruct (selectAnswer_spec cfg u1 idx _ _ _ Hcur Hb1)
    as (Hres & Htext & Hnext & _ & _ & _ & Heng & _).
  exists (bool_decide (Z.of_nat idx = correctAnswerIndex (engine u1))).
  split_and!; [|  |done|done| |done].
  - rewrite Hres, Hht, Hhint, Hresults. unfold render_button. by rewrite Hc.
  - rewrite bool_decide_eq_true, Hcorr.
    destruct (indexOf_spec _ _ Hin) as (i & -> & Hi & Hmin). split.
    + intros Heq. assert (idx = i) as -> by lia.
      split; [congruence|]. intros j Hj. rewrite Hc in Hi. injection Hi as ->.
      by apply Hmin.
    + intros [-> Hfirst]. f_equal.
      destruct (Nat.lt_trichotomy idx i) as [Hlt|[->|Hgt]]; [|done|].
      * by destruct (Hmin idx Hlt).
      * by destruct (Hfirst i Hgt).
  - intros b. apply selectAnswer_locked. by rewrite Hcur.
Qed.

(** X23: [showHint] on a page with a question always shows a text that is
    not empty: the word's own hint, else the hint of [window.wordsMap], else
    the message that there is none. The answer given next is recorded with the
    hint marked as used and with the shown text as its hint. A second call
    changes nothing, and neither call touches the question. *)
Theorem showHint_recorded cfg (u : Ui) w t idx btn :
  currentQuestion (engine u) = Some (w, t) →
  selectionButtons (refs u) !! idx = Some btn →
  hintText (refs (showHint u))
  = or_else (hint w) (or_else (wordsMap_hint (headword w)) no_hint) ∧
  hintText (refs (showHint u)) ≠ [] ∧
  (∃ item, results (selectAnswer cfg idx (showHint u)) = results u ++ [item] ∧
     Persistence.r_hintUsed item = true ∧
     Persistence.r_hint item = hintText (refs (showHint u)) ∧
     Persistence.r_answer item = textContent btn) ∧
  showHint (showHint u) = showHint u ∧
  currentQuestion (engine (showHint u)) = currentQuestion (engine u) ∧
  correctAnswerIndex (engine (showHint u)) = correctAnswerIndex (engine u) ∧
  usedWords (engine (showHint u)) = usedWords (engine u) ∧
  selectionButtons (refs (showHint u)) = selectionButtons (refs u).
Proof.
  intros Hq Hb.
  assert (hintText (refs (showHint u))
          = or_else (hint w) (or_else (wordsMap_hint (headword w)) no_hint)) as Htext
    by (unfold showHint; by rewrite Hq).
  assert (hintText (refs (showHint u)) ≠ []) as Hne.
  { rewrite Htext. destruct (hint w); [|done].
    by destruct (wordsMap_hint (headword w)). }
  assert (currentQuestion (engine (showHint u)) = Some (w, t)) as Hq'
    by (unfold showHint; by rewrite Hq).
  assert (selectionButtons (refs (showHint u)) = selectionButtons (refs u)) as Hbs
    by (unfold showHint; by rewrite Hq).
  split_and!; [done|done| | |by rewrite Hq'|..|done].
  - assert (selectionButtons (refs (showHint u)) !! idx = Some btn) as Hb'
      by (by rewrite Hbs).
    destruct (selectAnswer_spec cfg (showHint u) idx w t btn Hq' Hb') as (-> & _).
    eexists. split.
    + f_equal. unfold showHint. by rewrite Hq.
    + simpl. split_and!; [|  |done].
      * unfold showHint. by rewrite Hq.
      * destruct (hintText (refs (showHint u))); done.
  - unfold showHint at 1. rewrite Hq'. unfold showHint. rewrite Hq. reflexivity.
  - unfold showHint. by rewrite Hq.
  - unfold showHint. by rewrite Hq.
Qed.

Lemma play_inv cfg now st n clicks : ∀ (u0 : Ui) k,
  words (quiz cfg) ≠ [] →
  state_ok (quiz cfg) (engine u0) →
  currentQuestion (engine u0) ≠ None →
  length (selectionButtons (refs u0)) = n →
  count u0 = Z.of_nat k →
  length (results u0) = k →
  quizScreen_display (refs u0) = lit "block" →
  resultScreen_display (refs u0) = lit "none" →
  nextButton_textContent (refs u0)
  = (if decide (count u0 < questionCount cfg - 1)%Z
     then text_next (texts cfg) else text_results (texts cfg)) →
  storage u0 = st →
  Forall (λ idx, idx < n) clicks →
  (Z.of_nat (k + length clicks) ≤ questionCount cfg)%Z →
  ∃ u', play cfg now clicks u0 = (Some tt, u') ∧
    count u' = Z.of_nat (k + length clicks) ∧
    length (results u') = k + length clicks ∧
    (clicks = [] ∨ (Z.of_nat (k + length clicks) < questionCount cfg)%Z →
     quizScreen_display (refs u') = lit "block" ∧
     resultScreen_display (refs u') = lit "none" ∧
     nextButton_textContent (refs u')
     = (if decide (Z.of_nat (k + length clicks) < questionCount cfg - 1)%Z
        then text_next (texts cfg) else text_results (texts cfg)) ∧
     storage u' = st) ∧
    (clicks ≠ [] → Z.of_nat (k + length clicks) = questionCount cfg →
     quizScreen_display (refs u') = lit "none" ∧
     resultScreen_display (refs u') = lit "block" ∧
     storage u'
     = (Persistence.updateStatsWithSession (results u') (questionCount cfg) now st).2).
Proof.
  induction clicks as [|idx rest IH];
    intros u0 k Hne Hok Hcur Hn Hcount Hres Hqs Hrs Hlabel Hst Hall Hle.
  - exists u0. simpl. rewrite Nat.add_0_r. split_and!; [done..| |done].
    intros _. split_and!; [done..| |done]. by rewrite <- Hcount.
  - apply Forall_cons in Hall as [Hidx Hall]. simpl in Hle.
    destruct (currentQuestion (engine u0)) as [[w t]|] eqn:Hq; [|done].
    destruct (lookup_lt_is_Some_2 (selectionButtons (refs u0)) idx) as [btn Hbtn];
      [lia|].
    destruct (selectAnswer_spec cfg u0 idx w t btn Hq Hbtn)
      as (Hr1 & _ & _ & Hn1 & Hqs1 & Hrs1 & He1 & Hc1 & Hst1 & _).
    cbn [play]. unfold nextQuestion. cbn [count].
    set (u1 := selectAnswer cfg idx u0) in *.
    destruct (decide (count u1 + 1 < questionCount cfg)%Z) as [Hlt|Hge].
    + set (u1' := {| engine := engine u1; count := (count u1 + 1)%Z;
                     results := results u1; focusedIndex := focusedIndex u1;
                     refs := refs u1; storage := storage u1 |}).
      assert (state_ok (quiz cfg) (engine u1')) as Hok1 by (simpl; by rewrite He1).
      destruct (changeQuestion_page_spec cfg u1' Hne Hok1)
        as (q & u2 & t2 & -> & _ & Hcur2 & _ & _ & _ & Hok2 & Hb2 & _ & _ & Hl2
            & Hqs2 & Hrs2 & Hc2 & Hr2 & Hst2 & _).
      destruct (IH u2 (S k)) as (u' & Hplay & Hcu & Hru & Hcont & Hend); try done.
      * by rewrite Hcur2.
      * rewrite Hb2, length_imap. simpl. by rewrite Hn1.
      * rewrite Hc2. simpl. lia.
      * rewrite Hr2. simpl. rewrite Hr1, length_app. simpl. lia.
      * rewrite Hqs2. simpl. by rewrite Hqs1.
      * rewrite Hrs2. simpl. by rewrite Hrs1.
      * by rewrite Hl2, Hc2.
      * rewrite Hst2. simpl. by rewrite Hst1.
      * replace (S k + length rest) with (k + S (length rest)) by lia. done.
      * exists u'. replace (k + length (idx :: rest)) with (S k + length rest)
          by (simpl; lia).
        split_and!; [done..| |].
        -- intros [?|Hlt']; [done|]. apply Hcont. by right.
        -- intros _. destruct rest as [|i' rest'].
           ++ simpl in *. lia.
           ++ by apply Hend.
    + destruct rest as [|i' rest']; [|simpl in Hle; lia].
      eexists. cbn [play length]. split; [done|].
      unfold showResults. cbn [engine count results refs storage focusedIndex].
      destruct (Persistence.updateStatsWithSession (results u1)
                  (questionCount cfg) now (storage u1)) as [[s|] st'] eqn:Hup;
        cbn [snd count results refs storage quizScreen_display resultScreen_display].
      * split_and!; [lia|rewrite Hr1, length_app; simpl; lia|intros [?|?]; [done|lia]|].
        intros _ _. split_and!; [done..|]. by rewrite <- Hst, <- Hst1, Hup.
      * split_and!; [lia|rewrite Hr1, length_app; simpl; lia|intros [?|?]; [done|lia]|].
        intros _ _. split_and!; [done..|]. by rewrite <- Hst, <- Hst1, Hup.
Qed.

(** X24: a session. From any page whose index is not stale, [restartQuiz]
    shows a first question; when then each question is answered at one of
    the buttons and the next button pressed, nothing throws, the counter and
    the number of recorded results both equal the number of answers given,
    and as long as that is below [questionCount] the quiz screen stays, the
    store is not written and the next button carries the label of the last
    question exactly on the last question. The press after answer number
    [questionCount] switches to the result screen and leaves the store as
    [updateStatsWithSession] leaves it for the recorded results. *)
Theorem play_session cfg now (u : Ui) clicks :
  words (quiz cfg) ≠ [] → index_ok (quiz cfg) (engine u) →
  Forall (λ idx, idx < length (selectionButtons (refs u))) clicks →
  (Z.of_nat (length clicks) ≤ questionCount cfg)%Z →
  ∃ u0 u', restartQuiz_page cfg u = (Some tt, u0) ∧
    play cfg now clicks u0 = (Some tt, u') ∧
    count u' = Z.of_nat (length clicks) ∧
    length (results u') = length clicks ∧
    (clicks = [] ∨ (Z.of_nat (length clicks) < questionCount cfg)%Z →
     quizScreen_display (refs u') = lit "block" ∧
     resultScreen_display (refs u') = lit "none" ∧
     nextButton_textContent (refs u')
     = (if decide (Z.of_nat (length clicks) < questionCount cfg - 1)%Z
        then text_next (texts cfg) else text_results (texts cfg)) ∧
     storage u' = storage u) ∧
    (clicks ≠ [] → Z.of_nat (length clicks) = questionCount cfg →
     quizScreen_display (refs u') = lit "none" ∧
     resultScreen_display (refs u') = lit "block" ∧
     storage u'
     = (Persistence.updateStatsWithSession (results u') (questionCount cfg) now
          (storage u)).2).
Proof.
  intros Hne Hix Hall Hle. unfold restartQuiz_page.
  match goal with |- context [changeQuestion_page cfg ?x] => set (ur := x) end.
  assert (state_ok (quiz cfg) (engine ur)) as Hok.
  { split; [exact Hix|]. split; [apply NoDup_nil_2|]. simpl. by intros ? ?%elem_of_nil. }
  destruct (changeQuestion_page_spec cfg ur Hne Hok)
    as (q & u0 & t & Hpage & _ & Hcur & _ & _ & _ & Hok0 & Hb0 & _ & _ & Hl0
        & Hqs0 & Hrs0 & Hc0 & Hr0 & Hst0 & _).
  destruct (play_inv cfg now (storage u) (length (selectionButtons (refs u)))
              clicks u0 0) as (u' & Hplay & Hcu & Hru & Hcont & Hend); try done.
  - by rewrite Hcur.
  - by rewrite Hb0, length_imap.
  - by rewrite Hr0.
  - by rewrite Hl0, Hc0.
  - exists u0, u'. done.
Qed.
End page_more.

Lemma handleKeydown_arrows_witness :
  UI.focusedIndex UI.example_ui = UI.Num 0 ∧
  (0 ≤ 0 < Z.of_nat (length (UI.selectionButtons (UI.refs UI.example_ui))))%Z ∧
  UI.handleKeydown UI.example_options UI.ArrowLeft None UI.example_ui
  = (Some tt, UI.with_focusedIndex (UI.Num 3) UI.example_ui) ∧
  UI.handleKeydown UI.example_options UI.ArrowRight None
    (UI.handleKeydown UI.example_options UI.ArrowLeft None UI.example_ui).2
  = (Some tt, UI.example_ui).
Proof.
  assert (UI.focusedIndex UI.example_ui = UI.Num 0) as Hf by reflexivity.
  assert (0 ≤ 0 < Z.of_nat (length (UI.selectionButtons (UI.refs UI.example_ui))))%Z
    as Hz by (simpl; lia).
  split; [exact Hf|]. split; [exact Hz|].
  pose proof (@handleKeydown_arrows Persistence.example_storage UI.example_options
                UI.example_ui 0 None Hf Hz) as (_ & _ & HL & _ & _ & HRL).
  split; [exact HL|exact HRL].
Defined.

Lemma selectAnswer_after_changeQuestion_witness :
  words (UI.quiz UI.example_options) ≠ [] ∧
  state_ok (UI.quiz UI.example_options) (UI.engine UI.example_ui) ∧
  ∃ q u1,
    @UI.changeQuestion_page example_host Persistence.example_storage UI.example_window
      UI.example_options UI.example_ui = (Some tt, u1) ∧
    @changeQuestion example_host (UI.quiz UI.example_options)
      (UI.engine UI.example_ui) = (Some q, UI.engine u1) ∧
    ∀ idx c, idx < length (UI.selectionButtons (UI.refs UI.example_ui)) →
      choices q !! idx = Some c →
      ∃ right,
        UI.results (UI.selectAnswer UI.example_options idx u1)
        = UI.results UI.example_ui ++
          [{| Persistence.r_question :=
                UI.question_line (mode (UI.quiz UI.example_options)) (word q);
              Persistence.r_correctAnswer :=
                answer (mode (UI.quiz UI.example_options)) (word q);
              Persistence.r_hint := hint (word q);
              Persistence.r_answer := c;
              Persistence.r_correct := right;
              Persistence.r_hintUsed := false |}] ∧
        (right = true ↔
         c = answer (mode (UI.quiz UI.example_options)) (word q) ∧
         ∀ j, j < idx → choices q !! j ≠ Some c) ∧
        UI.resultText (UI.refs (UI.selectAnswer UI.example_options idx u1))
        = (if right then UI.correctText (UI.texts UI.example_options)
           else UI.incorrectPrefix (UI.texts UI.example_options)
                ++ answer (mode (UI.quiz UI.example_options)) (word q)
                ++ UI.incorrectSuffix (UI.texts UI.example_options)) ∧
        UI.nextButton_disabled (UI.refs (UI.selectAnswer UI.example_options idx u1))
        = false ∧
        (∀ b, b ∈ UI.selectionButtons
                    (UI.refs (UI.selectAnswer UI.example_options idx u1)) →
              UI.disabled b = true) ∧
        UI.engine (UI.selectAnswer UI.example_options idx u1) = UI.engine u1.
Proof.
  assert (words (UI.quiz UI.example_options) ≠ []) as Hne by done.
  pose proof (state_ok_initial (UI.quiz UI.example_options)) as Hok.
  split; [exact Hne|]. split; [exact Hok|].
  exact (@selectAnswer_after_changeQuestion example_host Persistence.example_storage
           UI.example_window UI.example_options UI.example_ui Hne Hok).
Defined.

Lemma showHint_recorded_witness :
  currentQuestion (UI.engine UI.example_asked)
  = Some (entry "cat" "neko" "noun", 0) ∧
  (∃ btn, UI.selectionButtons (UI.refs UI.example_asked) !! 1 = Some btn ∧
     ∃ item,
       UI.results (UI.selectAnswer UI.example_options 1
                     (@UI.showHint Persistence.example_storage UI.example_window
                        UI.example_asked))
       = UI.results UI.example_asked ++ [item] ∧
       Persistence.r_hintUsed item = true ∧
       Persistence.r_hint item = UI.no_hint ∧
       Persistence.r_answer item = UI.textContent btn).
Proof.
  assert (currentQuestion (UI.engine UI.example_asked)
          = Some (entry "cat" "neko" "noun", 0)) as Hq by (vm_compute; reflexivity).
  split; [exact Hq|].
  destruct (UI.selectionButtons (UI.refs UI.example_asked) !! 1) as [btn|] eqn:Hb;
    [|vm_compute in Hb; discriminate Hb].
  exists btn. split; [reflexivity|].
  pose proof (@showHint_recorded Persistence.example_storage UI.example_window
                UI.example_options UI.example_asked _ _ 1 btn Hq Hb)
    as (Htext & _ & (item & Hres & Hused & Hhint & Hans) & _).
  exists item. split_and!; [exact Hres|exact Hused| |exact Hans].
  rewrite Hhint, Htext. reflexivity.
Defined.

Lemma play_session_witness :
  words (UI.quiz UI.example_options) ≠ [] ∧
  index_ok (UI.quiz UI.example_options) (UI.engine UI.example_ui) ∧
  Forall (λ idx, idx < length (UI.selectionButtons (UI.refs UI.example_ui))) [0; 1; 2] ∧
  (Z.of_nat (length [0; 1; 2]) ≤ UI.questionCount UI.example_options)%Z ∧
  ∃ u0 u',
    @UI.restartQuiz_page example_host Persistence.example_storage UI.example_window
      UI.example_options UI.example_ui = (Some tt, u0) ∧
    @UI.play example_host Persistence.example_storage UI.example_window
      UI.example_options 0 [0; 1; 2] u0 = (Some tt, u') ∧
    UI.count u' = 3%Z ∧
    length (UI.results u') = 3 ∧
    UI.quizScreen_display (UI.refs u') = lit "none" ∧
    UI.resultScreen_display (UI.refs u') = lit "block" ∧
    UI.storage u'
    = (Persistence.updateStatsWithSession (UI.results u') 3 0
         (UI.storage UI.example_ui)).2.
Proof.
  assert (words (UI.quiz UI.example_options) ≠ []) as Hne by done.
  assert (index_ok (UI.quiz UI.example_options) (UI.engine UI.example_ui)) as Hix
    by (intros Hb; discriminate Hb).
  assert (Forall (λ idx, idx < length (UI.selectionButtons (UI.refs UI.example_ui)))
            [0; 1; 2]) as Hall by (repeat constructor).
  assert (Z.of_nat (length [0; 1; 2]) ≤ UI.questionCount UI.example_options)%Z
    as Hle by (simpl; lia).
  split; [exact Hne|]. split; [exact Hix|]. split; [exact Hall|]. split; [exact Hle|].
  destruct (@play_session example_host Persistence.example_storage UI.example_window
              UI.example_options 0 UI.example_ui [0; 1; 2] Hne Hix Hall Hle)
    as (u0 & u' & Hrestart & Hplay & Hcount & Hres & _ & Hend).
  destruct Hend as (Hqs & Hrs & Hst); [done|reflexivity|].
  exists u0, u'. split_and!; [exact Hrestart|exact Hplay|exact Hcount|exact Hres
                             |exact Hqs|exact Hrs|exact Hst].
Defined.
